(** * The stack unwinder of pkg/proc/stack.go, embedded in Rocq

    The development follows the layout of the Go package: machine words and
    target memory first, then the [op] and [frame] data the unwinder
    consumes, the frame advancer and register-rule evaluator, the stack
    iterator with its inline expansion, the arm64 architecture adapter, the
    defer correlator and the range-over-func reconstruction.  Theorems come
    after the definitions. *)

From Stdlib Require Import ZArith Lia Bool List.
From Stdlib.Strings Require Import Byte.
From stdpp Require Import base option list gmap strings.

Set Warnings "-register-all".
Local Open Scope Z_scope.

(** ** Machine words *)

(** Go's [uint64(x)] conversion: the value modulo 2^64. *)
Definition uint64 (z : Z) : Z := z mod 2 ^ 64.

(** Go's [int64(x)] conversion: two's complement re-interpretation. *)
Definition int64 (z : Z) : Z := (z + 2 ^ 63) mod 2 ^ 64 - 2 ^ 63.

Definition is_uint64 (z : Z) : Prop := 0 <= z < 2 ^ 64.
Definition is_int64 (z : Z) : Prop := - 2 ^ 63 <= z < 2 ^ 63.

Definition byte_to_Z (b : byte) : Z := Z.of_N (Byte.to_N b).

Definition byte_of_Z (z : Z) : byte :=
  match Byte.of_N (Z.to_N (z mod 256)) with
  | Some b => b
  | None => x00
  end.

(** [binary.LittleEndian] decoding of a byte slice. *)
Fixpoint le_decode (bs : list byte) : Z :=
  match bs with
  | [] => 0
  | b :: rest => byte_to_Z b + 256 * le_decode rest
  end.

Fixpoint le_encode (n : nat) (z : Z) : list byte :=
  match n with
  | O => []
  | S k => byte_of_Z z :: le_encode k (z / 256)
  end.

(** ** Outcomes of the Go code

    A Go function either returns, or the runtime panics (a nil pointer is
    dereferenced), or a loop of the source has no bound and the model ran out
    of fuel before it finished. *)

Inductive Result (A : Type) : Type :=
| Ok (a : A)
| Panic
| OutOfFuel.
Arguments Ok {A} a.
Arguments Panic {A}.
Arguments OutOfFuel {A}.

Definition rbind {A B : Type} (r : Result A) (k : A -> Result B) : Result B :=
  match r with
  | Ok a => k a
  | Panic => Panic
  | OutOfFuel => OutOfFuel
  end.

#[global] Instance Result_ret : MRet Result := fun A a => Ok a.
#[global] Instance Result_bind : MBind Result := fun A B k r => rbind r k.

(** ** Errors *)

Inductive error : Type :=
| NullAddrError
| ErrCFAUndefined (pc : Z)
| ErrUndefinedReturnAddress (pc : Z)
| ErrArchitecturalRule
| ErrNilGoroutine
| ErrLRNil
| ErrNegativeDepth
| errSPDecreased
| ErrNonMonotonicSP
| ErrNoRangeParent
| ErrIncompleteRangeStack
| ErrReadMemory (addr : Z)
| ErrExternal (msg : string).

(** ** Target memory

    Modelled from the spec: [MemoryReadWriter] is declared outside this file
    ("Memory.ReadMemory(dst[], addr) -> n, err").  The target is stopped, so
    memory is a partial map from addresses to bytes; a read of [n] bytes
    succeeds when all of them are mapped.  On failure the destination buffer
    keeps its zero contents. *)

Definition Memory : Type := Z -> option byte.

Fixpoint ReadMemory (mem : Memory) (addr : Z) (n : nat) : option (list byte) :=
  match n with
  | O => Some []
  | S k =>
      match mem addr with
      | None => None
      | Some b =>
          match ReadMemory mem (uint64 (addr + 1)) k with
          | None => None
          | Some bs => Some (b :: bs)
          end
      end
  end.

(** The buffer after [buf := make([]byte, n); mem.ReadMemory(buf, addr)]
    together with the error. *)
Definition readInto (mem : Memory) (addr : Z) (n : nat) : list byte * option error :=
  match ReadMemory mem addr n with
  | Some bs => (bs, None)
  | None => (repeat x00 n, Some (ErrReadMemory addr))
  end.

(** Modelled from the spec: [readUintRaw] and [readIntRaw] live in another
    file of the package; they read [sz] bytes and decode them little-endian,
    unsigned respectively signed. *)
Definition readUintRaw (mem : Memory) (addr : Z) (sz : Z) : Z * option error :=
  match ReadMemory mem addr (Z.to_nat sz) with
  | Some bs => (le_decode bs, None)
  | None => (0, Some (ErrReadMemory addr))
  end.

Definition readIntRaw (mem : Memory) (addr : Z) (sz : Z) : Z * option error :=
  match ReadMemory mem addr (Z.to_nat sz) with
  | Some bs => (int64 (le_decode bs), None)
  | None => (0, Some (ErrReadMemory addr))
  end.

(** ** Package op: DWARF registers

    Modelled from the spec: [op.DwarfRegister] and [op.DwarfRegisters] are
    declared in pkg/dwarf/op ("an indexed register file with named special
    indices (PC, SP, BP/FP, LR), a static-base addend, byte order, CFA slot,
    and a frame-base slot").  The slice of register pointers is a finite map
    from register number to register; a nil entry is an absent key.  Register
    files are values here: a copy of a [DwarfRegisters] does not share its
    registers with the original.  In the source the copy shares the register
    pointers: the frame built by [newStackframe] ([Regs: it.regs]) and the
    frames delivered before hold the registers of [it.regs], and a later
    store through a register pointer shows in them as well.  A [Stackframe]
    here holds the registers it was built with.  The callback that loads
    further registers on demand is left out: a register that is not in the
    file is nil. *)

Module op.

Record DwarfRegister : Type := mkDwarfRegister {
  Uint64Val : Z;
  Bytes : list byte
}.

Inductive ByteOrder : Type := LittleEndian | BigEndian.

Record DwarfRegisters : Type := mkDwarfRegisters {
  StaticBase : Z;
  CFA : Z;
  FrameBase : Z;
  regs : gmap Z DwarfRegister;
  byteOrder : ByteOrder;
  PCRegNum : Z;
  SPRegNum : Z;
  BPRegNum : Z;
  LRRegNum : Z
}.

(** The zero value [op.DwarfRegisters{}]. *)
Definition zero : DwarfRegisters :=
  mkDwarfRegisters 0 0 0 ∅ LittleEndian 0 0 0 0.

Definition DwarfRegisterFromUint64 (v : Z) : DwarfRegister :=
  mkDwarfRegister v [].

(** Little-endian decoding of a 1, 2, 4 or at-least-8 byte buffer; other
    lengths leave the integer value zero. *)
Definition DwarfRegisterFromBytes (bs : list byte) : DwarfRegister :=
  let n := length bs in
  let v :=
    if (n =? 1)%nat || (n =? 2)%nat || (n =? 4)%nat then le_decode bs
    else if (8 <=? n)%nat then le_decode (take 8 bs)
    else 0 in
  mkDwarfRegister v bs.

Definition Reg (r : DwarfRegisters) (idx : Z) : option DwarfRegister :=
  regs r !! idx.

Definition Uint64Val_at (r : DwarfRegisters) (idx : Z) : Z :=
  match Reg r idx with
  | Some reg => Uint64Val reg
  | None => 0
  end.

Definition set_regs (r : DwarfRegisters) (m : gmap Z DwarfRegister) : DwarfRegisters :=
  mkDwarfRegisters (StaticBase r) (CFA r) (FrameBase r) m (byteOrder r)
    (PCRegNum r) (SPRegNum r) (BPRegNum r) (LRRegNum r).

Definition set_CFA (r : DwarfRegisters) (v : Z) : DwarfRegisters :=
  mkDwarfRegisters (StaticBase r) v (FrameBase r) (regs r) (byteOrder r)
    (PCRegNum r) (SPRegNum r) (BPRegNum r) (LRRegNum r).

Definition set_FrameBase (r : DwarfRegisters) (v : Z) : DwarfRegisters :=
  mkDwarfRegisters (StaticBase r) (CFA r) v (regs r) (byteOrder r)
    (PCRegNum r) (SPRegNum r) (BPRegNum r) (LRRegNum r).

Definition set_StaticBase (r : DwarfRegisters) (v : Z) : DwarfRegisters :=
  mkDwarfRegisters v (CFA r) (FrameBase r) (regs r) (byteOrder r)
    (PCRegNum r) (SPRegNum r) (BPRegNum r) (LRRegNum r).

(** [regs.AddReg(idx, reg)]; storing a nil register leaves the slot nil. *)
Definition AddReg (r : DwarfRegisters) (idx : Z) (reg : option DwarfRegister) : DwarfRegisters :=
  match reg with
  | Some x => set_regs r (<[idx := x]> (regs r))
  | None => set_regs r (delete idx (regs r))
  end.

(** [regs.Reg(idx).Uint64Val = v]: a store through the register pointer,
    which panics when the register is nil. *)
Definition setUint64Val (r : DwarfRegisters) (idx : Z) (v : Z) : Result DwarfRegisters :=
  match Reg r idx with
  | Some reg => Ok (set_regs r (<[idx := mkDwarfRegister v (Bytes reg)]> (regs r)))
  | None => Panic
  end.

Definition PC (r : DwarfRegisters) : Z := Uint64Val_at r (PCRegNum r).
Definition SP (r : DwarfRegisters) : Z := Uint64Val_at r (SPRegNum r).
Definition BP (r : DwarfRegisters) : Z := Uint64Val_at r (BPRegNum r).

End op.

(** ** Package frame: call frame information

    Modelled from the spec: [frame.DWRule] and [frame.FrameContext] are
    declared in pkg/dwarf/frame ("the CFI evaluation state at a PC: the CFA
    rule, a register-rule map, and the index of the return-address
    register"). *)

Module frame.

Inductive Rule : Type :=
| RuleUndefined
| RuleSameVal
| RuleOffset
| RuleValOffset
| RuleRegister
| RuleExpression
| RuleValExpression
| RuleArchitectural
| RuleCFA
| RuleFramePointer
| RuleUnknown (code : Z).

Record DWRule : Type := mkDWRule {
  rule : Rule;
  Offset : Z;
  Reg : Z;
  Expression : list byte
}.

(** The zero value of [DWRule], which a Go map returns for a missing key. *)
Definition zeroRule : DWRule := mkDWRule RuleUndefined 0 0 [].

Record FrameContext : Type := mkFrameContext {
  CFA : DWRule;
  Regs : gmap Z DWRule;
  RetAddrReg : Z
}.

Definition set_CFA (c : FrameContext) (r : DWRule) : FrameContext :=
  mkFrameContext r (Regs c) (RetAddrReg c).

Definition set_Reg (c : FrameContext) (i : Z) (r : DWRule) : FrameContext :=
  mkFrameContext (CFA c) (<[i := r]> (Regs c)) (RetAddrReg c).

Definition regRule (c : FrameContext) (i : Z) : DWRule :=
  default zeroRule (Regs c !! i).

End frame.

(** ** Package dwarf: the attributes of an inlined-subroutine entry that
    [appendInlineCalls] reads.  A missing attribute (or one of another type)
    makes the type assertion of the source fail. *)

Module dwarf.

Record Entry : Type := mkEntry {
  Offset : Z;
  AttrName : option string;
  AttrCallFile : option Z;
  AttrCallLine : option Z
}.

End dwarf.

(** ** Functions and locations

    [Function] and [Location] are declared elsewhere in package proc; only
    the fields the unwinder touches are kept.  The compile unit carries what
    the unwinder asks of it: whether it has a line table, whether its image
    is stripped, and the optimisation flags. *)

Record compileUnit : Type := mkCompileUnit {
  cuName : string;
  lineInfo : bool;
  optimized : Z;
  imageStripped : bool
}.

Record Function : Type := mkFunction {
  Name : string;
  Entry : Z;
  End_ : Z;
  offset : Z;
  cu : compileUnit
}.

Definition optimizedOptimized : Z := 2.

Record Location : Type := mkLocation {
  PC : Z;
  File : string;
  Line : Z;
  Fn : option Function
}.

Definition zeroLocation : Location := mkLocation 0 "" 0 None.

#[global] Instance compileUnit_eq_dec : EqDecision compileUnit.
Proof. solve_decision. Defined.
#[global] Instance Function_eq_dec : EqDecision Function.
Proof. solve_decision. Defined.

(** [fn != nil && fn.Name == name] *)
Definition fnNamed (fn : option Function) (name : string) : bool :=
  match fn with
  | Some f => bool_decide (Name f = name)
  | None => false
  end.

(** ** Deferred calls

    [link] holds the address of the runtime record the [link] pointer of the
    source refers to (0 for nil): the Go object behind it carries nothing but
    that address until [Next] loads it. *)

Inductive Defer : Type := mkDefer {
  DwrapPC : Z;
  DeferPC : Z;
  SP : Z;
  link : Z;
  argSz : Z;
  rangefunc : list Defer;
  variable : Z;
  Unreadable : option error
}.

(** ** Stack frames *)

Record Stackframe : Type := mkStackframe {
  Current : Location;
  Call : Location;
  Regs : op.DwarfRegisters;
  stackHi : Z;
  Ret : Z;
  Err : option error;
  SystemStack : bool;
  Inlined : bool;
  hasInlines : bool;
  Bottom : bool;
  lastpc : Z;
  closurePtr : Z;
  TopmostDefer : option Defer;
  Defers : list Defer
}.

(** The zero value [Stackframe{}]. *)
Definition zeroStackframe : Stackframe :=
  mkStackframe zeroLocation zeroLocation op.zero 0 0 None false false false false 0 0 None [].

Definition set_Call (f : Stackframe) (v : Location) : Stackframe :=
  mkStackframe (Current f) v (Regs f) (stackHi f) (Ret f) (Err f) (SystemStack f)
    (Inlined f) (hasInlines f) (Bottom f) (lastpc f) (closurePtr f) (TopmostDefer f) (Defers f).

Definition set_Regs (f : Stackframe) (v : op.DwarfRegisters) : Stackframe :=
  mkStackframe (Current f) (Call f) v (stackHi f) (Ret f) (Err f) (SystemStack f)
    (Inlined f) (hasInlines f) (Bottom f) (lastpc f) (closurePtr f) (TopmostDefer f) (Defers f).

Definition set_Ret (f : Stackframe) (v : Z) : Stackframe :=
  mkStackframe (Current f) (Call f) (Regs f) (stackHi f) v (Err f) (SystemStack f)
    (Inlined f) (hasInlines f) (Bottom f) (lastpc f) (closurePtr f) (TopmostDefer f) (Defers f).

Definition set_hasInlines (f : Stackframe) (v : bool) : Stackframe :=
  mkStackframe (Current f) (Call f) (Regs f) (stackHi f) (Ret f) (Err f) (SystemStack f)
    (Inlined f) v (Bottom f) (lastpc f) (closurePtr f) (TopmostDefer f) (Defers f).

Definition set_Bottom (f : Stackframe) (v : bool) : Stackframe :=
  mkStackframe (Current f) (Call f) (Regs f) (stackHi f) (Ret f) (Err f) (SystemStack f)
    (Inlined f) (hasInlines f) v (lastpc f) (closurePtr f) (TopmostDefer f) (Defers f).

Definition set_lastpc (f : Stackframe) (v : Z) : Stackframe :=
  mkStackframe (Current f) (Call f) (Regs f) (stackHi f) (Ret f) (Err f) (SystemStack f)
    (Inlined f) (hasInlines f) (Bottom f) v (closurePtr f) (TopmostDefer f) (Defers f).

Definition set_closurePtr (f : Stackframe) (v : Z) : Stackframe :=
  mkStackframe (Current f) (Call f) (Regs f) (stackHi f) (Ret f) (Err f) (SystemStack f)
    (Inlined f) (hasInlines f) (Bottom f) (lastpc f) v (TopmostDefer f) (Defers f).

Definition set_TopmostDefer (f : Stackframe) (v : option Defer) : Stackframe :=
  mkStackframe (Current f) (Call f) (Regs f) (stackHi f) (Ret f) (Err f) (SystemStack f)
    (Inlined f) (hasInlines f) (Bottom f) (lastpc f) (closurePtr f) v (Defers f).

Definition set_Defers (f : Stackframe) (v : list Defer) : Stackframe :=
  mkStackframe (Current f) (Call f) (Regs f) (stackHi f) (Ret f) (Err f) (SystemStack f)
    (Inlined f) (hasInlines f) (Bottom f) (lastpc f) (closurePtr f) (TopmostDefer f) v.

Definition set_File_Line (l : Location) (file : string) (line : Z) : Location :=
  mkLocation (PC l) file line (Fn l).

(** [contains] returns true if [off] is between CFA and SP. *)
Definition contains (fr : Stackframe) (off : Z) : bool :=
  let p := uint64 (off + int64 (stackHi fr)) in
  (op.SP (Regs fr) <? p) && (p <=? uint64 (op.CFA (Regs fr))).

(** ** Goroutines

    Modelled from the spec: the goroutine handle is supplied by the variable
    evaluator ("{id, pc, sp, bp, lr, stack.lo, stack.hi, thread?,
    system_stack_flag, m->g0}").  [Thread] is the outcome of
    [g.Thread.Registers()] converted to DWARF registers when the goroutine is
    running on a thread; [g0SP] is the [SP] of [m.g0] when it can be read;
    [deferHead] is the address held by the [_defer] field (0 for nil). *)

Module G.

Record t : Type := mk {
  ID : Z;
  PC : Z;
  SP : Z;
  BP : Z;
  LR : Z;
  stack_lo : Z;
  stack_hi : Z;
  SystemStack : bool;
  Thread : option (op.DwarfRegisters + error);
  g0SP : option Z;
  deferHead : Z
}.

End G.

(** ** Stacktrace options *)

Definition StacktraceOptions : Type := Z.
Definition StacktraceReadDefers : StacktraceOptions := 1.
Definition StacktraceSimple : StacktraceOptions := 2.
Definition StacktraceG : StacktraceOptions := 4.

(** [opts & flag != 0] *)
Definition hasOpt (opts flag : StacktraceOptions) : bool :=
  negb (Z.land opts flag =? 0).

(** ** The stack iterator

    The [bi], [mem] fields of the source are parameters of the functions
    below; [target] records whether the target pointer is non-nil. *)

Record stackIterator : Type := mkStackIterator {
  pc : Z;
  top : bool;
  atend : bool;
  sigret : bool;
  frame_ : Stackframe;
  target : bool;
  err : option error;
  stackhi : Z;
  systemstack : bool;
  regs : op.DwarfRegisters;
  g : option G.t;
  g0_sched_sp : Z;
  g0_sched_sp_loaded : bool;
  count : Z;
  opts : StacktraceOptions
}.

Definition set_pc (it : stackIterator) (v : Z) : stackIterator :=
  mkStackIterator v (top it) (atend it) (sigret it) (frame_ it) (target it) (err it) (stackhi it) (systemstack it) (regs it) (g it) (g0_sched_sp it) (g0_sched_sp_loaded it) (count it) (opts it).

Definition set_top (it : stackIterator) (v : bool) : stackIterator :=
  mkStackIterator (pc it) v (atend it) (sigret it) (frame_ it) (target it) (err it) (stackhi it) (systemstack it) (regs it) (g it) (g0_sched_sp it) (g0_sched_sp_loaded it) (count it) (opts it).

Definition set_atend (it : stackIterator) (v : bool) : stackIterator :=
  mkStackIterator (pc it) (top it) v (sigret it) (frame_ it) (target it) (err it) (stackhi it) (systemstack it) (regs it) (g it) (g0_sched_sp it) (g0_sched_sp_loaded it) (count it) (opts it).

Definition set_sigret (it : stackIterator) (v : bool) : stackIterator :=
  mkStackIterator (pc it) (top it) (atend it) v (frame_ it) (target it) (err it) (stackhi it) (systemstack it) (regs it) (g it) (g0_sched_sp it) (g0_sched_sp_loaded it) (count it) (opts it).

Definition set_frame (it : stackIterator) (v : Stackframe) : stackIterator :=
  mkStackIterator (pc it) (top it) (atend it) (sigret it) v (target it) (err it) (stackhi it) (systemstack it) (regs it) (g it) (g0_sched_sp it) (g0_sched_sp_loaded it) (count it) (opts it).

Definition set_err (it : stackIterator) (v : option error) : stackIterator :=
  mkStackIterator (pc it) (top it) (atend it) (sigret it) (frame_ it) (target it) v (stackhi it) (systemstack it) (regs it) (g it) (g0_sched_sp it) (g0_sched_sp_loaded it) (count it) (opts it).

Definition set_systemstack (it : stackIterator) (v : bool) : stackIterator :=
  mkStackIterator (pc it) (top it) (atend it) (sigret it) (frame_ it) (target it) (err it) (stackhi it) v (regs it) (g it) (g0_sched_sp it) (g0_sched_sp_loaded it) (count it) (opts it).

Definition set_regs (it : stackIterator) (v : op.DwarfRegisters) : stackIterator :=
  mkStackIterator (pc it) (top it) (atend it) (sigret it) (frame_ it) (target it) (err it) (stackhi it) (systemstack it) v (g it) (g0_sched_sp it) (g0_sched_sp_loaded it) (count it) (opts it).

Definition set_g0_sched_sp (it : stackIterator) (v : Z) : stackIterator :=
  mkStackIterator (pc it) (top it) (atend it) (sigret it) (frame_ it) (target it) (err it) (stackhi it) (systemstack it) (regs it) (g it) v (g0_sched_sp_loaded it) (count it) (opts it).

Definition set_g0_sched_sp_loaded (it : stackIterator) (v : bool) : stackIterator :=
  mkStackIterator (pc it) (top it) (atend it) (sigret it) (frame_ it) (target it) (err it) (stackhi it) (systemstack it) (regs it) (g it) (g0_sched_sp it) v (count it) (opts it).

Definition set_count (it : stackIterator) (v : Z) : stackIterator :=
  mkStackIterator (pc it) (top it) (atend it) (sigret it) (frame_ it) (target it) (err it) (stackhi it) (systemstack it) (regs it) (g it) (g0_sched_sp it) (g0_sched_sp_loaded it) v (opts it).

Definition set_opts (it : stackIterator) (v : StacktraceOptions) : stackIterator :=
  mkStackIterator (pc it) (top it) (atend it) (sigret it) (frame_ it) (target it) (err it) (stackhi it) (systemstack it) (regs it) (g it) (g0_sched_sp it) (g0_sched_sp_loaded it) (count it) v.

(** ** External collaborators

    Modelled from the spec: the symbol table, the line table, the DWARF
    readers and the location-expression evaluator are outside this file and
    are referenced by interface only ("BinaryInfo.PCToLine(pc) -> (file,
    line, fn?), PCToFunc(pc) -> fn?, PCToImage(pc) -> image, Location(entry,
    attr, pc, regs, mem) -> value, frameEntries.FDEForPC(pc) -> fde | NoFDE,
    per-CU lineInfo, inline-subprogram tree reader").  Each field stands for
    the call named in its comment. *)

Record BinaryInfo : Type := mkBinaryInfo {
  (* bi.PCToLine(pc) *)
  PCToLine : Z -> string * Z * option Function;
  (* bi.PCToFunc(pc) *)
  PCToFunc : Z -> option Function;
  (* bi.PCToImage(pc).StaticBase *)
  PCToImage_StaticBase : Z -> Z;
  (* bi.frameEntries.FDEForPC(pc) followed by fde.EstablishFrame(pc);
     None when there is no FDE or the frame program fails *)
  FDEForPC : Z -> option frame.FrameContext;
  (* bi.lookupOneFunc(name) *)
  lookupOneFunc : string -> option Function;
  (* op.ExecuteStackProgram(regs, expr, ptrSize, mem.ReadMemory) *)
  ExecuteStackProgram : op.DwarfRegisters -> list byte -> Z -> Memory -> Z + error;
  (* goversion.ProducerAfterOrEqual(bi.Producer(), 1, 19), false when the
     producer is empty *)
  ProducerAfterOrEqual_1_19 : bool;
  (* fn.cu.lineInfo.PCToLine(fn.Entry, pc) *)
  lineInfo_PCToLine : Function -> Z -> string * Z;
  (* fn.cu.image.getDwarfTree(fn.offset) succeeds *)
  getDwarfTree : Function -> bool;
  (* bi.Location(dwarfTree.Entry, dwarf.AttrFrameBase, pc, regs, mem) *)
  Location_FrameBase : Function -> Z -> op.DwarfRegisters -> Memory -> Z;
  (* readLocalPtrVar(dwarfTree, goClosurePtr, ...) *)
  readLocalPtrVar_closureptr : Function -> op.DwarfRegisters -> Memory -> Z;
  (* reader.InlineStack(dwarfTree, callpc) *)
  InlineStack : Function -> Z -> list dwarf.Entry;
  (* fn.cu.filePath(fileidx, e) *)
  filePath : Function -> Z -> string + error;
  (* fn.extra(bi).rangeParent *)
  rangeParent : Function -> option Function;
  (* funcvalAddr of the function-kind locals that
     scope.simpleLocals(localsNoDeclLineCheck|localsOnlyRangeBodyClosures)
     returns for the frame *)
  rangeBodyClosures : Stackframe -> list Z;
  (* it.readSigtrampgoContext() *)
  readSigtrampgoContext : stackIterator -> Memory -> op.DwarfRegisters + error
}.

(** The architecture adapter without its [switchStack] hook, which calls
    back into the frame advancer and is therefore added in [Arch] below. *)

Record ArchCore : Type := mkArchCore {
  usesLR : bool;
  PtrSize : Z;
  regSize : Z -> nat;
  fixFrameUnwindContext : option frame.FrameContext -> Z -> BinaryInfo -> frame.FrameContext;
  addrAndStackRegsToDwarfRegisters : Z -> Z -> Z -> Z -> Z -> op.DwarfRegisters
}.

(** ** Register-rule evaluator and frame advancer *)

Section Advancer.

Context (bi : BinaryInfo) (a : ArchCore) (mem : Memory).

Definition readRegisterAt (it : stackIterator) (regnum : Z) (addr : Z)
  : option op.DwarfRegister * option error :=
  match ReadMemory mem addr (regSize a regnum) with
  | None => (None, Some (ErrReadMemory addr))
  | Some buf => (Some (op.DwarfRegisterFromBytes buf), None)
  end.

Definition executeFrameRegRule (it : stackIterator) (regnum : Z) (rule : frame.DWRule) (cfa : Z)
  : option op.DwarfRegister * option error :=
  match frame.rule rule with
  | frame.RuleUnknown _ | frame.RuleUndefined => (None, None)
  | frame.RuleSameVal =>
      match op.Reg (regs it) regnum with
      | None => (None, None)
      | Some reg => (Some reg, None)
      end
  | frame.RuleOffset =>
      readRegisterAt it regnum (uint64 (cfa + frame.Offset rule))
  | frame.RuleValOffset =>
      (Some (op.DwarfRegisterFromUint64 (uint64 (cfa + frame.Offset rule))), None)
  | frame.RuleRegister =>
      (op.Reg (regs it) (frame.Reg rule), None)
  | frame.RuleExpression =>
      match ExecuteStackProgram bi (regs it) (frame.Expression rule) (PtrSize a) mem with
      | inr e => (None, Some e)
      | inl v => readRegisterAt it regnum (uint64 v)
      end
  | frame.RuleValExpression =>
      match ExecuteStackProgram bi (regs it) (frame.Expression rule) (PtrSize a) mem with
      | inr e => (None, Some e)
      | inl v => (Some (op.DwarfRegisterFromUint64 (uint64 v)), None)
      end
  | frame.RuleArchitectural => (None, Some ErrArchitecturalRule)
  | frame.RuleCFA =>
      match op.Reg (regs it) (frame.Reg rule) with
      | None => (None, None)
      | Some _ =>
          (Some (op.DwarfRegisterFromUint64
                   (uint64 (int64 (op.Uint64Val_at (regs it) (frame.Reg rule)) + frame.Offset rule))),
           None)
      end
  | frame.RuleFramePointer =>
      match op.Reg (regs it) (frame.Reg rule) with
      | None => (None, None)
      | Some curReg =>
          if op.Uint64Val curReg <=? uint64 cfa
          then readRegisterAt it regnum (op.Uint64Val curReg)
          else (Some curReg, None)
      end
  end.

(** The state threaded through the register loop of [advanceRegs]. *)
Record advanceState : Type := mkAdvanceState {
  as_it : stackIterator;
  callFrameRegs : op.DwarfRegisters;
  as_ret : Z;
  as_retaddr : Z
}.

(** One iteration of [for i, regRule := range framectx.Regs]. *)
Definition advanceRegsStep (RetAddrReg : Z) (st : advanceState) (entry : Z * frame.DWRule)
  : advanceState :=
  let '(i, regRule) := entry in
  let it := as_it st in
  let '(reg, err) := executeFrameRegRule it i regRule (op.CFA (regs it)) in
  let cfr := op.AddReg (callFrameRegs st) i reg in
  if bool_decide (i = RetAddrReg) then
    let '(it, ret) :=
      match reg with
      | None =>
          let err := match err with
                     | None => Some (ErrUndefinedReturnAddress (pc it))
                     | Some e => Some e
                     end in
          (set_err it err, as_ret st)
      | Some reg =>
          if fnNamed (Fn (Call (frame_ it))) "runtime.sigpanic" && usesLR a then
            let '(buf, err) := readInto mem (uint64 (op.CFA (regs it))) 8 in
            let it := match err with
                      | Some e => set_err it (Some e)
                      | None => it
                      end in
            (it, le_decode buf)
          else (it, op.Uint64Val reg)
      end in
    mkAdvanceState it cfr ret (uint64 (op.CFA (regs it) + frame.Offset regRule))
  else
    mkAdvanceState it cfr (as_ret st) (as_retaddr st).

Definition advanceRegsLoop (framectx : frame.FrameContext) (st : advanceState) : advanceState :=
  foldl (advanceRegsStep (frame.RetAddrReg framectx)) st (map_to_list (frame.Regs framectx)).

(** [advanceRegs] calculates the registers of the next stack frame; it
    returns the iterator (whose [regs.CFA] and [err] it may have set), the
    caller-side registers, [ret] and [retaddr]. *)
Definition advanceRegs (it : stackIterator) : stackIterator * op.DwarfRegisters * Z * Z :=
  let framectx := fixFrameUnwindContext a (FDEForPC bi (pc it)) (pc it) bi in
  let '(cfareg, _) := executeFrameRegRule it 0 (frame.CFA framectx) 0 in
  match cfareg with
  | None => (set_err it (Some (ErrCFAUndefined (pc it))), op.zero, 0, 0)
  | Some cfareg =>
      let it := set_regs it (op.set_CFA (regs it) (int64 (op.Uint64Val cfareg))) in
      let cfr :=
        op.mkDwarfRegisters (PCToImage_StaticBase bi (pc it)) 0 0 ∅ (op.byteOrder (regs it))
          (op.PCRegNum (regs it)) (op.SPRegNum (regs it))
          (op.BPRegNum (regs it)) (op.LRRegNum (regs it)) in
      let cfr := op.AddReg cfr (op.SPRegNum cfr) (Some cfareg) in
      let st := advanceRegsLoop framectx (mkAdvanceState it cfr 0 0) in
      let it := as_it st in
      let ret :=
        if usesLR a then
          match op.Reg (regs it) (op.LRRegNum (regs it)) with
          | Some lr => if as_ret st =? 0 then op.Uint64Val lr else as_ret st
          | None => as_ret st
          end
        else as_ret st in
      (it, callFrameRegs st, ret, as_retaddr st)
  end.

(** [frameBase] calculates the frame base pseudo-register for [fn]. *)
Definition frameBase (it : stackIterator) (fn : Function) : Z :=
  if imageStripped (cu fn) then 0
  else if negb (getDwarfTree bi fn) then 0
  else Location_FrameBase bi fn (pc it) (regs it) mem.

Definition newStackframe (it : stackIterator) (ret retaddr : Z) : stackIterator * Stackframe :=
  if retaddr =? 0 then (set_err it (Some NullAddrError), zeroStackframe)
  else
    let '(f, l, fn) := PCToLine bi (pc it) in
    let '(f, l, it) :=
      match fn with
      | None => ("?"%string, -1, it)
      | Some fn' => (f, l, set_regs it (op.set_FrameBase (regs it) (frameBase it fn')))
      end in
    let cur := mkLocation (pc it) f l fn in
    let r := mkStackframe cur zeroLocation (regs it) (stackhi it) ret None (systemstack it)
               false false false (pc it) 0 None [] in
    let r :=
      match op.Reg (Regs r) (op.PCRegNum (regs it)) with
      | None => set_Regs r (op.AddReg (Regs r) (op.PCRegNum (regs it))
                              (Some (op.DwarfRegisterFromUint64 (pc it))))
      | Some _ => r
      end in
    let r := set_Call r (Current r) in
    let r :=
      match fn with
      | Some cfn =>
          if negb (top it) && negb (pc it =? Entry cfn) && negb (sigret it) then
            if bool_decide (Name cfn = "runtime.mstart")
               || bool_decide (Name cfn = "runtime.systemstack_switch")
            then r
            else
              let r := set_lastpc r (uint64 (pc it - 1)) in
              let '(cf, cl) := lineInfo_PCToLine bi cfn (uint64 (pc it - 1)) in
              set_Call r (set_File_Line (Call r) cf cl)
          else r
      | None => r
      end in
    let r :=
      match fn, g it with
      | Some cfn, Some gg =>
          if negb (imageStripped (cu cfn)) && negb (SystemStack r) && getDwarfTree bi cfn then
            let c := readLocalPtrVar_closureptr bi cfn (Regs r) mem in
            if c =? 0 then r
            else if (G.stack_lo gg <=? c) && (c <? G.stack_hi gg)
                 then set_closurePtr r (int64 (int64 c - int64 (G.stack_hi gg)))
                 else set_closurePtr r (int64 c)
          else r
      | _, _ => r
      end in
    (it, r).

(** [switchToGoroutineStack] returns the error of the source next to the
    updated iterator.  Its stores go to the register file of the iterator,
    a value here (see [op]): frames that share these registers in the
    source are not rewritten with them. *)
Definition switchToGoroutineStack (it : stackIterator) : Result (stackIterator * option error) :=
  match g it with
  | None => Ok (it, Some ErrNilGoroutine)
  | Some gg =>
      let it := set_systemstack it false in
      let it := set_top it false in
      let it := set_pc it (G.PC gg) in
      r ← op.setUint64Val (regs it) (op.SPRegNum (regs it)) (G.SP gg);
      let r := op.AddReg r (op.BPRegNum r) (Some (op.DwarfRegisterFromUint64 (G.BP gg))) in
      if usesLR a then
        match op.Reg r (op.LRRegNum r) with
        | None => Ok (set_regs it r, Some ErrLRNil)
        | Some _ =>
            r ← op.setUint64Val r (op.LRRegNum r) (G.LR gg);
            Ok (set_regs it r, None)
        end
      else Ok (set_regs it r, None)
  end.

Definition loadG0SchedSP (it : stackIterator) : stackIterator :=
  if g0_sched_sp_loaded it then it
  else
    let it := set_g0_sched_sp_loaded it true in
    match g it with
    | Some gg =>
        match G.g0SP gg with
        | Some sp => set_g0_sched_sp it sp
        | None => it
        end
    | None => it
    end.

End Advancer.

(** The architecture adapter with its stack-switch hook.  The hook receives
    the iterator and the caller-side registers (a pointer in the source) and
    returns both next to its boolean. *)

Record Arch : Type := mkArch {
  core :> ArchCore;
  switchStack : BinaryInfo -> Memory -> stackIterator -> op.DwarfRegisters
                -> Result (bool * stackIterator * op.DwarfRegisters)
}.

(** ** The stack iterator *)

Section Iterator.

Context (bi : BinaryInfo) (a : Arch) (mem : Memory).

(** The signal-trampoline hop of [Next]: the iterator to continue from if
    the context could be read. *)
Definition sigtrampHop (it : stackIterator) : option stackIterator :=
  if fnNamed (Fn (Current (frame_ it))) "runtime.sigtrampgo" && target it then
    match readSigtrampgoContext bi it mem with
    | inr _ => None
    | inl r =>
        let r := op.set_StaticBase r (PCToImage_StaticBase bi (op.PC r)) in
        let it := set_pc it (op.PC r) in
        let it := set_regs it r in
        let it := set_top it false in
        let it :=
          match g it with
          | Some gg =>
              if negb (G.ID gg =? 0) then
                set_systemstack it
                  (negb ((G.stack_lo gg <=? op.SP (regs it)) && (op.SP (regs it) <? G.stack_hi gg)))
              else it
          | None => it
          end in
        Some it
    end
  else None.

(** [Next] points the iterator to the next stack frame. *)
Definition Next (it : stackIterator) : Result (bool * stackIterator) :=
  if bool_decide (err it ≠ None) || atend it then Ok (false, it)
  else
    let '(it, callFrameRegs, ret, retaddr) := advanceRegs bi a mem it in
    let '(it, fr) := newStackframe bi mem it ret retaddr in
    let it := set_frame it fr in
    match sigtrampHop it with
    | Some it => Ok (true, it)
    | None =>
        '(switched, it, callFrameRegs) ←
          (if hasOpt (opts it) StacktraceSimple then Ok (false, it, callFrameRegs)
           else switchStack a bi mem it callFrameRegs);
        if (switched : bool) then Ok (true, it)
        else if Ret (frame_ it) <=? 0 then Ok (true, set_atend it true)
        else
          let it := set_sigret it (fnNamed (Fn (Current (frame_ it))) "runtime.sigpanic") in
          let it := set_top it false in
          let it := set_pc it (Ret (frame_ it)) in
          let it := set_regs it callFrameRegs in
          Ok (true, it)
    end.

(** [Frame] returns the frame the iterator is pointing at, after copying
    [atend] into its [Bottom] flag. *)
Definition Frame (it : stackIterator) : stackIterator * Stackframe :=
  let it := set_frame it (set_Bottom (frame_ it) (atend it)) in
  (it, frame_ it).

Section WithCallback.

(** The callback owns some state of its own (in the source, the variables
    its closure captures) and may panic. *)
Context {St : Type} (callback : St -> Stackframe -> Result (bool * St)).

Definition incCount (it : stackIterator) : stackIterator :=
  set_count it (count it + 1).

(** The synthetic frame [appendInlineCalls] builds for one inlined call. *)
Definition inlineFrame (frame : Stackframe) (inlfn : Function) : Stackframe :=
  mkStackframe (Current frame)
    (mkLocation (PC (Call frame)) (File (Call frame)) (Line (Call frame)) (Some inlfn))
    (Regs frame) (stackHi frame) (Ret frame) (Err frame) (SystemStack frame)
    true false false (lastpc frame) (closurePtr frame) None [].

(** The loop [for _, entry := range reader.InlineStack(dwarfTree, callpc)];
    leaving the match early is the [break] of the source. *)
Fixpoint inlineLoop (callfn : Function) (entries : list dwarf.Entry)
    (it : stackIterator) (frame : Stackframe) (s : St)
  : Result (stackIterator * Stackframe * St) :=
  match entries with
  | [] => Ok (it, frame, s)
  | entry :: rest =>
      let frame := set_hasInlines frame true in
      match dwarf.AttrName entry, dwarf.AttrCallFile entry, dwarf.AttrCallLine entry with
      | Some fnname, Some fileidx, Some line =>
          match Fn (Current frame) with
          | None => Panic
          | Some curfn =>
              match filePath bi curfn fileidx with
              | inr _ => Ok (it, frame, s)
              | inl filepath =>
                  let inlfn := mkFunction fnname (Entry callfn) (End_ callfn)
                                 (dwarf.Offset entry) (cu callfn) in
                  let it := incCount it in
                  '(_, s) ← callback s (inlineFrame frame inlfn);
                  let frame := set_Call frame (set_File_Line (Call frame) filepath line) in
                  inlineLoop callfn rest it frame s
              end
          end
      | _, _, _ => Ok (it, frame, s)
      end
  end.

Definition appendInlineCalls (it : stackIterator) (frame : Stackframe) (s : St)
  : Result (bool * stackIterator * St) :=
  let deliver (it : stackIterator) (frame : Stackframe) (s : St) :=
    let it := incCount it in
    '(more, s) ← callback s frame;
    Ok (more, it, s) in
  match Fn (Call frame) with
  | None => deliver it frame s
  | Some callfn =>
      if negb (lineInfo (cu callfn)) then deliver it frame s
      else
        let callpc := if 0 <? count it then uint64 (PC (Call frame) - 1)
                      else PC (Call frame) in
        if negb (getDwarfTree bi callfn) then deliver it frame s
        else
          '(it, frame, s) ← inlineLoop callfn (InlineStack bi callfn callpc) it frame s;
          deliver it frame s
  end.

(** [for it.Next() { if !it.appendInlineCalls(callback, it.Frame()) { break } }] *)
Fixpoint nextLoop (fuel : nat) (it : stackIterator) (s : St) : Result (stackIterator * St) :=
  match fuel with
  | O => OutOfFuel
  | Datatypes.S fuel =>
      '(more, it) ← Next it;
      if (more : bool) then
        let '(it, fr) := Frame it in
        '(cont, it, s) ← appendInlineCalls it fr s;
        if (cont : bool) then nextLoop fuel it s else Ok (it, s)
      else Ok (it, s)
  end.

Definition stacktraceFunc (fuel : nat) (it : stackIterator) (s : St)
  : Result (stackIterator * St) :=
  if hasOpt (opts it) StacktraceG && bool_decide (g it ≠ None) then
    '(it, e) ← switchToGoroutineStack a it;
    match e with
    | Some e => Ok (set_err it (Some e), s)
    | None => nextLoop fuel (set_top it true) s
    end
  else nextLoop fuel it s.

End WithCallback.

(** The callback of [stacktrace]: append, and go on while fewer than
    [depth+1] frames have been collected. *)
Definition collect (depth : Z) (frames : list Stackframe) (frame : Stackframe)
  : Result (bool * list Stackframe) :=
  let frames := frames ++ [frame] in
  Ok (Z.of_nat (length frames) <? depth + 1, frames).

Definition errorFrame (e : error) : Stackframe :=
  mkStackframe zeroLocation zeroLocation op.zero 0 0 (Some e) false false false false 0 0 None [].

(** [stacktrace] returns the frames and the error of the source, next to
    the iterator it leaves behind.  Each turn of the frame loop adds at
    least one frame, so [depth+1] turns are all the loop can take.  The
    slice of capacity [depth+1] that the source allocates first is not
    modelled: [depth] is a Go [int] for which [make] returns. *)
Definition stacktrace (it : stackIterator) (depth : Z)
  : Result (stackIterator * list Stackframe * option error) :=
  if depth <? 0 then Ok (it, [], Some ErrNegativeDepth)
  else
    let fuel := Z.to_nat (depth + 1) in
    '(it, frames) ← stacktraceFunc (collect depth) fuel it [];
    '(it, frames) ←
      (if bool_decide (err it ≠ None) && (length frames =? 1)%nat
          && bool_decide (g it ≠ None)
          && match frames with f0 :: _ => SystemStack f0 | [] => false end
          && negb (hasOpt (opts it) StacktraceSimple)
       then
         let it := set_err it None in
         let it := set_opts it (Z.lor (opts it) StacktraceG) in
         stacktraceFunc (collect depth) fuel it frames
       else Ok (it, frames));
    match err it with
    | Some e =>
        match frames with
        | [] => Ok (it, [], Some e)
        | _ => Ok (it, frames ++ [errorFrame e], None)
        end
    | None => Ok (it, frames, None)
    end.

Definition newStackIterator (hasTarget : bool) (r : op.DwarfRegisters) (stackhi : Z)
    (g : option G.t) (opts : StacktraceOptions) : stackIterator :=
  let systemstack := match g with Some gg => G.SystemStack gg | None => true end in
  mkStackIterator (op.PC r) true false false zeroStackframe hasTarget None stackhi
    systemstack r g 0 false 0 opts.

(** [goroutineStackIterator]; the thread's registers have already been
    converted by [RegistersToDwarfRegisters] in [G.Thread]. *)
Definition goroutineStackIterator (hasTarget : bool) (g : G.t) (opts : StacktraceOptions)
  : stackIterator + error :=
  match G.Thread g with
  | Some (inr e) => inr e
  | Some (inl dwarfRegs) =>
      inl (newStackIterator hasTarget dwarfRegs (G.stack_hi g) (Some g) opts)
  | None =>
      inl (newStackIterator hasTarget
             (addrAndStackRegsToDwarfRegisters a
                (PCToImage_StaticBase bi (G.PC g)) (G.PC g) (G.SP g) (G.BP g) (G.LR g))
             (G.stack_hi g) (Some g) opts)
  end.

End Iterator.

(** ** The arm64 architecture adapter *)

(** DWARF register numbers of arm64, from pkg/dwarf/regnum. *)
Module regnum.
Definition ARM64_X0 : Z := 0.
Definition ARM64_BP : Z := 29.
Definition ARM64_LR : Z := 30.
Definition ARM64_SP : Z := 31.
Definition ARM64_PC : Z := 32.
Definition ARM64_V0 : Z := 64.
End regnum.

Definition arm64cgocallSPOffsetSaveSlot : Z := 8.
Definition prevG0schedSPOffsetSaveSlot : Z := 16.

Section ARM64.

(** [linux] is [runtime.GOOS == "linux"] on the debugger's host; the two
    offsets are the package constants [crosscall2SPOffsetBad] and
    [crosscall2SPOffset], declared in another file. *)
Context (linux : bool) (crosscall2SPOffsetBad crosscall2SPOffset : Z).

Definition inFunc (fn : option Function) (pc : Z) : bool :=
  match fn with
  | Some f => (Entry f <=? pc) && (pc <? End_ f)
  | None => false
  end.

Definition arm64DefaultContext (ptrSize : Z) : frame.FrameContext :=
  frame.mkFrameContext
    (frame.mkDWRule frame.RuleCFA (int64 (2 * ptrSize)) regnum.ARM64_BP [])
    (<[regnum.ARM64_PC := frame.mkDWRule frame.RuleOffset (int64 (- ptrSize)) 0 []]>
       (<[regnum.ARM64_BP := frame.mkDWRule frame.RuleOffset (int64 (-2 * ptrSize)) 0 []]>
          (<[regnum.ARM64_SP := frame.mkDWRule frame.RuleValOffset 0 0 []]> ∅)))
    regnum.ARM64_PC.

Definition arm64FixFrameUnwindContext (fctxt : option frame.FrameContext) (pc : Z)
    (bi : BinaryInfo) : frame.FrameContext :=
  let sigreturnfn := lookupOneFunc bi "runtime.sigreturn" in
  match fctxt with
  | None => arm64DefaultContext 8
  | Some fctxt =>
      if inFunc sigreturnfn pc then arm64DefaultContext 8
      else
        let crosscall2fn := lookupOneFunc bi "crosscall2" in
        let fctxt :=
          if inFunc crosscall2fn pc then
            let rule := frame.CFA fctxt in
            let rule :=
              if frame.Offset rule =? crosscall2SPOffsetBad
              then frame.mkDWRule (frame.rule rule)
                     (int64 (frame.Offset rule + crosscall2SPOffset))
                     (frame.Reg rule) (frame.Expression rule)
              else rule in
            frame.set_CFA fctxt rule
          else fctxt in
        let fctxt :=
          match frame.rule (frame.regRule fctxt regnum.ARM64_BP) with
          | frame.RuleUndefined =>
              frame.set_Reg fctxt regnum.ARM64_BP
                (frame.mkDWRule frame.RuleFramePointer 0 regnum.ARM64_BP [])
          | _ => fctxt
          end in
        let fctxt :=
          match frame.rule (frame.regRule fctxt regnum.ARM64_LR) with
          | frame.RuleUndefined =>
              frame.set_Reg fctxt regnum.ARM64_LR
                (frame.mkDWRule frame.RuleRegister 0 regnum.ARM64_LR [])
          | _ => fctxt
          end in
        fctxt
  end.

Definition arm64RegSize (regnum : Z) : nat :=
  if (64 <=? regnum) && (regnum <=? 95) then 16%nat else 8%nat.

Definition arm64AddrAndStackRegsToDwarfRegisters (staticBase pc sp bp lr : Z)
  : op.DwarfRegisters :=
  op.mkDwarfRegisters staticBase 0 0
    (<[regnum.ARM64_LR := op.DwarfRegisterFromUint64 lr]>
       (<[regnum.ARM64_BP := op.DwarfRegisterFromUint64 bp]>
          (<[regnum.ARM64_SP := op.DwarfRegisterFromUint64 sp]>
             (<[regnum.ARM64_PC := op.DwarfRegisterFromUint64 pc]> ∅))))
    op.LittleEndian regnum.ARM64_PC regnum.ARM64_SP regnum.ARM64_BP regnum.ARM64_LR.

Definition arm64Core : ArchCore :=
  mkArchCore true 8 arm64RegSize arm64FixFrameUnwindContext
    arm64AddrAndStackRegsToDwarfRegisters.

Section SwitchStack.

Context (bi : BinaryInfo) (mem : Memory).

Definition switchResult : Type := Result (bool * stackIterator * op.DwarfRegisters).

(** [if err := it.switchToGoroutineStack(); err != nil { it.err = err;
    return false }; return true] *)
Definition switchOrFail (it : stackIterator) (cfr : op.DwarfRegisters) : switchResult :=
  '(it, e) ← switchToGoroutineStack arm64Core it;
  match e with
  | Some e => Ok (false, set_err it (Some e), cfr)
  | None => Ok (true, it, cfr)
  end.

(** The second switch of [arm64SwitchStack], on the function that
    contains the return address. *)
Definition arm64SwitchStackCaller (it : stackIterator) (cfr : op.DwarfRegisters)
  : switchResult :=
  match PCToFunc bi (Ret (frame_ it)) with
  | None => Ok (false, it, cfr)
  | Some fn =>
      if bool_decide (Name fn = "runtime.asmcgocall") then
        if negb (systemstack it) then Ok (false, it, cfr)
        else
          let off := fst (readIntRaw mem (uint64 (op.SP cfr + arm64cgocallSPOffsetSaveSlot))
                            (PtrSize arm64Core)) in
          let oldsp := op.SP cfr in
          let newsp := uint64 (int64 (stackhi it) - off) in
          if newsp =? oldsp then Ok (false, it, cfr)
          else
            let it := set_systemstack it false in
            cfr ← op.setUint64Val cfr (op.SPRegNum cfr) (uint64 (int64 newsp));
            Ok (false, it, cfr)
      else if bool_decide (Name fn = "runtime.cgocallback_gofunc")
              || bool_decide (Name fn = "runtime.cgocallback") then
        if systemstack it then Ok (false, it, cfr)
        else
          let it := loadG0SchedSP it in
          if g0_sched_sp it <=? 0 then Ok (false, it, cfr)
          else
            cfr ← op.setUint64Val cfr (op.SPRegNum cfr) (g0_sched_sp it);
            let it := set_g0_sched_sp it
              (fst (readUintRaw mem (uint64 (op.SP cfr + prevG0schedSPOffsetSaveSlot))
                      (PtrSize arm64Core))) in
            let it := set_systemstack it true in
            Ok (false, it, cfr)
      else Ok (false, it, cfr)
  end.

(** [arm64SwitchStack]; [cfr] is the [callFrameRegs] the hook may update.
    As in [switchToGoroutineStack], the stores to registers go to the
    register files [it.regs] and [cfr] as values. *)
Definition arm64SwitchStack (it : stackIterator) (cfr : op.DwarfRegisters) : switchResult :=
  match Fn (Current (frame_ it)) with
  | None =>
      if systemstack it && bool_decide (g it ≠ None) && top it
      then switchOrFail it cfr
      else Ok (false, it, cfr)
  | Some curfn =>
      let name := Name curfn in
      if (bool_decide (name = "runtime.cgocallback_gofunc")
          || bool_decide (name = "runtime.cgocallback")) && linux then
        if top it || systemstack it then Ok (false, it, cfr)
        else
          let it := loadG0SchedSP it in
          if g0_sched_sp it <=? 0 then Ok (false, it, cfr)
          else
            r ← op.setUint64Val (regs it) (op.SPRegNum cfr) (g0_sched_sp it);
            let it := set_regs it r in
            let it := set_g0_sched_sp it
              (fst (readUintRaw mem (uint64 (op.SP (regs it) + prevG0schedSPOffsetSaveSlot))
                      (PtrSize arm64Core))) in
            let it := set_top it false in
            let '(it, callFrameRegs, ret, retaddr) := advanceRegs bi arm64Core mem it in
            let '(it, frameOnSystemStack) := newStackframe bi mem it ret retaddr in
            let it := set_pc it (Ret frameOnSystemStack) in
            let it := set_regs it callFrameRegs in
            let it := set_systemstack it true in
            Ok (true, it, cfr)
      else if bool_decide (name = "runtime.asmcgocall") && linux then
        if top it || negb (systemstack it) then Ok (false, it, cfr)
        else
          let off := fst (readIntRaw mem
                            (uint64 (op.SP (regs it) + arm64cgocallSPOffsetSaveSlot))
                            (PtrSize arm64Core)) in
          let oldsp := op.SP (regs it) in
          let newsp := uint64 (int64 (stackhi it) - off) in
          r ← op.setUint64Val (regs it) (op.SPRegNum (regs it)) (uint64 (int64 newsp));
          let it := set_regs it r in
          if op.SP (regs it) =? oldsp then Ok (false, it, cfr)
          else
            let it := set_top it false in
            let it := set_systemstack it false in
            let addrret := uint64 (int64 (op.SP (regs it)) + int64 (PtrSize arm64Core * 3)) in
            let it := set_frame it
              (set_Ret (frame_ it) (fst (readUintRaw mem addrret (PtrSize arm64Core)))) in
            let it := set_pc it (Ret (frame_ it)) in
            Ok (true, it, cfr)
      else if bool_decide (name = "runtime.goexit") || bool_decide (name = "runtime.rt0_go") then
        Ok (true, set_atend it true, cfr)
      else if bool_decide (name = "runtime.mcall") then
        if systemstack it && bool_decide (g it ≠ None) then switchOrFail it cfr
        else Ok (true, set_atend it true, cfr)
      else if bool_decide (name = "crosscall2") then
        let bpoff := if ProducerAfterOrEqual_1_19 bi then 22 else 14 in
        let lroff := if ProducerAfterOrEqual_1_19 bi then 23 else 15 in
        let sp := op.SP (regs it) in
        let newsp := fst (readUintRaw mem (uint64 (sp + 8 * 24)) (PtrSize arm64Core)) in
        let newbp := fst (readUintRaw mem (uint64 (sp + 8 * bpoff)) (PtrSize arm64Core)) in
        let newlr := fst (readUintRaw mem (uint64 (sp + 8 * lroff)) (PtrSize arm64Core)) in
        r ← match op.Reg (regs it) (op.BPRegNum (regs it)) with
            | Some _ => op.setUint64Val (regs it) (op.BPRegNum (regs it)) newbp
            | None =>
                let reg := fst (readRegisterAt arm64Core mem it (op.BPRegNum (regs it))
                                  (uint64 (sp + 8 * bpoff))) in
                Ok (op.AddReg (regs it) (op.BPRegNum (regs it)) reg)
            end;
        r ← op.setUint64Val r (op.LRRegNum r) newlr;
        r ← op.setUint64Val r (op.SPRegNum r) (if linux then newbp else newsp);
        let it := set_regs it r in
        Ok (true, set_pc it newlr, cfr)
      else if bool_decide (name = "runtime.mstart") && linux then
        if top it || negb (systemstack it) then Ok (false, it, cfr)
        else
          match g it with
          | None => Ok (false, it, cfr)
          | Some gg =>
              if negb (fnNamed (PCToFunc bi (G.PC gg)) "runtime.systemstack_switch")
              then Ok (false, it, cfr)
              else switchOrFail it cfr
          end
      else if (bool_decide (name = "runtime.newstack")
               || bool_decide (name = "runtime.systemstack"))
              && systemstack it && bool_decide (g it ≠ None) then
        switchOrFail it cfr
      else arm64SwitchStackCaller it cfr
  end.

End SwitchStack.

Definition ARM64Arch : Arch := mkArch arm64Core arm64SwitchStack.

End ARM64.

(** ** The defer correlator *)

(** Modelled from the spec: the runtime's [_defer] records are read through
    the variable evaluator, which is outside this file ("G and Defer
    runtime-structure readers"; "in newer runtimes the deferred function
    pointer is stored directly; in older runtimes it is reached through a
    *funcval"; "the siz field is absent in newer runtimes").  A [rawDefer] is
    what [v.loadValue] and the field accessors give for the record at one
    address: [raw_fn] is the [fn] field, a func value with its base or a
    pointer with the [fn] field of the funcval behind it when readable;
    [raw_link] the address the [link] pointer holds; [raw_head] the address
    reached through [head.u.value], absent when one of the fields is. *)

Inductive fnField : Type :=
| FnFunc (base : Z)
| FnPtr (addr : Z) (fn : option Z).

Record rawDefer : Type := mkRawDefer {
  raw_Unreadable : option error;
  raw_fn : fnField;
  raw_pc : Z;
  raw_sp : Z;
  raw_siz : option Z;
  raw_link : Z;
  raw_head : option Z
}.

Definition maxRangeFuncDefers : Z := 10.

Definition set_Unreadable (d : Defer) (e : option error) : Defer :=
  mkDefer (DwrapPC d) (DeferPC d) (SP d) (link d) (argSz d) (rangefunc d) (variable d) e.

Definition set_rangefunc (d : Defer) (l : list Defer) : Defer :=
  mkDefer (DwrapPC d) (DeferPC d) (SP d) (link d) (argSz d) l (variable d) (Unreadable d).

(** [&Defer{variable: v}] *)
Definition newDefer (addr : Z) : Defer := mkDefer 0 0 0 0 0 [] addr None.

Section Defers.

Context (readDefer : Z -> rawDefer).

(** [d.load(false)]: the part of [load] before the [canrecur] block.  The
    funcval behind a [*funcval] whose [fn] member is not loaded leaves
    [DwrapPC] as it is, as the test [fnvar.Unreadable == nil] has it; the
    source reads that test from the variable [loadFieldNamed] returns, which
    it does not test for nil. *)
Definition loadFields (d : Defer) : Defer :=
  let v := readDefer (variable d) in
  match raw_Unreadable v with
  | Some e => set_Unreadable d (Some e)
  | None =>
      let dwrap :=
        match raw_fn v with
        | FnFunc base => base
        | FnPtr addr fn =>
            if addr =? 0 then DwrapPC d
            else match fn with
                 | Some x => x
                 | None => DwrapPC d
                 end
        end in
      let siz := match raw_siz v with
                 | Some x => x
                 | None => argSz d
                 end in
      let lnk := if raw_link v =? 0 then link d else raw_link v in
      mkDefer dwrap (raw_pc v) (raw_sp v) lnk siz (rangefunc d) (variable d) (Unreadable d)
  end.

(** The loop that fills [d.rangefunc], starting at [hd]; it leaves at the
    latest when the list is longer than [maxRangeFuncDefers], so the fuel
    given by [load] is never used up (lemma [rangefuncLoop_fuel]). *)
Fixpoint rangefuncLoop (fuel : nat) (hd : Z) (acc : list Defer) : list Defer :=
  match fuel with
  | O => acc
  | Datatypes.S fuel =>
      let hdl := loadFields (newDefer hd) in
      let acc := acc ++ [hdl] in
      if link hdl =? 0 then acc
      else if maxRangeFuncDefers <? Z.of_nat (length acc) then acc
      else rangefuncLoop fuel (link hdl) acc
  end.

Definition Defer_load (d : Defer) (canrecur : bool) : Defer :=
  let v := readDefer (variable d) in
  let d := loadFields d in
  match raw_Unreadable v with
  | Some _ => d
  | None =>
      if canrecur then
        match raw_head v with
        | None => d
        | Some h =>
            if h =? 0 then d
            else set_rangefunc d
                   (rangefuncLoop (Datatypes.S (Z.to_nat maxRangeFuncDefers)) h (rangefunc d))
        end
      else d
  end.

(** [Next] returns the next defer in the linked list. *)
Definition Defer_Next (d : Defer) : option Defer :=
  if link d =? 0 then None
  else
    let l := Defer_load (newDefer (link d)) true in
    Some (if SP l <? SP d then set_Unreadable l (Some errSPDecreased) else l).

Definition topdefer (d : Defer) : Defer :=
  match rangefunc d with
  | d0 :: _ => d0
  | [] => d
  end.

(** Modelled from the spec: [g.Defer()] is defined with the goroutine
    reader; it loads the head of the list rooted at [g._defer] ("the head
    of the goroutine's defer list"). *)
Definition G_Defer (g : G.t) : option Defer :=
  if G.deferHead g =? 0 then None
  else Some (Defer_load (newDefer (G.deferHead g)) true).

(** The variables of the loop of [readDefers]. *)
Record deferCursor : Type := mkDeferCursor {
  curdefer : option Defer;
  idx : nat;
  dc_frames : list Stackframe
}.

(** [curdefer.SP >= uint64(frames[i].Regs.CFA)], or the frame cannot hold
    defers: the test under which the loop moves on to the next frame. *)
Definition skipsFrame (d : Defer) (fr : Stackframe) : bool :=
  SystemStack fr || Inlined fr || (uint64 (op.CFA (Regs fr)) <=? SP d).

Definition attach (fr : Stackframe) (ds : list Defer) : Stackframe :=
  set_Defers fr (Defers fr ++ ds).

(** One turn of the loop: the next cursor, or the frames when the loop
    returns. *)
Definition readDefersStep (c : deferCursor) : deferCursor + list Stackframe :=
  match curdefer c, dc_frames c !! idx c with
  | None, _ => inr (dc_frames c)
  | _, None => inr (dc_frames c)
  | Some d, Some fr =>
      if bool_decide (Unreadable d ≠ None) then
        inr (<[idx c := attach fr [d]]> (dc_frames c))
      else if bool_decide (Err fr ≠ None) then inr (dc_frames c)
      else
        let fr := match TopmostDefer fr with
                  | None => set_TopmostDefer fr (Some (topdefer d))
                  | Some _ => fr
                  end in
        if skipsFrame d fr then
          inl (mkDeferCursor (Some d) (Datatypes.S (idx c)) (<[idx c := fr]> (dc_frames c)))
        else
          let fr := match rangefunc d with
                    | [] => attach fr [d]
                    | _ :: _ => attach fr (rangefunc d)
                    end in
          inl (mkDeferCursor (Defer_Next d) (idx c) (<[idx c := fr]> (dc_frames c)))
  end.

Fixpoint readDefersLoop (fuel : nat) (c : deferCursor) : Result (list Stackframe) :=
  match fuel with
  | O => OutOfFuel
  | Datatypes.S fuel =>
      match readDefersStep c with
      | inr frames => Ok frames
      | inl c => readDefersLoop fuel c
      end
  end.

(** [readDefers] decorates the frames with the functions deferred at each
    stack frame. *)
Definition readDefers (fuel : nat) (g : G.t) (frames : list Stackframe)
  : Result (list Stackframe) :=
  readDefersLoop fuel (mkDeferCursor (G_Defer g) 0 frames).

End Defers.

(** ** Range-over-func stack reconstruction *)

Inductive stage : Type := startStage | normalStage | lastFrameStage | doneStage.

#[global] Instance stage_eq_dec : EqDecision stage.
Proof. solve_decision. Defined.

(** The variables captured by the callback of [rangeFuncStackTrace]. *)
Record rangeState : Type := mkRangeState {
  rs_frames : list Stackframe;
  rs_stage : stage;
  addRetFrame : bool;
  rs_rangeParent : option Function;
  nonMonotonicSP : bool;
  rs_closurePtr : Z
}.

Section RangeFunc.

Context (bi : BinaryInfo) (a : Arch) (mem : Memory) (readDefer : Z -> rawDefer).

Definition fnOptimized (fn : Function) : bool :=
  negb (Z.land (optimized (cu fn)) optimizedOptimized =? 0).

Definition appendFrame (st : rangeState) (fr : Stackframe) : rangeState :=
  mkRangeState (rs_frames st ++ [fr]) (rs_stage st) true (rs_rangeParent st)
    (nonMonotonicSP st)
    (if closurePtr fr =? 0 then rs_closurePtr st else closurePtr fr).

(** [frames = nil; addRetFrame = false; stage = doneStage; return false] *)
Definition abandon (st : rangeState) : bool * rangeState :=
  (false, mkRangeState [] doneStage false (rs_rangeParent st) (nonMonotonicSP st)
            (rs_closurePtr st)).

Definition set_stage (st : rangeState) (s : stage) : rangeState :=
  mkRangeState (rs_frames st) s (addRetFrame st) (rs_rangeParent st) (nonMonotonicSP st)
    (rs_closurePtr st).

Definition push (st : rangeState) (fr : Stackframe) : rangeState :=
  mkRangeState (rs_frames st ++ [fr]) (rs_stage st) (addRetFrame st) (rs_rangeParent st)
    (nonMonotonicSP st) (rs_closurePtr st).

(** [frames[len(frames)-1].Inlined], which panics on an empty slice. *)
Definition lastInlined (st : rangeState) : Result bool :=
  match last (rs_frames st) with
  | Some f => Ok (Inlined f)
  | None => Panic
  end.

Definition closurePtrOk (st : rangeState) (fn : Function) (fr : Stackframe) : Result bool :=
  if SystemStack fr then Ok false
  else
    shortcut ← (if (rs_closurePtr st =? 0) && fnOptimized fn then Ok true else lastInlined st);
    if (shortcut : bool) then Ok true
    else if rs_closurePtr st <? 0 then Ok (contains fr (rs_closurePtr st))
    else Ok (existsb (fun addr => int64 addr =? rs_closurePtr st) (rangeBodyClosures bi fr)).

Definition rangeCallback (st : rangeState) (fr : Stackframe) : Result (bool * rangeState) :=
  let nonMonotonic :=
    match last (rs_frames st) with
    | Some prev => op.SP (Regs fr) <? op.SP (Regs prev)
    | None => false
    end in
  if nonMonotonic then
    Ok (false, mkRangeState (rs_frames st) (rs_stage st) (addRetFrame st) (rs_rangeParent st)
                 true (rs_closurePtr st))
  else
    let st :=
      if addRetFrame st then
        mkRangeState (rs_frames st ++ [fr]) (rs_stage st) false (rs_rangeParent st)
          (nonMonotonicSP st) (rs_closurePtr st)
      else st in
    match Fn (Call fr) with
    | None =>
        if bool_decide (rs_stage st = startStage) then Ok (abandon st) else Ok (true, st)
    | Some fn =>
        match rs_stage st with
        | startStage =>
            let st := appendFrame st fr in
            let st := mkRangeState (rs_frames st) normalStage (addRetFrame st)
                        (rangeParent bi fn) (nonMonotonicSP st) (rs_closurePtr st) in
            let stop :=
              bool_decide (rs_rangeParent st = None)
              || (negb (fnOptimized fn) && negb (Inlined fr) && (rs_closurePtr st =? 0)) in
            if stop then Ok (abandon st) else Ok (true, st)
        | normalStage =>
            match rs_rangeParent st with
            | None => Panic
            | Some parent =>
                isParent ← (if offset fn =? offset parent then closurePtrOk st fn fr
                            else Ok false);
                if (isParent : bool) then Ok (true, set_stage (push st fr) lastFrameStage)
                else
                  isBody ← (if bool_decide (rangeParent bi fn = Some parent)
                            then closurePtrOk st fn fr else Ok false);
                  if (isBody : bool) then
                    let st := appendFrame st fr in
                    if negb (fnOptimized fn) && (rs_closurePtr st =? 0)
                    then Ok (abandon st) else Ok (true, st)
                  else
                    li ← lastInlined st;
                    if (li : bool) && negb (Inlined fr) && (rs_closurePtr st =? 0)
                    then Ok (abandon st) else Ok (true, st)
            end
        | lastFrameStage => Ok (false, set_stage (push st fr) doneStage)
        | doneStage => Ok (false, st)
        end
    end.

Definition initialRangeState : rangeState :=
  mkRangeState [] startStage false None false 0.

(** The checks of [rangeFuncStackTrace] after the frames were collected. *)
Definition rangeResult (fuel : nat) (g : G.t) (it : stackIterator) (st : rangeState)
  : Result (list Stackframe * option error) :=
  match err it with
  | Some e => Ok ([], Some e)
  | None =>
      if nonMonotonicSP st then Ok ([], Some ErrNonMonotonicSP)
      else if negb (bool_decide (rs_stage st = doneStage)) then Ok ([], Some ErrNoRangeParent)
      else if negb (Nat.even (length (rs_frames st))) then Ok ([], Some ErrIncompleteRangeStack)
      else
        frames ← readDefers readDefer fuel g (rs_frames st);
        Ok (frames, None)
  end.

(** [rangeFuncStackTrace] for a non-nil target; a nil result is the empty
    list.  The frame loop and the loop of [readDefers] have no bound of
    their own, [fuel] bounds each of them. *)
Definition rangeFuncStackTrace (fuel : nat) (g : option G.t)
  : Result (list Stackframe * option error) :=
  match g with
  | None => Ok ([], None)
  | Some g =>
      match goroutineStackIterator bi a true g StacktraceSimple with
      | inr e => Ok ([], Some e)
      | inl it =>
          '(it, st) ← stacktraceFunc bi a mem rangeCallback fuel it initialRangeState;
          rangeResult fuel g it st
      end
  end.

(** [GoroutineStacktrace] returns the stack trace for a goroutine. *)
Definition GoroutineStacktrace (fuel : nat) (hasTarget : bool) (g : G.t) (depth : Z)
    (opts : StacktraceOptions) : Result (list Stackframe * option error) :=
  match goroutineStackIterator bi a hasTarget g opts with
  | inr e => Ok ([], Some e)
  | inl it =>
      '(_, frames, e) ← stacktrace bi a mem it depth;
      match e with
      | Some e => Ok ([], Some e)
      | None =>
          if hasOpt opts StacktraceReadDefers then
            frames ← readDefers readDefer fuel g frames;
            Ok (frames, None)
          else Ok (frames, None)
      end
  end.

End RangeFunc.

(** ** Offsets of a frame

    The two exported accessors of [Stackframe] next to [contains]. *)

(** [FrameOffset] returns the address of the stack frame, absolute for
    system stack frames or as an offset from [stackhi] for goroutine stacks
    (a negative value). *)
Definition FrameOffset (fr : Stackframe) : Z :=
  if SystemStack fr then op.CFA (Regs fr)
  else int64 (op.CFA (Regs fr) - int64 (stackHi fr)).

(** [FramePointerOffset] returns the value of the frame pointer, absolute
    for system stack frames or as an offset from [stackhi] for goroutine
    stacks (a negative value). *)
Definition FramePointerOffset (fr : Stackframe) : Z :=
  if SystemStack fr then int64 (op.BP (Regs fr))
  else int64 (int64 (op.BP (Regs fr)) - int64 (stackHi fr)).

(** * Vocabulary of the statements *)

(** The fields a synthetic frame takes over from its physical frame. *)
Definition sharesWith (F f : Stackframe) : Prop :=
  Current f = Current F /\ Regs f = Regs F /\ Ret f = Ret F /\ stackHi f = stackHi F.

(** The frame with its [TopmostDefer] set as the loop does. *)
Definition withTopmost (d : Defer) (fr : Stackframe) : Stackframe :=
  match TopmostDefer fr with
  | None => set_TopmostDefer fr (Some (topdefer d))
  | Some _ => fr
  end.

(** What is attached for list node [d]: its rangefunc entries if it has
    any, else the node itself. *)
Definition attachedFor (d : Defer) : list Defer :=
  match rangefunc d with
  | [] => [d]
  | _ :: _ => rangefunc d
  end.

(** The fields of a frame the loop reads but never writes. *)
Definition sameFrame (f f' : Stackframe) : Prop :=
  Regs f' = Regs f /\ SystemStack f' = SystemStack f /\ Inlined f' = Inlined f
  /\ Err f' = Err f.

(** Runs of the loop from the cursor [c0].  The index records the frame
    the cursor was at when the current defer became the current one. *)
Inductive walk (readDefer : Z -> rawDefer) (c0 : deferCursor) : nat -> deferCursor -> Prop :=
| walk_start : walk readDefer c0 (idx c0) c0
| walk_skip since c c' :
    walk readDefer c0 since c -> readDefersStep readDefer c = inl c' ->
    idx c' = Datatypes.S (idx c) -> walk readDefer c0 since c'
| walk_attach since c c' :
    walk readDefer c0 since c -> readDefersStep readDefer c = inl c' ->
    idx c' = idx c -> walk readDefer c0 (idx c) c'.

(** How the number of collected frames goes with the stage. *)
Definition rangeInv (st : rangeState) : Prop :=
  match rs_stage st with
  | startStage => rs_frames st = [] /\ addRetFrame st = false
  | normalStage => addRetFrame st = Nat.odd (length (rs_frames st))
  | lastFrameStage => Nat.odd (length (rs_frames st)) = true /\ addRetFrame st = false
  | doneStage => Nat.even (length (rs_frames st)) = true /\ addRetFrame st = false
  end.

(** The test of [stacktrace] under which the trace is started again from
    the goroutine's registers: an error after exactly one frame, which is on
    the system stack, with a goroutine and without [StacktraceSimple]. *)
Definition restarts (it : stackIterator) (frames : list Stackframe) : bool :=
  bool_decide (err it ≠ None) && (length frames =? 1)%nat
  && bool_decide (g it ≠ None)
  && match frames with f0 :: _ => SystemStack f0 | [] => false end
  && negb (hasOpt (opts it) StacktraceSimple).

(** The rules whose evaluation reads target memory or runs a location
    expression. *)
Definition readsTarget (r : frame.Rule) : bool :=
  match r with
  | frame.RuleOffset | frame.RuleExpression | frame.RuleValExpression
  | frame.RuleFramePointer => true
  | _ => false
  end.

(** The context with a rule for BP, then for LR, put in where the rule is
    undefined. *)
Definition withFramePointerRules (f : frame.FrameContext) : frame.FrameContext :=
  let f :=
    match frame.rule (frame.regRule f regnum.ARM64_BP) with
    | frame.RuleUndefined =>
        frame.set_Reg f regnum.ARM64_BP
          (frame.mkDWRule frame.RuleFramePointer 0 regnum.ARM64_BP [])
    | _ => f
    end in
  match frame.rule (frame.regRule f regnum.ARM64_LR) with
  | frame.RuleUndefined =>
      frame.set_Reg f regnum.ARM64_LR (frame.mkDWRule frame.RuleRegister 0 regnum.ARM64_LR [])
  | _ => f
  end.

(** What the stack-switch hook of arm64 never assigns: the frame apart from
    its return address, the frame counter, the options, the goroutine, the
    stack's high address and the target.  (The registers of the frame are
    those it was built with, see [op].) *)
Definition kept (it : stackIterator)
  : Stackframe * Z * StacktraceOptions * option G.t * Z * bool :=
  (set_Ret (frame_ it) 0, count it, opts it, g it, stackhi it, target it).

Definition keptResult (it : stackIterator)
    (r : Result (bool * stackIterator * op.DwarfRegisters)) : Prop :=
  match r with
  | Ok (_, it', _) => kept it' = kept it
  | _ => True
  end.

(** A frame without the registers of its register file.  In the source the
    frame shares them with [it.regs] ([newStackframe] copies the slice of
    register pointers), so a store to a register of [it.regs] is a store to
    the frame's register as well; the other fields of [Regs] are copied. *)
Definition withoutRegisters (f : Stackframe) : Stackframe :=
  set_Regs f (op.set_regs (Regs f) ∅).

(** What holds of every physical frame the iterator points at. *)
Definition physOk (f : Stackframe) : Prop :=
  PC (Call f) = PC (Current f) /\ Fn (Call f) = Fn (Current f)
  /\ Err f = None /\ Inlined f = false.

(** What holds of every frame handed to the callback, synthetic or not. *)
Definition delivered (f : Stackframe) : Prop :=
  PC (Call f) = PC (Current f) /\ Err f = None.

(** The number of frames that are not synthetic frames of inlined calls. *)
Definition physCount (frames : list Stackframe) : nat :=
  length (List.filter (fun f => negb (Inlined f)) frames).

(** An architecture whose stack-switch hook does nothing. *)
Definition noSwitch (c : ArchCore) : Arch :=
  mkArch c (fun _ _ it cfr => Ok (false, it, cfr)).

(** A frame after [readDefers] went over it: nothing but [TopmostDefer] and
    [Defers] is written, deferred calls are only added at the end, and a
    [TopmostDefer] that was set stays. *)
Definition decorated (fr fr' : Stackframe) : Prop :=
  fr' = set_Defers (set_TopmostDefer fr (TopmostDefer fr')) (Defers fr')
  /\ (exists more, Defers fr' = Defers fr ++ more)
  /\ (TopmostDefer fr <> None -> TopmostDefer fr' = TopmostDefer fr).

(** The [fn] field of the record can be followed: the record is unreadable
    (and [load] returns before it looks at the field), the field is a func
    value or a nil pointer, or the [fn] member of the funcval behind the
    pointer was loaded.  [load] reads the variable that
    [loadFieldNamed("fn")] returns without testing it for nil; these are the
    records on which that variable is there. *)
Definition fnLoaded (v : rawDefer) : bool :=
  match raw_Unreadable v, raw_fn v with
  | Some _, _ => true
  | None, FnFunc _ => true
  | None, FnPtr addr fn => (addr =? 0) || bool_decide (fn ≠ None)
  end.

(** The list of defers that starts at [d] ends, with nil or with a defer
    that cannot be read, after at most [n] readable defers. *)
Fixpoint endsWithin (readDefer : Z -> rawDefer) (n : nat) (d : option Defer) : bool :=
  match d with
  | None => true
  | Some d =>
      if bool_decide (Unreadable d ≠ None) then true
      else match n with
           | O => false
           | Datatypes.S n => endsWithin readDefer n (Defer_Next readDefer d)
           end
  end.

(** A list of rangefunc entries as [load] builds it: no entry has rangefunc
    entries of its own, and every entry but the last is readable and links
    to the record the next entry was loaded from. *)
Definition linked (l : list Defer) : Prop :=
  Forall (fun e => rangefunc e = []) l
  /\ forall k e e', l !! k = Some e -> l !! Datatypes.S k = Some e' ->
       Unreadable e = None /\ link e <> 0 /\ variable e' = link e.

(** The frames are in the order of their stack pointers. *)
Definition sortedSP (l : list Stackframe) : Prop :=
  forall i j a b, (i <= j)%nat -> l !! i = Some a -> l !! j = Some b ->
    op.SP (Regs a) <= op.SP (Regs b).

(** What the callback of [rangeFuncStackTrace] keeps of its variables. *)
Definition rangeOk (bi : BinaryInfo) (st : rangeState) : Prop :=
  (nonMonotonicSP st = true \/ sortedSP (rs_frames st))
  /\ (rs_stage st = normalStage -> rs_rangeParent st <> None /\ rs_frames st <> [])
  /\ (forall f0, head (rs_frames st) = Some f0 ->
        exists fn, Fn (Call f0) = Some fn /\ rangeParent bi fn <> None).

(** * Example data

    Concrete targets on which the functions above are run: an arm64 process
    whose frames are linked through saved frame pointers, as the default
    unwind context of [arm64FixFrameUnwindContext] expects. *)

(** A memory that holds the given 8-byte little-endian words. *)
Definition memOfWords (ws : list (Z * Z)) : Memory :=
  fun addr =>
    match List.find (fun w => (fst w <=? addr) && (addr <? fst w + 8)) ws with
    | Some w => Some (byte_of_Z (snd w / 256 ^ (addr - fst w)))
    | None => None
    end.

(** A binary without symbols or frame descriptions. *)
Definition strippedBinary : BinaryInfo :=
  mkBinaryInfo
    (fun _ => (""%string, 0, None))
    (fun _ => None)
    (fun _ => 0)
    (fun _ => None)
    (fun _ => None)
    (fun _ _ _ _ => inr (ErrExternal "no location expressions"))
    false
    (fun _ _ => (""%string, 0))
    (fun _ => false)
    (fun _ _ _ _ => 0)
    (fun _ _ _ => 0)
    (fun _ _ => [])
    (fun _ _ => inr (ErrExternal "no file table"))
    (fun _ => None)
    (fun _ => [])
    (fun _ _ => inr (ErrExternal "no signal context")).

(** The arm64 adapter of a debugger running on linux. *)
Definition arm64Linux : Arch := ARM64Arch true 8 88.

Definition threadRegs (pc sp bp lr : Z) : op.DwarfRegisters :=
  arm64AddrAndStackRegsToDwarfRegisters 0 pc sp bp lr.

Module ExInline.

Definition mainCU : compileUnit := mkCompileUnit "main" true 0 false.
Definition bar : Function := mkFunction "main.bar" 0x401000 0x401100 80 mainCU.

(** [main.foo] is inlined into [main.bar] at bar.go:10. *)
Definition fooEntry : dwarf.Entry :=
  dwarf.mkEntry 96 (Some "main.foo"%string) (Some 1) (Some 10).

Definition bi : BinaryInfo :=
  mkBinaryInfo
    (fun pc => if pc =? 0x401010 then ("foo.go"%string, 3, Some bar) else (""%string, 0, None))
    (fun _ => None)
    (fun _ => 0)
    (fun _ => None)
    (fun _ => None)
    (fun _ _ _ _ => inr (ErrExternal "no location expressions"))
    false
    (fun _ _ => (""%string, 0))
    (fun _ => true)
    (fun _ _ _ _ => 0)
    (fun _ _ _ => 0)
    (fun fn pc => if pc =? 0x401010 then [fooEntry] else [])
    (fun _ idx => if idx =? 1 then inl "bar.go"%string else inr (ErrExternal "bad file index"))
    (fun _ => None)
    (fun _ => [])
    (fun _ _ => inr (ErrExternal "no signal context")).

(** The stack: frame pointer 0x7010, saved frame pointer 0x7040 and return
    address 0x400f00 above it. *)
Definition mem : Memory := memOfWords [(0x7010, 0x7040); (0x7018, 0x400f00)].

Definition it0 : stackIterator :=
  newStackIterator false (threadRegs 0x401010 0x7000 0x7010 0x400f00) 0 None 0.

Definition physical : Stackframe :=
  mkStackframe (mkLocation 0x401010 "foo.go" 3 (Some bar))
    (mkLocation 0x401010 "foo.go" 3 (Some bar))
    (regs it0) 0 0x400f00 None true false false false 0x401010 0 None [].

(** The same stack in a binary without debug information: the iterator
    after the first [Next], and what [appendInlineCalls] then delivers. *)
Definition strippedIt1 : stackIterator :=
  Eval vm_compute in
    match Next strippedBinary arm64Linux mem it0 with
    | Ok (_, it) => it
    | _ => it0
    end.

Definition strippedIt2 : stackIterator := Eval vm_compute in set_count strippedIt1 1.

Definition strippedFrame : Stackframe := Eval vm_compute in frame_ strippedIt1.

End ExInline.

Module ExDefers.

Definition record (pc sp lnk : Z) (head : option Z) : rawDefer :=
  mkRawDefer None (FnFunc pc) pc sp None lnk head.

Definition unmapped : rawDefer :=
  mkRawDefer (Some (ErrExternal "unreadable")) (FnFunc 0) 0 0 None 0 None.

Definition frameAt (cfa : Z) : Stackframe :=
  set_Regs zeroStackframe (op.set_CFA op.zero cfa).

(** Scenario "deferred call attached" of the specification: two defers
    with SP 0x1000 and 0x1040, three frames with CFA 0x1008, 0x1048 and
    0x1100. *)
Definition heap (addr : Z) : rawDefer :=
  if addr =? 0x8000 then record 0x401000 0x1000 0x8040 (Some 0)
  else if addr =? 0x8040 then record 0x401100 0x1040 0 (Some 0)
  else unmapped.

Definition gor : G.t := G.mk 1 0 0 0 0 0x800 0x2000 false None None 0x8000.

Definition frames : list Stackframe := [frameAt 0x1008; frameAt 0x1048; frameAt 0x1100].

Definition cursor0 : deferCursor := mkDeferCursor (G_Defer heap gor) 0 frames.

Definition stepOr (c : deferCursor) : deferCursor :=
  match readDefersStep heap c with
  | inl c' => c'
  | inr _ => c
  end.

(** The cursor after the first defer was attached to frame 0, and after
    frame 0 was then passed with the second defer. *)
Definition cursor1 : deferCursor := Eval vm_compute in stepOr cursor0.
Definition cursor2 : deferCursor := Eval vm_compute in stepOr cursor1.

(** A list whose second node has a smaller SP than the first. *)
Definition corrupted (addr : Z) : rawDefer :=
  if addr =? 0x8000 then record 0x401000 0x1040 0x8040 (Some 0)
  else if addr =? 0x8040 then record 0x401100 0x1000 0 (Some 0)
  else unmapped.

Definition corruptedCursor : deferCursor :=
  mkDeferCursor (G_Defer corrupted gor) 0 [frameAt 0x1048; frameAt 0x1100].

(** A defer whose rangefunc head starts a list of twenty linked records,
    64 bytes apart from 0xa000 on. *)
Definition longList (addr : Z) : rawDefer :=
  if addr =? 0x9000 then record 0x401000 0x1000 0 (Some 0xa000)
  else if (0xa000 <=? addr) && (addr <? 0xa000 + 19 * 64)
       then record 0x402000 0 (addr + 64) None
  else if addr =? 0xa000 + 19 * 64 then record 0x402000 0 0 None
  else unmapped.

End ExDefers.

Module ExSigpanic.

Definition runtimeCU : compileUnit := mkCompileUnit "runtime" true 0 false.
Definition sigpanic : Function := mkFunction "runtime.sigpanic" 0x400800 0x400900 16 runtimeCU.

(** The iterator after it delivered the [runtime.sigpanic] frame: it now
    sits in the function that took the signal, with frame pointer 0x2000
    and a link register left over from an earlier call. *)
Definition it : stackIterator :=
  mkStackIterator 0x401000 false false true
    (set_Call zeroStackframe (mkLocation 0x400810 "" 0 (Some sigpanic)))
    false None 0 true (threadRegs 0x401000 0x1ff0 0x2000 0x5000) None 0 false 1 0.

(** Saved frame pointer at 0x2000, the slot the frame-pointer context takes
    for the return address at 0x2008, and the word at the CFA 0x2010. *)
Definition mem (atCFA : Z) : Memory :=
  memOfWords [(0x2000, 0x2040); (0x2008, 0x400f00); (0x2010, atCFA)].

End ExSigpanic.

Module ExEnd.

(** A thread in a binary without debug information, frame pointer 0x2000,
    link register 0.  In [mem] the frame record holds a zero return address:
    this is the outermost frame.  In [unmapped] the frame record cannot be
    read. *)
Definition it0 : stackIterator :=
  newStackIterator false (threadRegs 0x401000 0x1ff0 0x2000 0) 0 None 0.

Definition mem : Memory := memOfWords [(0x2000, 0); (0x2008, 0)].

Definition unmapped : Memory := memOfWords [].

(** The steps of the first [Next] on [mem]. *)
Definition advanced : stackIterator * op.DwarfRegisters * Z * Z :=
  Eval vm_compute in advanceRegs strippedBinary arm64Linux mem it0.

Definition it1 : stackIterator := fst (fst (fst advanced)).
Definition cfr : op.DwarfRegisters := snd (fst (fst advanced)).

Definition built : stackIterator * Stackframe :=
  Eval vm_compute in newStackframe strippedBinary mem it1 0 0x2008.

Definition it4 : stackIterator := set_frame (fst built) (snd built).

Definition itLast : stackIterator :=
  Eval vm_compute in
    set_count (set_frame (set_atend it4 true) (set_Bottom (frame_ it4) true)) 1.

Definition bottomFrame : Stackframe := Eval vm_compute in set_Bottom (frame_ it4) true.

End ExEnd.

Module ExRestart.

(** A thread that runs on the system stack (frame pointer 0x2000, in memory
    that cannot be read) for a goroutine parked at PC 0x402000 with frame
    pointer 0x7010; the goroutine's stack ends one frame further up. *)
Definition onThread : op.DwarfRegisters := threadRegs 0x401000 0x1ff0 0x2000 0.

Definition gor : G.t :=
  G.mk 1 0x402000 0x7000 0x7010 0 0x6000 0x8000 true (Some (inl onThread)) None 0.

Definition mem : Memory :=
  memOfWords [(0x7010, 0x7040); (0x7018, 0x400f00); (0x7040, 0); (0x7048, 0)].

Definition it0 : stackIterator := newStackIterator true onThread (G.stack_hi gor) (Some gor) 0.

(** The first pass, which fails on the frame record at 0x2000. *)
Definition firstPass : stackIterator * list Stackframe :=
  Eval vm_compute in
    match stacktraceFunc strippedBinary arm64Linux mem (collect 5) 6 it0 [] with
    | Ok r => r
    | _ => (it0, [])
    end.

Definition it1 : stackIterator := fst firstPass.
Definition f0 : Stackframe := Eval vm_compute in hd zeroStackframe (snd firstPass).

Definition itg : stackIterator :=
  Eval vm_compute in
    match switchToGoroutineStack arm64Linux
            (set_opts (set_err it1 None) (Z.lor (opts it1) StacktraceG)) with
    | Ok (it, _) => it
    | _ => it1
    end.

Definition secondPass : stackIterator * list Stackframe :=
  Eval vm_compute in
    match nextLoop strippedBinary arm64Linux mem (collect 5) 6 (set_top itg true) [f0] with
    | Ok r => r
    | _ => (itg, [])
    end.

(** The same thread in a binary whose frame description at 0x401000 leaves
    the CFA undefined. *)
Definition noCFA : BinaryInfo :=
  mkBinaryInfo
    (fun _ => (""%string, 0, None))
    (fun _ => None)
    (fun _ => 0)
    (fun pc => if pc =? 0x401000
               then Some (frame.mkFrameContext frame.zeroRule ∅ regnum.ARM64_LR)
               else None)
    (fun _ => None)
    (fun _ _ _ _ => inr (ErrExternal "no location expressions"))
    false
    (fun _ _ => (""%string, 0))
    (fun _ => false)
    (fun _ _ _ _ => 0)
    (fun _ _ _ => 0)
    (fun _ _ => [])
    (fun _ _ => inr (ErrExternal "no file table"))
    (fun _ => None)
    (fun _ => [])
    (fun _ _ => inr (ErrExternal "no signal context")).

End ExRestart.

Module ExBottom.

(** The thread of [ExRestart] in a binary whose symbols put every PC in
    [main.bar]: the stack-switch hook leaves the frame alone, the frame
    record at 0x2000 cannot be read and the link register is 0. *)
Definition bi : BinaryInfo :=
  mkBinaryInfo
    (fun _ => ("bar.go"%string, 7, Some ExInline.bar))
    (fun _ => Some ExInline.bar)
    (fun _ => 0)
    (fun _ => None)
    (fun _ => None)
    (fun _ _ _ _ => inr (ErrExternal "no location expressions"))
    false
    (fun _ _ => ("bar.go"%string, 7))
    (fun _ => false)
    (fun _ _ _ _ => 0)
    (fun _ _ _ => 0)
    (fun _ _ => [])
    (fun _ _ => inr (ErrExternal "no file table"))
    (fun _ => None)
    (fun _ => [])
    (fun _ _ => inr (ErrExternal "no signal context")).

(** The steps of the first [Next]. *)
Definition advanced : stackIterator * op.DwarfRegisters * Z * Z :=
  Eval vm_compute in advanceRegs bi arm64Linux ExRestart.mem ExRestart.it0.

Definition it1 : stackIterator := fst (fst (fst advanced)).
Definition cfr : op.DwarfRegisters := snd (fst (fst advanced)).

Definition built : stackIterator * Stackframe :=
  Eval vm_compute in newStackframe bi ExRestart.mem it1 0 0x2008.

Definition it4 : stackIterator := set_frame (fst built) (snd built).

Definition bottomFrame : Stackframe := Eval vm_compute in set_Bottom (frame_ it4) true.

(** The iterator after the frame was delivered, and after the restart. *)
Definition itFailed : stackIterator :=
  Eval vm_compute in set_count (set_frame (set_atend it4 true) bottomFrame) 1.

Definition itLast : stackIterator :=
  Eval vm_compute in
    match switchToGoroutineStack arm64Linux
            (set_opts (set_err itFailed None) (Z.lor (opts itFailed) StacktraceG)) with
    | Ok (it, _) => set_top it true
    | _ => itFailed
    end.

End ExBottom.

Module ExRange.

(** [main.f] ranges over [main.iterate]; the loop body is the closure
    [main.f-range1], compiled with optimisations. *)
Definition mainCU : compileUnit := mkCompileUnit "main" false optimizedOptimized false.
Definition body : Function := mkFunction "main.f-range1" 0x403000 0x403100 0x310 mainCU.
Definition iterate : Function := mkFunction "main.iterate" 0x404000 0x404100 0x320 mainCU.
Definition f : Function := mkFunction "main.f" 0x405000 0x405100 0x300 mainCU.
Definition main : Function := mkFunction "main.main" 0x406000 0x406100 0x330 mainCU.

Definition funcAt (pc : Z) : option Function :=
  List.find (fun fn => (Entry fn <=? pc) && (pc <? End_ fn)) [body; iterate; f; main].

Definition bi : BinaryInfo :=
  mkBinaryInfo
    (fun pc => (""%string, 0, funcAt pc))
    funcAt
    (fun _ => 0)
    (fun _ => None)
    (fun _ => None)
    (fun _ _ _ _ => inr (ErrExternal "no location expressions"))
    false
    (fun _ _ => (""%string, 0))
    (fun _ => false)
    (fun _ _ _ _ => 0)
    (fun _ _ _ => 0)
    (fun _ _ => [])
    (fun _ _ => inr (ErrExternal "no file table"))
    (fun fn => if bool_decide (fn = body) then Some f else None)
    (fun _ => [])
    (fun _ _ => inr (ErrExternal "no signal context")).

(** The goroutine is stopped in the loop body. *)
Definition gor : G.t := G.mk 1 0x403010 0x7000 0x7010 0 0x6000 0x8000 false None None 0.

(** The stack body <- iterate <- f <- main, and a stack on which the body
    is the only frame. *)
Definition mem : Memory :=
  memOfWords [(0x7010, 0x7040); (0x7018, 0x404020); (0x7040, 0x7070); (0x7048, 0x405030);
              (0x7070, 0x70a0); (0x7078, 0x406040); (0x70a0, 0); (0x70a8, 0)].

Definition cut : Memory := memOfWords [(0x7010, 0); (0x7018, 0)].

Definition it0 : stackIterator :=
  Eval vm_compute in
    match goroutineStackIterator bi arm64Linux true gor StacktraceSimple with
    | inl it => it
    | inr _ => newStackIterator true op.zero 0 None 0
    end.

Definition collected (m : Memory) : stackIterator * rangeState :=
  match stacktraceFunc bi arm64Linux m (rangeCallback bi) 10 it0 initialRangeState with
  | Ok r => r
  | _ => (it0, initialRangeState)
  end.

Definition full : stackIterator * rangeState := Eval vm_compute in collected mem.

Definition noDefers (addr : Z) : rawDefer :=
  mkRawDefer (Some (ErrExternal "unreadable")) (FnFunc 0) 0 0 None 0 None.

End ExRange.

Module ExTrace.

(** The trace of the thread of [ExEnd] when its frame record cannot be
    read: the frame it is in, then the error. *)
Definition failed : stackIterator * list Stackframe * option error :=
  Eval vm_compute in
    match stacktrace strippedBinary arm64Linux ExEnd.unmapped ExEnd.it0 5 with
    | Ok r => r
    | _ => (ExEnd.it0, [], None)
    end.

(** The trace of [ExRestart], which restarts from the goroutine's
    registers. *)
Definition restarted : stackIterator * list Stackframe * option error :=
  Eval vm_compute in
    match stacktrace strippedBinary arm64Linux ExRestart.mem ExRestart.it0 5 with
    | Ok r => r
    | _ => (ExRestart.it0, [], None)
    end.

(** The same trace with maximum depth 0. *)
Definition shallow : stackIterator * list Stackframe * option error :=
  Eval vm_compute in
    match stacktrace strippedBinary arm64Linux ExRestart.mem ExRestart.it0 0 with
    | Ok r => r
    | _ => (ExRestart.it0, [], None)
    end.

End ExTrace.

Module ExClosure.

(** The binary of [ExRange] with debug information for its functions; the
    closure pointer of the loop body is 0x7008, an address on the stack of
    the goroutine. *)
Definition bi : BinaryInfo :=
  mkBinaryInfo
    (fun pc => ("body.go"%string, 7, ExRange.funcAt pc))
    ExRange.funcAt
    (fun _ => 0)
    (fun _ => None)
    (fun _ => None)
    (fun _ _ _ _ => inr (ErrExternal "no location expressions"))
    false
    (fun _ _ => ("body.go"%string, 7))
    (fun _ => true)
    (fun _ _ _ _ => 0)
    (fun _ _ _ => 0x7008)
    (fun _ _ => [])
    (fun _ _ => inr (ErrExternal "no file table"))
    (fun fn => if bool_decide (fn = ExRange.body) then Some ExRange.f else None)
    (fun _ => [])
    (fun _ _ => inr (ErrExternal "no signal context")).

(** The iterator once the CFA 0x7020 of the topmost frame is known, and the
    frame built from it. *)
Definition it1 : stackIterator :=
  Eval vm_compute in fst (fst (fst (advanceRegs bi arm64Linux ExRange.mem ExRange.it0))).

Definition bodyFrame : Stackframe :=
  Eval vm_compute in snd (newStackframe bi ExRange.mem it1 0x404020 0x7018).

End ExClosure.

Module ExDefersRun.

(** The frames of [ExDefers] after [readDefers]. *)
Definition result : list Stackframe :=
  Eval vm_compute in
    match readDefers ExDefers.heap 10 ExDefers.gor ExDefers.frames with
    | Ok frames => frames
    | _ => []
    end.

(** A defer record whose [link] points back at the record itself. *)
Definition selfLinked (addr : Z) : rawDefer :=
  if addr =? 0x8000 then ExDefers.record 0x401000 0x1000 0x8000 (Some 0)
  else ExDefers.unmapped.

Definition cyclic : Defer := Eval vm_compute in Defer_load selfLinked (newDefer 0x8000) true.

End ExDefersRun.

Module ExRangeRun.

(** The four frames [rangeFuncStackTrace] returns for the goroutine of
    [ExRange]: the loop body, [main.iterate], [main.f] and [main.main]. *)
Definition result : list Stackframe * option error :=
  Eval vm_compute in
    match rangeFuncStackTrace ExRange.bi arm64Linux ExRange.mem ExRange.noDefers 10
            (Some ExRange.gor) with
    | Ok r => r
    | _ => ([], None)
    end.

Definition first : Stackframe := Eval vm_compute in hd zeroStackframe (fst result).

End ExRangeRun.

Module ExGoexit.

(** The thread of [ExInline] in a binary whose symbols put every PC in
    [runtime.goexit]. *)
Definition goexit : Function :=
  mkFunction "runtime.goexit" 0x401000 0x401040 0 ExSigpanic.runtimeCU.

Definition bi : BinaryInfo :=
  mkBinaryInfo
    (fun _ => ("asm_arm64.s"%string, 1, Some goexit))
    (fun _ => Some goexit)
    (fun _ => 0)
    (fun _ => None)
    (fun _ => None)
    (fun _ _ _ _ => inr (ErrExternal "no location expressions"))
    false
    (fun _ _ => ("asm_arm64.s"%string, 1))
    (fun _ => false)
    (fun _ _ _ _ => 0)
    (fun _ _ _ => 0)
    (fun _ _ => [])
    (fun _ _ => inr (ErrExternal "no file table"))
    (fun _ => None)
    (fun _ => [])
    (fun _ _ => inr (ErrExternal "no signal context")).

End ExGoexit.

Module ExGoroutine.

(** The goroutine of [ExRange] with the two deferred calls of
    [ExDefers], and its trace with [StacktraceReadDefers]. *)
Definition gor : G.t := G.mk 1 0x403010 0x7000 0x7010 0 0x6000 0x8000 false None None 0x8000.

Definition result : list Stackframe * option error :=
  Eval vm_compute in
    match GoroutineStacktrace ExRange.bi arm64Linux ExRange.mem ExDefers.heap 10 true gor 5
            StacktraceReadDefers with
    | Ok r => r
    | _ => ([], None)
    end.

End ExGoroutine.

(** * Properties *)

(** ** Machine words and memory *)

Lemma uint64_small z : 0 <= z < 2 ^ 64 -> uint64 z = z.
Proof. intros H. unfold uint64. apply Z.mod_small. exact H. Qed.

Lemma uint64_range z : 0 <= uint64 z < 2 ^ 64.
Proof. unfold uint64. apply Z.mod_pos_bound. lia. Qed.

Lemma ReadMemory_length mem n : forall addr bs,
  ReadMemory mem addr n = Some bs -> length bs = n.
Proof.
  induction n as [|n IH]; intros addr bs H; simpl in H.
  - inversion H. reflexivity.
  - destruct (mem addr) as [b|]; [|discriminate].
    destruct (ReadMemory mem (uint64 (addr + 1)) n) as [rest|] eqn:E; [|discriminate].
    inversion H. simpl. f_equal. eapply IH. exact E.
Qed.

(** ** The register-rule evaluator *)

Section EvaluatorFacts.

Context (bi : BinaryInfo) (a : ArchCore) (mem : Memory).

(** The evaluator looks at the iterator's registers only. *)
Lemma executeFrameRegRule_regs it it' regnum rule cfa :
  regs it = regs it' ->
  executeFrameRegRule bi a mem it regnum rule cfa
  = executeFrameRegRule bi a mem it' regnum rule cfa.
Proof.
  intros H. unfold executeFrameRegRule, readRegisterAt. rewrite H. reflexivity.
Qed.

(** C2.  For every register number [regnum], CFA value and register set in
    which register [r] is present, a [FramePointer(r)] rule reads a word of
    [regSize regnum] bytes from memory at address [regs[r]] when [regs[r]]
    is at most the CFA, and returns the register [regs[r]] itself, unchanged,
    when [regs[r]] is greater than the CFA.  The CFA is compared as the
    64-bit address [uint64(cfa)], as the source does. *)
Theorem executeFrameRegRule_FramePointer
    (it : stackIterator) (regnum r off cfa : Z) (expr : list byte) (curReg : op.DwarfRegister) :
  op.Reg (regs it) r = Some curReg ->
  let rule := frame.mkDWRule frame.RuleFramePointer off r expr in
  (op.Uint64Val curReg <= uint64 cfa ->
     executeFrameRegRule bi a mem it regnum rule cfa
     = match ReadMemory mem (op.Uint64Val curReg) (regSize a regnum) with
       | Some buf => (Some (op.DwarfRegisterFromBytes buf), None)
       | None => (None, Some (ErrReadMemory (op.Uint64Val curReg)))
       end)
  /\ (op.Uint64Val curReg > uint64 cfa ->
        executeFrameRegRule bi a mem it regnum rule cfa = (Some curReg, None)).
Proof.
  intros Hr rule. unfold executeFrameRegRule, rule. simpl. rewrite Hr.
  split; intros Hcmp.
  - destruct (Z.leb_spec (op.Uint64Val curReg) (uint64 cfa)) as [_|Hgt]; [|lia].
    unfold readRegisterAt.
    destruct (ReadMemory mem (op.Uint64Val curReg) (regSize a regnum)); reflexivity.
  - destruct (Z.leb_spec (op.Uint64Val curReg) (uint64 cfa)) as [Hle|_]; [lia|].
    reflexivity.
Qed.

End EvaluatorFacts.

(** ** Inline expansion *)

Lemma bind_Ok {A B : Type} (x : A) (k : A -> Result B) : Ok x ≫= k = k x.
Proof. reflexivity. Qed.

Lemma rbind_Ok {A B : Type} (r : Result A) (k : A -> Result B) (b : B) :
  r ≫= k = Ok b -> exists x, r = Ok x /\ k x = Ok b.
Proof.
  destruct r as [x| |]; simpl; intros H; try discriminate.
  exists x. split; [reflexivity | exact H].
Qed.

Section InlineFacts.

Context (bi : BinaryInfo).

Lemma sharesWith_refl F : sharesWith F F.
Proof. repeat split. Qed.

Lemma set_count_set_count it n m : set_count (set_count it n) m = set_count it m.
Proof. reflexivity. Qed.

Lemma inlineLoop_collect depth callfn entries :
  forall it frame frames it' frame' frames',
    inlineLoop bi (collect depth) callfn entries it frame frames = Ok (it', frame', frames') ->
    exists synth,
      frames' = frames ++ synth
      /\ Forall (fun f => Inlined f = true /\ sharesWith frame f) synth
      /\ sharesWith frame frame'
      /\ Bottom frame' = Bottom frame
      /\ Inlined frame' = Inlined frame
      /\ (hasInlines frame = true \/ synth <> [] -> hasInlines frame' = true)
      /\ (it' = it \/ exists n, it' = set_count it n).
Proof.
  induction entries as [|entry rest IH]; intros it frame frames it' frame' frames' H.
  - simpl in H. inversion H; subst. exists []. rewrite app_nil_r.
    repeat split; auto. intros [Hh|Hn]; [exact Hh | congruence].
  - simpl in H.
    destruct (dwarf.AttrName entry) as [fnname|];
      [destruct (dwarf.AttrCallFile entry) as [fileidx|];
       [destruct (dwarf.AttrCallLine entry) as [line|]|]|].
    2-4: inversion H; subst; exists []; rewrite app_nil_r;
         repeat split; auto.
    change (Fn (Current (set_hasInlines frame true))) with (Fn (Current frame)) in H.
    destruct (Fn (Current frame)) as [curfn|]; [|discriminate].
    destruct (filePath bi curfn fileidx) as [filepath|e].
    + simpl in H. apply IH in H.
      destruct H as (synth & Hfr & Hall & Hsh & Hb & Hi & Hh & Hit).
      eexists (_ :: synth). split.
      { rewrite Hfr. rewrite <- app_assoc. reflexivity. }
      split.
      { constructor.
        - split; [reflexivity | repeat split].
        - eapply Forall_impl; [exact Hall|]. intros f [Hf Hs]. split; [exact Hf|].
          exact Hs. }
      split; [exact Hsh|]. split; [exact Hb|]. split; [exact Hi|].
      split; [intros _; apply Hh; left; reflexivity|].
      right. destruct Hit as [->|[n ->]]; eexists; reflexivity.
    + inversion H; subst. exists []. rewrite app_nil_r.
      repeat split; auto.
Qed.

(** What [appendInlineCalls] hands to the collecting callback of
    [stacktrace], and what it leaves of the iterator. *)
Lemma appendInlineCalls_collect
    (depth : Z) (it it' : stackIterator) (frame : Stackframe)
    (frames frames' : list Stackframe) (more : bool) :
  appendInlineCalls bi (collect depth) it frame frames = Ok (more, it', frames') ->
  exists synth phys,
    frames' = frames ++ synth ++ [phys]
    /\ Forall (fun f => Inlined f = true /\ sharesWith phys f) synth
    /\ sharesWith frame phys
    /\ Bottom phys = Bottom frame
    /\ Inlined phys = Inlined frame
    /\ (1 <= length synth -> hasInlines phys = true)%nat
    /\ (Fn (Call frame) = None -> synth = [] /\ phys = frame)
    /\ more = (Z.of_nat (length frames') <? depth + 1)
    /\ exists n, it' = set_count it n.
Proof.
  unfold appendInlineCalls. intros H.
  assert (Hdeliver : forall it0 fr0 fs0,
    (let it1 := incCount it0 in
     collect depth fs0 fr0 ≫= (fun '(more0, s) => Ok (more0, it1, s)))
    = Ok (more, it', frames') ->
    frames' = fs0 ++ [fr0] /\ more = (Z.of_nat (length frames') <? depth + 1)
    /\ it' = incCount it0).
  { intros it0 fr0 fs0 Hd. simpl in Hd. inversion Hd. auto. }
  assert (Hplain : frames' = frames ++ [frame]
                   /\ more = (Z.of_nat (length frames') <? depth + 1)
                   /\ it' = incCount it ->
    exists synth phys,
      frames' = frames ++ synth ++ [phys]
      /\ Forall (fun f => Inlined f = true /\ sharesWith phys f) synth
      /\ sharesWith frame phys
      /\ Bottom phys = Bottom frame
      /\ Inlined phys = Inlined frame
      /\ (1 <= length synth -> hasInlines phys = true)%nat
      /\ (Fn (Call frame) = None -> synth = [] /\ phys = frame)
      /\ more = (Z.of_nat (length frames') <? depth + 1)
      /\ exists n, it' = set_count it n).
  { intros (Hf & Hm & Hi). exists [], frame.
    split; [exact Hf|]. split; [constructor|]. split; [apply sharesWith_refl|].
    split; [reflexivity|]. split; [reflexivity|].
    split; [simpl; lia|]. split; [auto|]. split; [exact Hm|].
    eexists. exact Hi. }
  destruct (Fn (Call frame)) as [callfn|]; [|apply Hplain, Hdeliver, H].
  destruct (negb (lineInfo (cu callfn))); [apply Hplain, Hdeliver, H|].
  destruct (negb (getDwarfTree bi callfn)); [apply Hplain, Hdeliver, H|].
  apply rbind_Ok in H. destruct H as ([[it1 frame1] frames1] & Hloop & Hd).
  apply Hdeliver in Hd. destruct Hd as (Hd & Hm & Hi).
  apply inlineLoop_collect in Hloop.
  destruct Hloop as (synth & Hfr & Hall & Hsh & Hb & Hin & Hh & Hit).
  exists synth, frame1. split.
  { rewrite Hd, Hfr, <- app_assoc. reflexivity. }
  split.
  { eapply Forall_impl; [exact Hall|]. intros f [Hf (H1 & H2 & H3 & H4)].
    destruct Hsh as (S1 & S2 & S3 & S4).
    split; [exact Hf|]. unfold sharesWith. rewrite H1, H2, H3, H4, S1, S2, S3, S4.
    repeat split. }
  split; [exact Hsh|]. split; [exact Hb|]. split; [exact Hin|].
  split.
  { intros Hl. apply Hh. right. destruct synth; [simpl in Hl; lia | discriminate]. }
  split; [discriminate|]. split; [exact Hm|].
  rewrite Hi. destruct Hit as [->|[n ->]]; eexists; reflexivity.
Qed.

(** C5.  Whatever [appendInlineCalls] hands to the collecting callback of
    [stacktrace] is a run of synthetic frames followed by the physical
    frame.  Every synthetic frame has [Inlined = true] and the [Current],
    [Regs], [Ret] and [stackHi] of the physical frame, and when there is at
    least one synthetic frame the physical frame is delivered with
    [hasInlines = true]. *)
Theorem appendInlineCalls_inline_frames
    (depth : Z) (it it' : stackIterator) (frame : Stackframe)
    (frames frames' : list Stackframe) (more : bool) :
  appendInlineCalls bi (collect depth) it frame frames = Ok (more, it', frames') ->
  exists synth phys,
    frames' = frames ++ synth ++ [phys]
    /\ Forall (fun f => Inlined f = true /\ sharesWith phys f) synth
    /\ sharesWith frame phys
    /\ (1 <= length synth -> hasInlines phys = true)%nat.
Proof.
  intros H. apply appendInlineCalls_collect in H.
  destruct H as (synth & phys & H1 & H2 & H3 & _ & _ & H4 & _).
  exists synth, phys. auto.
Qed.

End InlineFacts.

(** Scenario "inlined call" of the specification: one synthetic frame for
    [main.foo], then [main.bar] with [hasInlines]. *)
Lemma appendInlineCalls_inline_frames_witness :
  exists synth phys,
    [inlineFrame ExInline.physical
       (mkFunction "main.foo" 0x401000 0x401100 96 ExInline.mainCU);
     set_Call (set_hasInlines ExInline.physical true)
       (mkLocation 0x401010 "bar.go" 10 (Some ExInline.bar))]
    = [] ++ synth ++ [phys]
    /\ Forall (fun f => Inlined f = true /\ sharesWith phys f) synth
    /\ sharesWith ExInline.physical phys
    /\ (1 <= length synth -> hasInlines phys = true)%nat.
Proof.
  apply (appendInlineCalls_inline_frames ExInline.bi 5 ExInline.it0
           (set_count ExInline.it0 2) ExInline.physical [] _ true).
  vm_compute. reflexivity.
Defined.

(** ** The defer correlator *)

Section DeferFacts.

Context (readDefer : Z -> rawDefer).

(** *** The rangefunc list *)

Lemma rangefuncLoop_S fuel hd acc :
  rangefuncLoop readDefer (Datatypes.S fuel) hd acc
  = if link (loadFields readDefer (newDefer hd)) =? 0
    then acc ++ [loadFields readDefer (newDefer hd)]
    else if maxRangeFuncDefers
            <? Z.of_nat (length (acc ++ [loadFields readDefer (newDefer hd)]))
         then acc ++ [loadFields readDefer (newDefer hd)]
         else rangefuncLoop readDefer fuel (link (loadFields readDefer (newDefer hd)))
                (acc ++ [loadFields readDefer (newDefer hd)]).
Proof. reflexivity. Qed.

Lemma rangefuncLoop_length fuel : forall hd acc,
  (length acc <= 10)%nat ->
  (length (rangefuncLoop readDefer fuel hd acc) <= 11)%nat.
Proof.
  induction fuel as [|fuel IH]; intros hd acc Hacc.
  - simpl. lia.
  - rewrite rangefuncLoop_S.
    destruct (link (loadFields readDefer (newDefer hd)) =? 0).
    + rewrite length_app. simpl. lia.
    + destruct (Z.ltb_spec maxRangeFuncDefers
                  (Z.of_nat (length (acc ++ [loadFields readDefer (newDefer hd)])))) as [Hgt|Hle].
      * rewrite length_app. simpl. lia.
      * apply IH. unfold maxRangeFuncDefers in Hle. lia.
Qed.

(** The loop leaves by one of its two [break]s before the fuel [load]
    gives it is used up: more fuel does not change its result. *)
Lemma rangefuncLoop_fuel fuel : forall hd acc,
  (11 - length acc <= fuel)%nat -> (1 <= fuel)%nat ->
  rangefuncLoop readDefer (Datatypes.S fuel) hd acc = rangefuncLoop readDefer fuel hd acc.
Proof.
  induction fuel as [|fuel IH]; intros hd acc Hf H1; [lia|].
  rewrite (rangefuncLoop_S (Datatypes.S fuel) hd acc), (rangefuncLoop_S fuel hd acc).
  destruct (link (loadFields readDefer (newDefer hd)) =? 0); [reflexivity|].
  destruct (Z.ltb_spec maxRangeFuncDefers
              (Z.of_nat (length (acc ++ [loadFields readDefer (newDefer hd)])))) as [Hgt|Hle];
    [reflexivity|].
  rewrite length_app in Hle. simpl in Hle. unfold maxRangeFuncDefers in Hle.
  apply IH; rewrite ?length_app; simpl; lia.
Qed.

(** What the code guarantees: a freshly loaded defer carries at most
    [maxRangeFuncDefers + 1] rangefunc entries. *)
Lemma Defer_load_rangefunc_bound addr canrecur :
  (length (rangefunc (Defer_load readDefer (newDefer addr) canrecur)) <= 11)%nat.
Proof.
  unfold Defer_load.
  destruct (raw_Unreadable (readDefer (variable (newDefer addr)))) eqn:E.
  - unfold loadFields. rewrite E. cbn. lia.
  - assert (Hrf : rangefunc (loadFields readDefer (newDefer addr)) = [])
      by (unfold loadFields; rewrite E; reflexivity).
    destruct canrecur; [|rewrite Hrf; simpl; lia].
    destruct (raw_head (readDefer (variable (newDefer addr)))) as [h|];
      [|rewrite Hrf; simpl; lia].
    destruct (h =? 0); [rewrite Hrf; simpl; lia|].
    unfold set_rangefunc. cbn [rangefunc]. rewrite Hrf.
    apply rangefuncLoop_length. simpl. lia.
Qed.

(** *** The walk over frames and defers *)

Lemma skipsFrame_spec d fr :
  skipsFrame d fr = true
  <-> SystemStack fr = true \/ Inlined fr = true \/ SP d >= uint64 (op.CFA (Regs fr)).
Proof.
  unfold skipsFrame. rewrite !orb_true_iff, Z.leb_le. intuition lia.
Qed.

Lemma skipsFrame_false d fr :
  skipsFrame d fr = false
  <-> SystemStack fr = false /\ Inlined fr = false /\ SP d < uint64 (op.CFA (Regs fr)).
Proof.
  unfold skipsFrame. rewrite !orb_false_iff, Z.leb_gt. intuition lia.
Qed.

Lemma skipsFrame_withTopmost d d' fr :
  skipsFrame d (withTopmost d' fr) = skipsFrame d fr.
Proof. unfold withTopmost. destruct (TopmostDefer fr); reflexivity. Qed.

(** The loop goes on in exactly two ways. *)
Lemma readDefersStep_inl c c' :
  readDefersStep readDefer c = inl c' ->
  exists d fr,
    curdefer c = Some d /\ dc_frames c !! idx c = Some fr
    /\ Unreadable d = None /\ Err fr = None
    /\ ((skipsFrame d fr = true
         /\ c' = mkDeferCursor (Some d) (Datatypes.S (idx c))
                   (<[idx c := withTopmost d fr]> (dc_frames c)))
        \/ (skipsFrame d fr = false
            /\ c' = mkDeferCursor (Defer_Next readDefer d) (idx c)
                      (<[idx c := attach (withTopmost d fr) (attachedFor d)]> (dc_frames c)))).
Proof.
  unfold readDefersStep. intros H.
  destruct (curdefer c) as [d|]; [|discriminate].
  destruct (dc_frames c !! idx c) as [fr|]; [|discriminate].
  destruct (bool_decide (Unreadable d ≠ None)) eqn:Eu; [discriminate|].
  destruct (bool_decide (Err fr ≠ None)) eqn:Ee; [discriminate|].
  apply bool_decide_eq_false in Eu. apply bool_decide_eq_false in Ee.
  assert (Hu : Unreadable d = None) by (destruct (Unreadable d); [exfalso; apply Eu; discriminate | reflexivity]).
  assert (He : Err fr = None) by (destruct (Err fr); [exfalso; apply Ee; discriminate | reflexivity]).
  exists d, fr. do 4 (split; [assumption || reflexivity|]).
  fold (withTopmost d fr) in H. rewrite <- (skipsFrame_withTopmost d d fr).
  destruct (skipsFrame d (withTopmost d fr)).
  - left. split; [reflexivity|]. inversion H. reflexivity.
  - right. split; [reflexivity|]. inversion H. unfold attachedFor.
    destruct (rangefunc d); reflexivity.
Qed.

Lemma sameFrame_skipsFrame d f f' : sameFrame f f' -> skipsFrame d f' = skipsFrame d f.
Proof. intros (H1 & H2 & H3 & _). unfold skipsFrame. rewrite H1, H2, H3. reflexivity. Qed.

Lemma sameFrame_withTopmost d f : sameFrame f (withTopmost d f).
Proof. unfold withTopmost. destruct (TopmostDefer f); repeat split. Qed.

Lemma walk_invariant c0 since c :
  walk readDefer c0 since c ->
  (forall j fr, dc_frames c !! j = Some fr ->
     exists fr0, dc_frames c0 !! j = Some fr0 /\ sameFrame fr0 fr)
  /\ (forall d, curdefer c = Some d -> forall j, (since <= j < idx c)%nat ->
        exists fj, dc_frames c0 !! j = Some fj /\ skipsFrame d fj = true).
Proof.
  induction 1 as [|since c c' Hw [IH1 IH2] Hstep Hidx|since c c' Hw [IH1 IH2] Hstep Hidx].
  - split.
    + intros j fr Hj. exists fr. split; [exact Hj | repeat split].
    + intros d _ j Hj. lia.
  - apply readDefersStep_inl in Hstep.
    destruct Hstep as (d & fr & Hd & Hfr & _ & _ & [[Hs ->]|[_ ->]]); simpl in *; [|lia].
    split.
    + intros j f Hj. apply list_lookup_insert_Some in Hj.
      destruct Hj as [(<- & <- & _)|[Hne Hj]].
      * destruct (IH1 _ _ Hfr) as (fr0 & H0 & Hsame). exists fr0. split; [exact H0|].
        destruct Hsame as (S1 & S2 & S3 & S4).
        destruct (sameFrame_withTopmost d fr) as (T1 & T2 & T3 & T4).
        unfold sameFrame. rewrite T1, T2, T3, T4. auto.
      * apply IH1. exact Hj.
    + intros d' Hd' j Hj. inversion Hd'; subst d'.
      destruct (decide (j = idx c)) as [->|Hne].
      * destruct (IH1 _ _ Hfr) as (fr0 & H0 & Hsame). exists fr0. split; [exact H0|].
        rewrite <- Hs. symmetry. apply sameFrame_skipsFrame. 
        destruct Hsame as (S1 & S2 & S3 & S4). repeat split; congruence.
      * apply IH2; [exact Hd | lia].
  - apply readDefersStep_inl in Hstep.
    destruct Hstep as (d & fr & Hd & Hfr & _ & _ & [[_ ->]|[Hs ->]]); simpl in *; [lia|].
    split.
    + intros j f Hj. apply list_lookup_insert_Some in Hj.
      destruct Hj as [(<- & <- & _)|[Hne Hj]].
      * destruct (IH1 _ _ Hfr) as (fr0 & H0 & Hsame). exists fr0. split; [exact H0|].
        destruct Hsame as (S1 & S2 & S3 & S4).
        destruct (sameFrame_withTopmost d fr) as (T1 & T2 & T3 & T4).
        unfold sameFrame, attach. simpl. rewrite T1, T2, T3, T4. auto.
      * apply IH1. exact Hj.
    + intros d' _ j Hj. lia.
Qed.

End DeferFacts.

(** C4 (as stated) fails on the scenario of the specification itself: the
    defer with SP 0x1000 is attached to frame 0, and its SP is below the CFA
    0x1048 of frame 1. *)
Lemma readDefers_next_frame_counterexample :
  exists res fr0 fr1 d,
    readDefers ExDefers.heap 10 ExDefers.gor ExDefers.frames = Ok res
    /\ res !! 0%nat = Some fr0 /\ res !! 1%nat = Some fr1
    /\ Defers fr0 = [d]
    /\ SP d = 0x1000 /\ uint64 (op.CFA (Regs fr1)) = 0x1048
    /\ ~ (SP d >= uint64 (op.CFA (Regs fr1))).
Proof.
  eexists _, _, _, _.
  split; [vm_compute; reflexivity|].
  split; [reflexivity|]. split; [reflexivity|]. split; [reflexivity|].
  split; [reflexivity|]. split; [reflexivity|].
  vm_compute. intros H. apply H. reflexivity.
Qed.

(** C4, amended.  While the current defer [d] is readable and frame [i] has
    no error, the cursor moves to frame [i+1] exactly when frame [i] is a
    system-stack frame, an inlined frame, or [d.SP >= CFA(i)] (as 64-bit
    addresses); otherwise [d] (or its rangefunc entries) is attached to
    frame [i], and then [d.SP < CFA(i)].  Every frame the cursor has passed
    since [d] became the current defer is a system-stack frame, an inlined
    frame or has its CFA at or below [d.SP]: the bound is on the frames
    before [i], not on frame [i+1]. *)
Theorem readDefers_cursor
    (readDefer : Z -> rawDefer) (c0 c : deferCursor) (since : nat)
    (d : Defer) (fr : Stackframe) :
  walk readDefer c0 since c ->
  curdefer c = Some d ->
  dc_frames c !! idx c = Some fr ->
  Unreadable d = None ->
  Err fr = None ->
  exists c',
    readDefersStep readDefer c = inl c'
    /\ (idx c' = Datatypes.S (idx c) \/ idx c' = idx c)
    /\ (idx c' = Datatypes.S (idx c)
        <-> (SystemStack fr = true \/ Inlined fr = true
             \/ SP d >= uint64 (op.CFA (Regs fr))))
    /\ (idx c' = idx c ->
        SP d < uint64 (op.CFA (Regs fr))
        /\ exists fr', dc_frames c' !! idx c = Some fr'
                       /\ Defers fr' = Defers fr ++ attachedFor d)
    /\ (forall j, (since <= j < idx c)%nat ->
          exists fj, dc_frames c0 !! j = Some fj
                     /\ (SystemStack fj = true \/ Inlined fj = true
                         \/ SP d >= uint64 (op.CFA (Regs fj)))).
Proof.
  intros Hw Hd Hfr Hu He.
  assert (Hpast : forall j, (since <= j < idx c)%nat ->
            exists fj, dc_frames c0 !! j = Some fj
                       /\ (SystemStack fj = true \/ Inlined fj = true
                           \/ SP d >= uint64 (op.CFA (Regs fj)))).
  { intros j Hj. destruct (walk_invariant readDefer c0 since c Hw) as [_ H2].
    destruct (H2 d Hd j Hj) as (fj & Hfj & Hs). exists fj. split; [exact Hfj|].
    apply skipsFrame_spec. exact Hs. }
  unfold readDefersStep. rewrite Hd, Hfr, Hu, He.
  rewrite !bool_decide_eq_false_2 by (intros H; apply H; reflexivity).
  fold (withTopmost d fr). rewrite (skipsFrame_withTopmost d d fr).
  destruct (skipsFrame d fr) eqn:Es.
  - eexists. split; [reflexivity|]. simpl.
    split; [left; reflexivity|]. split.
    + split; [intros _; apply skipsFrame_spec; exact Es | reflexivity].
    + split; [intros H; lia | exact Hpast].
  - eexists. split; [reflexivity|]. simpl.
    split; [right; reflexivity|]. split.
    + split; [intros H; lia|]. intros H. apply skipsFrame_spec in H. congruence.
    + split; [|exact Hpast]. intros _. split.
      * apply skipsFrame_false in Es. apply Es.
      * exists (attach (withTopmost d fr) (attachedFor d)). split.
        -- assert (Hlt : (idx c < length (dc_frames c))%nat)
             by (eapply lookup_lt_Some; exact Hfr).
           unfold attachedFor.
           destruct (rangefunc d); apply list_lookup_insert_eq; exact Hlt.
        -- unfold attach, withTopmost. destruct (TopmostDefer fr); reflexivity.
Qed.

(** On the scenario of the specification: the second defer (SP 0x1040) is
    current at frame 1 after frame 0 (CFA 0x1008) was passed; it is attached
    to frame 1 (CFA 0x1048). *)
Lemma readDefers_cursor_witness :
  exists c',
    readDefersStep ExDefers.heap ExDefers.cursor2 = inl c'
    /\ (idx c' = 2%nat \/ idx c' = 1%nat)
    /\ (idx c' = 2%nat <-> (false = true \/ false = true \/ 0x1040 >= 0x1048))
    /\ (idx c' = 1%nat ->
        0x1040 < 0x1048
        /\ exists fr', dc_frames c' !! 1%nat = Some fr'
                       /\ Defers fr' = [] ++ [Defer_load ExDefers.heap (newDefer 0x8040) true])
    /\ (forall j, (0 <= j < 1)%nat ->
          exists fj, ExDefers.frames !! j = Some fj
                     /\ (SystemStack fj = true \/ Inlined fj = true
                         \/ 0x1040 >= uint64 (op.CFA (Regs fj)))).
Proof.
  apply (readDefers_cursor ExDefers.heap ExDefers.cursor0 ExDefers.cursor2 0
           (Defer_load ExDefers.heap (newDefer 0x8040) true)
           (ExDefers.frameAt 0x1048)).
  - apply (walk_skip ExDefers.heap ExDefers.cursor0 0 ExDefers.cursor1).
    + apply (walk_attach ExDefers.heap ExDefers.cursor0 0 ExDefers.cursor0).
      * apply walk_start.
      * vm_compute. reflexivity.
      * reflexivity.
    + vm_compute. reflexivity.
    + reflexivity.
  - vm_compute. reflexivity.
  - reflexivity.
  - reflexivity.
  - reflexivity.
Defined.

(** C6.  When [d] is attached to frame [i] and the defer loaded through its
    link pointer has a smaller SP, [Next] returns that defer marked
    unreadable with [errSPDecreased]; at the next turn the loop attaches the
    unreadable defer to the same frame [i] and returns. *)
Theorem readDefers_SP_decreased
    (readDefer : Z -> rawDefer) (c : deferCursor) (d : Defer) (fr : Stackframe) :
  curdefer c = Some d ->
  dc_frames c !! idx c = Some fr ->
  Unreadable d = None ->
  Err fr = None ->
  skipsFrame d fr = false ->
  link d <> 0 ->
  SP (Defer_load readDefer (newDefer (link d)) true) < SP d ->
  let bad := set_Unreadable (Defer_load readDefer (newDefer (link d)) true)
               (Some errSPDecreased) in
  Defer_Next readDefer d = Some bad
  /\ exists c',
       readDefersStep readDefer c = inl c'
       /\ curdefer c' = Some bad
       /\ idx c' = idx c
       /\ exists res fr',
            readDefersStep readDefer c' = inr res
            /\ res !! idx c = Some fr'
            /\ Defers fr' = Defers fr ++ attachedFor d ++ [bad]
            /\ Unreadable bad = Some errSPDecreased.
Proof.
  intros Hd Hfr Hu He Hs Hl Hsp bad.
  assert (Hnext : Defer_Next readDefer d = Some bad).
  { unfold Defer_Next. apply Z.eqb_neq in Hl. rewrite Hl.
    apply Z.ltb_lt in Hsp. rewrite Hsp. reflexivity. }
  split; [exact Hnext|].
  assert (Hlt : (idx c < length (dc_frames c))%nat) by (eapply lookup_lt_Some; exact Hfr).
  exists (mkDeferCursor (Some bad) (idx c)
            (<[idx c := attach (withTopmost d fr) (attachedFor d)]> (dc_frames c))).
  split.
  { unfold readDefersStep. rewrite Hd, Hfr, Hu, He.
    rewrite !bool_decide_eq_false_2 by (intros H; apply H; reflexivity).
    fold (withTopmost d fr). rewrite (skipsFrame_withTopmost d d fr), Hs, Hnext.
    unfold attachedFor. destruct (rangefunc d); reflexivity. }
  split; [reflexivity|]. split; [reflexivity|].
  eexists _, _. split.
  { unfold readDefersStep. cbn [curdefer idx dc_frames].
    rewrite list_lookup_insert_eq by exact Hlt.
    rewrite bool_decide_eq_true_2 by (subst bad; discriminate).
    reflexivity. }
  split.
  { apply list_lookup_insert_eq. rewrite length_insert. exact Hlt. }
  split; [|reflexivity].
  unfold attach, withTopmost. destruct (TopmostDefer fr); simpl; rewrite <- app_assoc; reflexivity.
Qed.

(** A list whose second record has SP 0x1000 after a first with SP 0x1040:
    both end up on frame 0, the second one unreadable. *)
Lemma readDefers_SP_decreased_witness :
  Defer_Next ExDefers.corrupted (Defer_load ExDefers.corrupted (newDefer 0x8000) true)
  = Some (set_Unreadable (Defer_load ExDefers.corrupted (newDefer 0x8040) true)
            (Some errSPDecreased))
  /\ exists c',
       readDefersStep ExDefers.corrupted ExDefers.corruptedCursor = inl c'
       /\ curdefer c' = Some (set_Unreadable (Defer_load ExDefers.corrupted (newDefer 0x8040) true)
                                (Some errSPDecreased))
       /\ idx c' = 0%nat
       /\ exists res fr',
            readDefersStep ExDefers.corrupted c' = inr res
            /\ res !! 0%nat = Some fr'
            /\ Defers fr'
               = [] ++ [Defer_load ExDefers.corrupted (newDefer 0x8000) true]
                    ++ [set_Unreadable (Defer_load ExDefers.corrupted (newDefer 0x8040) true)
                          (Some errSPDecreased)]
            /\ Unreadable (set_Unreadable (Defer_load ExDefers.corrupted (newDefer 0x8040) true)
                             (Some errSPDecreased)) = Some errSPDecreased.
Proof.
  apply (readDefers_SP_decreased ExDefers.corrupted ExDefers.corruptedCursor
           (Defer_load ExDefers.corrupted (newDefer 0x8000) true)
           (ExDefers.frameAt 0x1048)).
  - reflexivity.
  - reflexivity.
  - reflexivity.
  - reflexivity.
  - vm_compute. reflexivity.
  - vm_compute. discriminate.
  - vm_compute. reflexivity.
Defined.

(** C7 fails by one: the loop tests the length after appending, with [>], so
    a rangefunc list of more than eleven linked records is cut at eleven
    entries, not at [maxRangeFuncDefers = 10]. *)
Theorem Defer_load_rangefunc_eleven :
  length (rangefunc (Defer_load ExDefers.longList (newDefer 0x9000) true)) = 11%nat.
Proof. vm_compute. reflexivity. Qed.

(** The frame pointer 0x7010 of the example stack: below a CFA of 0x7020 the
    saved frame pointer is read from the stack, above a CFA of 0x7000 the
    register is passed on. *)
Lemma executeFrameRegRule_FramePointer_witness :
  executeFrameRegRule ExInline.bi arm64Linux ExInline.mem ExInline.it0 regnum.ARM64_BP
    (frame.mkDWRule frame.RuleFramePointer 0 regnum.ARM64_BP []) 0x7020
  = (Some (op.DwarfRegisterFromBytes (le_encode 8 0x7040)), None)
  /\ executeFrameRegRule ExInline.bi arm64Linux ExInline.mem ExInline.it0 regnum.ARM64_BP
       (frame.mkDWRule frame.RuleFramePointer 0 regnum.ARM64_BP []) 0x7000
     = (Some (op.DwarfRegisterFromUint64 0x7010), None).
Proof.
  split.
  - apply (proj1 (executeFrameRegRule_FramePointer ExInline.bi arm64Linux ExInline.mem
                    ExInline.it0 regnum.ARM64_BP regnum.ARM64_BP 0 0x7020 []
                    (op.DwarfRegisterFromUint64 0x7010) eq_refl)).
    vm_compute. discriminate.
  - apply (proj2 (executeFrameRegRule_FramePointer ExInline.bi arm64Linux ExInline.mem
                    ExInline.it0 regnum.ARM64_BP regnum.ARM64_BP 0 0x7000 []
                    (op.DwarfRegisterFromUint64 0x7010) eq_refl)).
    vm_compute. reflexivity.
Defined.

(** ** The frame advancer *)

Section AdvanceFacts.

Context (bi : BinaryInfo) (a : ArchCore) (mem : Memory).

(** The register loop changes nothing of the iterator but its error. *)
Lemma advanceRegsStep_it RA st entry :
  regs (as_it (advanceRegsStep bi a mem RA st entry)) = regs (as_it st)
  /\ frame_ (as_it (advanceRegsStep bi a mem RA st entry)) = frame_ (as_it st)
  /\ pc (as_it (advanceRegsStep bi a mem RA st entry)) = pc (as_it st).
Proof.
  unfold advanceRegsStep. destruct entry as [i regRule].
  destruct (executeFrameRegRule bi a mem (as_it st) i regRule (op.CFA (regs (as_it st))))
    as [[reg|] e].
  - destruct (bool_decide (i = RA)); [|auto].
    destruct (fnNamed (Fn (Call (frame_ (as_it st)))) "runtime.sigpanic" && usesLR a); [|auto].
    destruct (readInto mem (uint64 (op.CFA (regs (as_it st)))) 8) as [buf [e'|]]; auto.
  - destruct (bool_decide (i = RA)); [|auto]. destruct e; auto.
Qed.

Lemma advanceRegsLoop_it RA l : forall st,
  regs (as_it (foldl (advanceRegsStep bi a mem RA) st l)) = regs (as_it st)
  /\ frame_ (as_it (foldl (advanceRegsStep bi a mem RA) st l)) = frame_ (as_it st)
  /\ pc (as_it (foldl (advanceRegsStep bi a mem RA) st l)) = pc (as_it st).
Proof.
  induction l as [|e l IH]; intros st; cbn [foldl]; [auto|].
  destruct (IH (advanceRegsStep bi a mem RA st e)) as (H1 & H2 & H3).
  destruct (advanceRegsStep_it RA st e) as (G1 & G2 & G3).
  rewrite H1, H2, H3. auto.
Qed.

(** Rules of other registers leave [ret] alone. *)
Lemma advanceRegsLoop_ret_other RA l : forall st,
  RA ∉ l.*1 ->
  as_ret (foldl (advanceRegsStep bi a mem RA) st l) = as_ret st.
Proof.
  induction l as [|[i r] l IH]; intros st Hn; cbn [foldl]; [reflexivity|].
  rewrite IH by (intros H; apply Hn; simpl; right; exact H).
  unfold advanceRegsStep.
  destruct (executeFrameRegRule bi a mem (as_it st) i r (op.CFA (regs (as_it st)))) as [reg e].
  rewrite bool_decide_eq_false_2; [reflexivity|].
  intros ->. apply Hn. simpl. left.
Qed.

(** The value [ret] has after the register loop when the rule of the
    return-address register resolves behind a [runtime.sigpanic] frame on a
    link-register architecture: the word at the CFA. *)
Lemma advanceRegsLoop_sigpanic RA rule reg e buf l : forall st,
  NoDup l.*1 ->
  (RA, rule) ∈ l ->
  usesLR a = true ->
  fnNamed (Fn (Call (frame_ (as_it st)))) "runtime.sigpanic" = true ->
  executeFrameRegRule bi a mem (as_it st) RA rule (op.CFA (regs (as_it st))) = (Some reg, e) ->
  ReadMemory mem (uint64 (op.CFA (regs (as_it st)))) 8 = Some buf ->
  as_ret (foldl (advanceRegsStep bi a mem RA) st l) = le_decode buf.
Proof.
  induction l as [|[i r] l IH]; intros st Hnd Hin Hlr Hsig Hrule Hmem.
  - inversion Hin.
  - simpl in Hnd. apply NoDup_cons in Hnd. destruct Hnd as [Hni Hnd]. cbn [foldl].
    destruct (decide (i = RA)) as [->|Hne].
    + assert (r = rule) as ->.
      { apply elem_of_cons in Hin. destruct Hin as [Heq|Hin]; [congruence|].
        exfalso. apply Hni. apply list_elem_of_fmap. exists (RA, rule). split; [reflexivity|exact Hin]. }
      rewrite advanceRegsLoop_ret_other by exact Hni.
      unfold advanceRegsStep. rewrite Hrule.
      rewrite bool_decide_eq_true_2 by reflexivity.
      rewrite Hsig, Hlr. simpl. unfold readInto. rewrite Hmem. reflexivity.
    + apply elem_of_cons in Hin. destruct Hin as [Heq|Hin]; [congruence|].
      destruct (advanceRegsStep_it RA st (i, r)) as (G1 & G2 & _).
      apply IH; try assumption.
      * rewrite G2. exact Hsig.
      * rewrite G1. rewrite <- Hrule. apply executeFrameRegRule_regs. exact G1.
      * rewrite G1. exact Hmem.
Qed.

(** C1, amended.  On a link-register architecture, behind a frame whose
    function is [runtime.sigpanic], when the CFA rule and the rule of the
    return-address register resolve and the eight bytes at the CFA can be
    read, [advanceRegs] does not keep the value the rule resolved to: [ret] is
    the word at the CFA.  Only when that word is zero and the link register
    is present, the leaf-function fallback that follows replaces it by the
    link register's value. *)
Theorem advanceRegs_sigpanic_ret
    (it : stackIterator) (cfareg reg : op.DwarfRegister) (e0 e1 : option error)
    (rule : frame.DWRule) (buf : list byte) :
  let framectx := fixFrameUnwindContext a (FDEForPC bi (pc it)) (pc it) bi in
  let cfa := int64 (op.Uint64Val cfareg) in
  let it1 := set_regs it (op.set_CFA (regs it) cfa) in
  usesLR a = true ->
  fnNamed (Fn (Call (frame_ it))) "runtime.sigpanic" = true ->
  executeFrameRegRule bi a mem it 0 (frame.CFA framectx) 0 = (Some cfareg, e0) ->
  frame.Regs framectx !! frame.RetAddrReg framectx = Some rule ->
  executeFrameRegRule bi a mem it1 (frame.RetAddrReg framectx) rule cfa = (Some reg, e1) ->
  ReadMemory mem (uint64 cfa) 8 = Some buf ->
  snd (fst (advanceRegs bi a mem it))
  = if le_decode buf =? 0
    then match op.Reg (regs it) (op.LRRegNum (regs it)) with
         | Some lr => op.Uint64Val lr
         | None => le_decode buf
         end
    else le_decode buf.
Proof.
  intros framectx cfa it1 Hlr Hsig Hcfa Hra Hrule Hmem.
  unfold advanceRegs. fold framectx. rewrite Hcfa. fold cfa. fold it1.
  unfold advanceRegsLoop.
  set (st0 := mkAdvanceState it1 _ 0 0).
  set (l := map_to_list (frame.Regs framectx)).
  assert (Hret : as_ret (foldl (advanceRegsStep bi a mem (frame.RetAddrReg framectx)) st0 l)
                 = le_decode buf).
  { apply (advanceRegsLoop_sigpanic _ rule reg e1).
    - apply NoDup_fst_map_to_list.
    - apply elem_of_map_to_list. exact Hra.
    - exact Hlr.
    - exact Hsig.
    - exact Hrule.
    - exact Hmem. }
  destruct (advanceRegsLoop_it (frame.RetAddrReg framectx) l st0) as (H1 & _ & _).
  rewrite Hlr. cbn [fst snd]. rewrite H1, Hret.
  change (op.Reg (regs (as_it st0)) (op.LRRegNum (regs (as_it st0))))
    with (op.Reg (regs it) (op.LRRegNum (regs it))).
  destruct (op.Reg (regs it) (op.LRRegNum (regs it))) as [lr|];
    destruct (le_decode buf =? 0); reflexivity.
Qed.

End AdvanceFacts.

(** C1 (as stated) fails when the word at the CFA is zero: the return
    address is then taken from the link register after all. *)
Lemma advanceRegs_sigpanic_zero_counterexample :
  usesLR arm64Linux = true
  /\ fnNamed (Fn (Call (frame_ ExSigpanic.it))) "runtime.sigpanic" = true
  /\ ReadMemory (ExSigpanic.mem 0) 0x2010 8 = Some (le_encode 8 0)
  /\ op.Reg (regs ExSigpanic.it) regnum.ARM64_LR = Some (op.DwarfRegisterFromUint64 0x5000)
  /\ exists it' cfr retaddr,
       advanceRegs strippedBinary arm64Linux (ExSigpanic.mem 0) ExSigpanic.it
       = (it', cfr, 0x5000, retaddr)
       /\ op.CFA (regs it') = 0x2010 /\ err it' = None.
Proof.
  split; [reflexivity|]. split; [reflexivity|]. split; [reflexivity|].
  split; [reflexivity|].
  eexists _, _, _. split; [vm_compute; reflexivity|]. split; reflexivity.
Qed.

(** With the return address 0x400abc at the CFA 0x2010, that word is [ret],
    not the 0x400f00 the rule resolves to nor the link register's 0x5000. *)
Lemma advanceRegs_sigpanic_ret_witness :
  snd (fst (advanceRegs strippedBinary arm64Linux (ExSigpanic.mem 0x400abc) ExSigpanic.it))
  = 0x400abc.
Proof.
  apply (advanceRegs_sigpanic_ret strippedBinary arm64Linux (ExSigpanic.mem 0x400abc)
           ExSigpanic.it (op.DwarfRegisterFromUint64 0x2010)
           (op.DwarfRegisterFromBytes (le_encode 8 0x400f00)) None None
           (frame.mkDWRule frame.RuleOffset (-8) 0 []) (le_encode 8 0x400abc)).
  - reflexivity.
  - reflexivity.
  - vm_compute. reflexivity.
  - vm_compute. reflexivity.
  - vm_compute. reflexivity.
  - vm_compute. reflexivity.
Defined.

(** ** The stack iterator *)

Lemma hasOpt_lor_StacktraceG opts : hasOpt (Z.lor opts StacktraceG) StacktraceG = true.
Proof.
  unfold hasOpt. apply negb_true_iff, Z.eqb_neq.
  rewrite Z.land_lor_distr_l. intros H. apply Z.lor_eq_0_iff in H.
  destruct H as [_ H]. discriminate H.
Qed.

(** [switchToGoroutineStack] writes neither [atend] nor [err]. *)
Lemma switchToGoroutineStack_atend (a : ArchCore) (it itg : stackIterator) (e : option error) :
  switchToGoroutineStack a it = Ok (itg, e) ->
  atend itg = atend it /\ err itg = err it.
Proof.
  unfold switchToGoroutineStack.
  destruct (g it) as [gg|]; [|intros H; inversion H; auto].
  intros H. apply rbind_Ok in H. destruct H as (r & _ & H).
  destruct (usesLR a).
  - match type of H with
    | match ?x with _ => _ end = _ => destruct x
    end.
    + apply rbind_Ok in H. destruct H as (r2 & _ & H). inversion H; auto.
    + inversion H; auto.
  - inversion H; auto.
Qed.

Section IteratorFacts.

Context (bi : BinaryInfo) (a : Arch) (mem : Memory).

Lemma Next_stopped it :
  err it <> None \/ atend it = true -> Next bi a mem it = Ok (false, it).
Proof.
  intros H. unfold Next.
  destruct H as [H|H].
  - rewrite bool_decide_eq_true_2 by exact H. reflexivity.
  - rewrite H, orb_true_r. reflexivity.
Qed.

(** While the iterator is neither failed nor at the end, [Next] returns
    true whenever it returns. *)
Lemma Next_running it more it' :
  err it = None -> atend it = false ->
  Next bi a mem it = Ok (more, it') -> more = true.
Proof.
  intros He Ha. unfold Next. rewrite He, Ha.
  rewrite bool_decide_eq_false_2 by (intros H; apply H; reflexivity).
  cbn [orb].
  destruct (advanceRegs bi a mem it) as [[[it1 cfr] ret] retaddr].
  destruct (newStackframe bi mem it1 ret retaddr) as [it2 fr].
  destruct (sigtrampHop bi mem (set_frame it2 fr)) as [ith|]; [congruence|].
  destruct (if hasOpt (opts (set_frame it2 fr)) StacktraceSimple
            then Ok (false, set_frame it2 fr, cfr)
            else switchStack a bi mem (set_frame it2 fr) cfr) as [[[sw it4] cfr']| |];
    simpl; try discriminate.
  destruct sw; [congruence|].
  destruct (Ret (frame_ it4) <=? 0); congruence.
Qed.

(** C9, amended.  With maximum depth 0, when the first advance leaves no
    error, the result is what [appendInlineCalls] delivers for the first
    physical frame: the synthetic frames of the calls inlined at its PC,
    followed by the frame itself, and nothing else.  It is exactly one frame
    only when no call is inlined there. *)
Theorem stacktrace_depth_zero
    (it it1 it2 : stackIterator) (frames : list Stackframe) (more cont : bool) :
  err it = None ->
  atend it = false ->
  hasOpt (opts it) StacktraceG && bool_decide (g it ≠ None) = false ->
  Next bi a mem it = Ok (more, it1) ->
  err it1 = None ->
  appendInlineCalls bi (collect 0) (fst (Frame it1)) (snd (Frame it1)) [] = Ok (cont, it2, frames) ->
  stacktrace bi a mem it 0 = Ok (it2, frames, None)
  /\ exists synth phys,
       frames = synth ++ [phys]
       /\ Forall (fun f => Inlined f = true /\ sharesWith phys f) synth
       /\ sharesWith (snd (Frame it1)) phys
       /\ length frames = Datatypes.S (length synth).
Proof.
  intros He Ha Hg Hnext He1 Happ.
  assert (more = true) as -> by exact (Next_running it more it1 He Ha Hnext).
  pose proof (appendInlineCalls_collect bi 0 _ _ _ _ _ _ Happ) as Hc.
  destruct Hc as (synth & phys & Hf & Hall & Hsh & _ & _ & _ & _ & Hcont & [n Hit]).
  simpl in Hf.
  assert (cont = false) as ->.
  { rewrite Hcont, Hf, length_app. simpl. apply Z.ltb_ge. lia. }
  split.
  - unfold stacktrace. cbn [Z.ltb Z.compare]. unfold stacktraceFunc. rewrite Hg.
    change (Z.to_nat (0 + 1)) with 1%nat. cbn [nextLoop]. rewrite Hnext. simpl mbind.
    change (appendInlineCalls bi (collect 0)
              (set_frame it1 (set_Bottom (frame_ it1) (atend it1)))
              (set_Bottom (frame_ it1) (atend it1)) [] = Ok (false, it2, frames)) in Happ.
    rewrite Happ. simpl.
    assert (He2 : err it2 = None) by (rewrite Hit; exact He1).
    rewrite He2.
    rewrite bool_decide_eq_false_2 by (intros H; apply H; reflexivity).
    cbn [andb]. simpl. rewrite ?He2. reflexivity.
  - exists synth, phys. split; [exact Hf|]. split; [exact Hall|]. split; [exact Hsh|].
    rewrite Hf, length_app. simpl. lia.
Qed.

(** One turn of the frame loop. *)
Lemma nextLoop_S {St : Type} (cb : St -> Stackframe -> Result (bool * St))
    (fuel : nat) (it : stackIterator) (s : St) :
  nextLoop bi a mem cb (Datatypes.S fuel) it s
  = Next bi a mem it ≫= fun '(more, it) =>
      if (more : bool) then
        appendInlineCalls bi cb (fst (Frame it)) (snd (Frame it)) s ≫= fun '(cont, it, s) =>
          if (cont : bool) then nextLoop bi a mem cb fuel it s else Ok (it, s)
      else Ok (it, s).
Proof. reflexivity. Qed.

(** Without the [StacktraceG] option (or without a goroutine) the trace
    starts where the iterator is. *)
Lemma stacktraceFunc_plain {St : Type} (cb : St -> Stackframe -> Result (bool * St))
    (fuel : nat) (it : stackIterator) (s : St) :
  hasOpt (opts it) StacktraceG && bool_decide (g it ≠ None) = false ->
  stacktraceFunc bi a mem cb fuel it s = nextLoop bi a mem cb fuel it s.
Proof. intros H. unfold stacktraceFunc. rewrite H. reflexivity. Qed.

(** The frame loop of [stacktrace] when it delivers the frames of one more
    physical frame and the iterator is then at the end or failed. *)
Lemma nextLoop_last_frame depth fuel it itEnd frames cont it' frames' :
  Next bi a mem it = Ok (true, itEnd) ->
  err itEnd <> None \/ atend itEnd = true ->
  appendInlineCalls bi (collect depth) (fst (Frame itEnd)) (snd (Frame itEnd)) frames
  = Ok (cont, it', frames') ->
  cont = false \/ (1 <= fuel)%nat ->
  nextLoop bi a mem (collect depth) (Datatypes.S fuel) it frames = Ok (it', frames').
Proof.
  intros Hnext Hend Happ Hfuel.
  rewrite nextLoop_S, Hnext, bind_Ok. cbv beta iota.
  rewrite Happ, bind_Ok. cbv beta iota.
  destruct cont; [|reflexivity].
  destruct Hfuel as [Hc|Hf]; [discriminate|].
  destruct fuel as [|fuel]; [lia|].
  apply appendInlineCalls_collect in Happ.
  destruct Happ as (synth & phys & _ & _ & _ & _ & _ & _ & _ & _ & [n ->]).
  rewrite nextLoop_S, Next_stopped; [reflexivity|].
  exact Hend.
Qed.

(** C3, amended.  When [Next] reaches its return-address test (no signal
    trampoline hop, no stack switch) with [Ret = 0], it marks the end of the
    stack whether or not the advance left an error: the frame is delivered
    with [Bottom = true], the next call of [Next] returns false and the
    frame loop stops after this frame.  Without an error [stacktrace]
    appends no error frame.  With an error it appends the error frame,
    unless it starts again from the goroutine ([restarts]): the error is
    then cleared while [atend] stays, so the second pass delivers nothing
    and the trace is the frames of the first pass, followed by an error
    frame only when [switchToGoroutineStack] itself fails. *)
Theorem Next_ret_zero_ends
    (it it1 it2 it4 : stackIterator) (cfr cfr' : op.DwarfRegisters)
    (ret retaddr : Z) (fr : Stackframe) :
  err it = None ->
  atend it = false ->
  advanceRegs bi a mem it = (it1, cfr, ret, retaddr) ->
  newStackframe bi mem it1 ret retaddr = (it2, fr) ->
  sigtrampHop bi mem (set_frame it2 fr) = None ->
  (if hasOpt (opts (set_frame it2 fr)) StacktraceSimple
   then Ok (false, set_frame it2 fr, cfr)
   else switchStack a bi mem (set_frame it2 fr) cfr) = Ok (false, it4, cfr') ->
  Ret (frame_ it4) <= 0 ->
  let itEnd := set_atend it4 true in
  Next bi a mem it = Ok (true, itEnd)
  /\ Bottom (snd (Frame itEnd)) = true
  /\ Next bi a mem (fst (Frame itEnd)) = Ok (false, fst (Frame itEnd))
  /\ forall depth frames cont it' frames',
       appendInlineCalls bi (collect depth) (fst (Frame itEnd)) (snd (Frame itEnd)) frames
       = Ok (cont, it', frames') ->
       (exists synth phys, frames' = frames ++ synth ++ [phys] /\ Bottom phys = true)
       /\ err it' = err it4
       /\ (forall fuel,
             nextLoop bi a mem (collect depth) (Datatypes.S (Datatypes.S fuel)) it frames
             = Ok (it', frames'))
       /\ (frames = [] -> 0 <= depth ->
           hasOpt (opts it) StacktraceG && bool_decide (g it ≠ None) = false ->
           match err it4 with
           | None => stacktrace bi a mem it depth = Ok (it', frames', None)
           | Some e =>
               if restarts it' frames' then
                 stacktrace bi a mem it depth
                 = (switchToGoroutineStack a
                      (set_opts (set_err it' None) (Z.lor (opts it') StacktraceG))
                    ≫= fun '(itg, eg) =>
                      match eg with
                      | None => Ok (set_top itg true, frames', None)
                      | Some eg =>
                          Ok (set_err itg (Some eg), frames' ++ [errorFrame eg], None)
                      end)
               else stacktrace bi a mem it depth = Ok (it', frames' ++ [errorFrame e], None)
           end).
Proof.
  intros He Ha Hadv Hnew Hhop Hsw Hret itEnd.
  assert (Hnext : Next bi a mem it = Ok (true, itEnd)).
  { unfold Next. rewrite He, Ha.
    rewrite bool_decide_eq_false_2 by (intros H; apply H; reflexivity).
    cbn [orb]. rewrite Hadv, Hnew, Hhop, Hsw. simpl.
    apply Z.leb_le in Hret. rewrite Hret. reflexivity. }
  split; [exact Hnext|]. split; [reflexivity|].
  split; [apply Next_stopped; right; reflexivity|].
  intros depth frames cont it' frames' Happ.
  pose proof (appendInlineCalls_collect bi depth _ _ _ _ _ _ Happ) as Hc.
  destruct Hc as (synth & phys & Hf & _ & _ & Hb & _ & _ & _ & Hcont & [n Hit]).
  assert (He' : err it' = err it4) by (rewrite Hit; reflexivity).
  assert (Hat : atend it' = true) by (rewrite Hit; reflexivity).
  split; [exists synth, phys; split; [exact Hf | rewrite Hb; reflexivity]|].
  split; [exact He'|].
  split.
  { intros fuel. eapply nextLoop_last_frame;
      [exact Hnext | right; reflexivity | exact Happ |].
    right. lia. }
  intros Hnil Hdepth Hg. subst frames.
  assert (Hfuel : exists k, Z.to_nat (depth + 1) = Datatypes.S k
                            /\ (cont = false \/ (1 <= k)%nat)).
  { exists (Z.to_nat depth). split; [lia|].
    destruct cont; [right|left; reflexivity].
    symmetry in Hcont. apply Z.ltb_lt in Hcont.
    rewrite Hf, !length_app in Hcont. simpl in Hcont. lia. }
  destruct Hfuel as (k & Hk1 & Hk).
  assert (Hfirst : stacktraceFunc bi a mem (collect depth) (Z.to_nat (depth + 1)) it []
                   = Ok (it', frames')).
  { rewrite (stacktraceFunc_plain _ _ it [] Hg), Hk1.
    exact (nextLoop_last_frame depth k it itEnd [] cont it' frames' Hnext
             (or_intror eq_refl) Happ Hk). }
  assert (Hne : frames' <> []).
  { rewrite Hf. simpl. intros H. apply app_eq_nil in H. destruct H; discriminate. }
  assert (Hst : stacktrace bi a mem it depth
    = ((if restarts it' frames' then
          stacktraceFunc bi a mem (collect depth) (Z.to_nat (depth + 1))
            (set_opts (set_err it' None) (Z.lor (opts it') StacktraceG)) frames'
        else Ok (it', frames'))
       ≫= fun '(it, frames) =>
         match err it with
         | Some e =>
             match frames with
             | [] => Ok (it, [], Some e)
             | _ => Ok (it, frames ++ [errorFrame e], None)
             end
         | None => Ok (it, frames, None)
         end)).
  { unfold stacktrace.
    destruct (Z.ltb_spec depth 0) as [Hneg|_]; [lia|].
    rewrite Hfirst, bind_Ok. reflexivity. }
  rewrite Hst. clear Hst.
  destruct (err it4) as [e|] eqn:E4.
  - destruct (restarts it' frames') eqn:Er.
    + unfold stacktraceFunc.
      change (opts (set_opts (set_err it' None) (Z.lor (opts it') StacktraceG)))
        with (Z.lor (opts it') StacktraceG).
      rewrite hasOpt_lor_StacktraceG.
      change (g (set_opts (set_err it' None) (Z.lor (opts it') StacktraceG)))
        with (g it').
      assert (Hgg : bool_decide (g it' ≠ None) = true).
      { unfold restarts in Er. apply andb_prop in Er as [Er _].
        apply andb_prop in Er as [Er _]. apply andb_prop in Er as [_ Er]. exact Er. }
      rewrite Hgg. cbn [andb].
      destruct (switchToGoroutineStack a
                  (set_opts (set_err it' None) (Z.lor (opts it') StacktraceG)))
        as [[itg eg]| |] eqn:Esw; [|reflexivity|reflexivity].
      rewrite !bind_Ok. cbv beta iota.
      apply switchToGoroutineStack_atend in Esw. destruct Esw as [Hag Heg].
      destruct eg as [eg|].
      * rewrite bind_Ok. cbv beta iota. cbn [err set_err].
        destruct frames'; [congruence|reflexivity].
      * rewrite Hk1, nextLoop_S, Next_stopped.
        2: { right. cbn. rewrite Hag. cbn. exact Hat. }
        rewrite !bind_Ok. cbv beta iota.
        change (err (set_top itg true)) with (err itg). rewrite Heg. reflexivity.
    + rewrite bind_Ok. cbv beta iota. rewrite He'.
      destruct frames'; [congruence|reflexivity].
  - assert (Er : restarts it' frames' = false).
    { unfold restarts. rewrite He'.
      rewrite bool_decide_eq_false_2 by (intros H; apply H; reflexivity). reflexivity. }
    rewrite Er, bind_Ok. cbv beta iota. rewrite He'. reflexivity.
Qed.

End IteratorFacts.

(** C9 (as stated) fails when a call is inlined at the first PC: with
    depth 0 the trace of the "inlined call" scenario has two frames, the
    synthetic frame of [main.foo] and the frame of [main.bar]. *)
Lemma stacktrace_depth_zero_counterexample :
  exists it' f1 f2,
    stacktrace ExInline.bi arm64Linux ExInline.mem ExInline.it0 0 = Ok (it', [f1; f2], None)
    /\ Inlined f1 = true /\ hasInlines f2 = true.
Proof.
  eexists _, _, _. split; [vm_compute; reflexivity|]. split; reflexivity.
Qed.

(** The same stack without debug information: nothing is inlined, and depth
    0 gives one frame. *)
Lemma stacktrace_depth_zero_witness :
  exists it' f,
    stacktrace strippedBinary arm64Linux ExInline.mem ExInline.it0 0 = Ok (it', [f], None).
Proof.
  exists ExInline.strippedIt2, ExInline.strippedFrame.
  refine (proj1 (stacktrace_depth_zero strippedBinary arm64Linux ExInline.mem ExInline.it0
                   ExInline.strippedIt1 ExInline.strippedIt2 [ExInline.strippedFrame]
                   true false _ _ _ _ _ _)).
  - reflexivity.
  - reflexivity.
  - reflexivity.
  - vm_compute. reflexivity.
  - reflexivity.
  - vm_compute. reflexivity.
Defined.

(** C3 (as stated) fails when the return address is zero because it could
    not be read: the frame is delivered with [Bottom = true] and [Ret = 0],
    and the trace ends with an error frame. *)
Lemma stacktrace_ret_zero_error_counterexample :
  exists it' f0,
    stacktrace strippedBinary arm64Linux ExEnd.unmapped ExEnd.it0 5
    = Ok (it', [f0; errorFrame (ErrReadMemory 0x2008)], None)
    /\ Ret f0 = 0 /\ Bottom f0 = true.
Proof.
  eexists _, _. split; [vm_compute; reflexivity|]. split; reflexivity.
Qed.

(** The outermost frame of a thread: its frame record holds a zero return
    address, the trace is that one frame, marked [Bottom].  And a thread on
    the system stack whose frame record cannot be read, with a goroutine:
    [stacktrace] starts again, the second pass ends at once, and the trace
    is the one [Bottom] frame without an error frame. *)
Lemma Next_ret_zero_ends_witness :
  (stacktrace strippedBinary arm64Linux ExEnd.mem ExEnd.it0 5
   = Ok (ExEnd.itLast, [ExEnd.bottomFrame], None)
   /\ Bottom ExEnd.bottomFrame = true)
  /\ (err ExBottom.itFailed = Some (ErrReadMemory 0x2008)
      /\ stacktrace ExBottom.bi arm64Linux ExRestart.mem ExRestart.it0 5
         = Ok (ExBottom.itLast, [ExBottom.bottomFrame], None)
      /\ Bottom ExBottom.bottomFrame = true).
Proof.
  split.
  - assert (H := Next_ret_zero_ends strippedBinary arm64Linux ExEnd.mem
                   ExEnd.it0 ExEnd.it1 (fst ExEnd.built) ExEnd.it4 ExEnd.cfr ExEnd.cfr
                   0 0x2008 (snd ExEnd.built)
                   eq_refl eq_refl
                   ltac:(vm_compute; reflexivity) ltac:(vm_compute; reflexivity)
                   ltac:(vm_compute; reflexivity) ltac:(vm_compute; reflexivity)
                   ltac:(vm_compute; discriminate)).
    destruct H as (_ & _ & _ & H).
    destruct (H 5 [] true ExEnd.itLast [ExEnd.bottomFrame] ltac:(vm_compute; reflexivity))
      as (_ & _ & _ & Hst).
    split; [|reflexivity].
    exact (Hst eq_refl ltac:(lia) eq_refl).
  - assert (H := Next_ret_zero_ends ExBottom.bi arm64Linux ExRestart.mem
                   ExRestart.it0 ExBottom.it1 (fst ExBottom.built) ExBottom.it4
                   ExBottom.cfr ExBottom.cfr
                   0 0x2008 (snd ExBottom.built)
                   eq_refl eq_refl
                   ltac:(vm_compute; reflexivity) ltac:(vm_compute; reflexivity)
                   ltac:(vm_compute; reflexivity) ltac:(vm_compute; reflexivity)
                   ltac:(vm_compute; discriminate)).
    destruct H as (_ & _ & _ & H).
    destruct (H 5 [] true ExBottom.itFailed [ExBottom.bottomFrame]
                ltac:(vm_compute; reflexivity))
      as (_ & _ & _ & Hst).
    split; [reflexivity|]. split; [|reflexivity].
    refine (eq_trans (Hst eq_refl ltac:(lia) eq_refl) _).
    vm_compute. reflexivity.
Defined.

(** ** The restart from the goroutine's registers *)

Section RestartFacts.

Context (bi : BinaryInfo) (a : Arch) (mem : Memory).

(** The collecting callback only ever appends. *)
Lemma nextLoop_collect_prefix depth fuel : forall it frames it' frames',
  nextLoop bi a mem (collect depth) fuel it frames = Ok (it', frames') ->
  exists more, frames' = frames ++ more.
Proof.
  induction fuel as [|fuel IH]; intros it frames it' frames' H; [discriminate|].
  rewrite nextLoop_S in H.
  apply rbind_Ok in H. destruct H as ([more it1] & _ & H).
  destruct more.
  - apply rbind_Ok in H. destruct H as ([[cont it2] frames2] & Happ & H).
    apply appendInlineCalls_collect in Happ.
    destruct Happ as (synth & phys & Hf & _).
    destruct cont.
    + apply IH in H. destruct H as [more ->]. rewrite Hf.
      exists ((synth ++ [phys]) ++ more). rewrite !app_assoc. reflexivity.
    + inversion H; subst. eexists. reflexivity.
  - inversion H; subst. exists []. rewrite app_nil_r. reflexivity.
Qed.

(** What [switchToGoroutineStack] leaves when it succeeds. *)
Lemma switchToGoroutineStack_ok it itg gg :
  g it = Some gg ->
  switchToGoroutineStack a it = Ok (itg, None) ->
  pc itg = G.PC gg /\ systemstack itg = false /\ top itg = false
  /\ err itg = err it /\ opts itg = opts it /\ g itg = g it
  /\ op.BPRegNum (regs itg) = op.BPRegNum (regs it)
  /\ op.SPRegNum (regs itg) = op.SPRegNum (regs it)
  /\ (op.SPRegNum (regs it) <> op.BPRegNum (regs it) ->
      op.SPRegNum (regs it) <> op.LRRegNum (regs it) ->
      op.SP (regs itg) = G.SP gg)
  /\ (op.BPRegNum (regs it) <> op.LRRegNum (regs it) ->
      op.BP (regs itg) = G.BP gg).
Proof.
  intros Hg Hsw. unfold switchToGoroutineStack in Hsw. rewrite Hg in Hsw.
  apply rbind_Ok in Hsw. destruct Hsw as (r & Hr & Hsw).
  unfold op.setUint64Val in Hr.
  change (regs (set_pc (set_top (set_systemstack it false) false) (G.PC gg)))
    with (regs it) in Hr.
  destruct (op.Reg (regs it) (op.SPRegNum (regs it))) as [sp|] eqn:Esp; [|discriminate].
  inversion Hr; subst r; clear Hr.
  destruct (usesLR a).
  - match type of Hsw with
    | match ?x with _ => _ end = _ => destruct x as [lr|] eqn:Elr; [|discriminate]
    end.
    apply rbind_Ok in Hsw. destruct Hsw as (r2 & Hr2 & Hsw).
    unfold op.setUint64Val in Hr2. rewrite Elr in Hr2.
    inversion Hr2; subst r2; clear Hr2. inversion Hsw; subst itg; clear Hsw.
    cbn. repeat split.
    + intros Hsb Hsl. unfold op.SP, op.Uint64Val_at, op.Reg. cbn.
      rewrite lookup_insert_ne by congruence.
      rewrite lookup_insert_ne by congruence.
      rewrite lookup_insert_eq. reflexivity.
    + intros Hbl. unfold op.BP, op.Uint64Val_at, op.Reg. cbn.
      rewrite lookup_insert_ne by congruence.
      rewrite lookup_insert_eq. reflexivity.
  - inversion Hsw; subst itg; clear Hsw. cbn. repeat split.
    + intros Hsb Hsl. unfold op.SP, op.Uint64Val_at, op.Reg. cbn.
      rewrite lookup_insert_ne by congruence.
      rewrite lookup_insert_eq. reflexivity.
    + intros Hbl. unfold op.BP, op.Uint64Val_at, op.Reg. cbn.
      rewrite lookup_insert_eq. reflexivity.
Qed.

(** The second pass of [stacktrace]. *)
Lemma stacktrace_second_pass
    (it it1 itg it2 : stackIterator) (depth : Z) (f0 : Stackframe) (e : error)
    (gg : G.t) (frames2 : list Stackframe) :
  0 <= depth ->
  stacktraceFunc bi a mem (collect depth) (Z.to_nat (depth + 1)) it [] = Ok (it1, [f0]) ->
  err it1 = Some e ->
  g it1 = Some gg ->
  SystemStack f0 = true ->
  hasOpt (opts it1) StacktraceSimple = false ->
  switchToGoroutineStack a (set_opts (set_err it1 None) (Z.lor (opts it1) StacktraceG))
  = Ok (itg, None) ->
  nextLoop bi a mem (collect depth) (Z.to_nat (depth + 1)) (set_top itg true) [f0]
  = Ok (it2, frames2) ->
  stacktrace bi a mem it depth
  = Ok (it2,
        frames2 ++ match err it2 with
                   | Some e2 => [errorFrame e2]
                   | None => []
                   end,
        None).
Proof.
  intros Hdepth Hfirst He Hg Hsys Hsimple Hsw Hloop.
  unfold stacktrace.
  destruct (Z.ltb_spec depth 0) as [Hneg|_]; [lia|].
  rewrite Hfirst, bind_Ok. cbv beta iota.
  rewrite He, Hg, Hsys, Hsimple.
  rewrite !bool_decide_eq_true_2 by discriminate.
  cbn [andb negb length Nat.eqb].
  unfold stacktraceFunc.
  change (opts (set_opts (set_err it1 None)
                  (Z.lor (opts (set_err it1 None)) StacktraceG)))
    with (Z.lor (opts it1) StacktraceG).
  rewrite hasOpt_lor_StacktraceG.
  change (g (set_opts (set_err it1 None) (Z.lor (opts (set_err it1 None)) StacktraceG)))
    with (g it1).
  rewrite Hg, bool_decide_eq_true_2 by discriminate.
  cbn [andb].
  change (set_opts (set_err it1 None) (Z.lor (opts (set_err it1 None)) StacktraceG))
    with (set_opts (set_err it1 None) (Z.lor (opts it1) StacktraceG)).
  rewrite Hsw, bind_Ok. cbv beta iota.
  rewrite Hloop, bind_Ok. cbv beta iota.
  apply nextLoop_collect_prefix in Hloop. destruct Hloop as [more ->].
  destruct (err it2); [|rewrite app_nil_r; reflexivity].
  reflexivity.
Qed.

End RestartFacts.

Lemma setUint64Val_Some r i v reg :
  op.Reg r i = Some reg ->
  op.setUint64Val r i v
  = Ok (op.set_regs r (<[i := op.mkDwarfRegister v (op.Bytes reg)]> (op.regs r))).
Proof. intros H. unfold op.setUint64Val. rewrite H. reflexivity. Qed.

(** [switchToGoroutineStack] touches neither the frame, the options nor
    the error of the iterator. *)
Lemma switchToGoroutineStack_result (a : ArchCore) (it : stackIterator) :
  switchToGoroutineStack a it = Panic
  \/ exists itg e, switchToGoroutineStack a it = Ok (itg, e)
                   /\ frame_ itg = frame_ it /\ opts itg = opts it /\ err itg = err it.
Proof.
  unfold switchToGoroutineStack.
  destruct (g it) as [gg|]; [|right; eexists _, _; split; [reflexivity|auto]].
  change (regs (set_pc (set_top (set_systemstack it false) false) (G.PC gg)))
    with (regs it).
  destruct (op.Reg (regs it) (op.SPRegNum (regs it))) as [sp|] eqn:Esp.
  2: { left. unfold op.setUint64Val. rewrite Esp. reflexivity. }
  rewrite (setUint64Val_Some _ _ _ _ Esp), bind_Ok.
  destruct (usesLR a); [|right; eexists _, _; split; [reflexivity|auto]].
  match goal with
  | |- context [match op.Reg ?r ?i with _ => _ end] =>
      destruct (op.Reg r i) as [lr|] eqn:Elr
  end; [|right; eexists _, _; split; [reflexivity|auto]].
  rewrite (setUint64Val_Some _ _ _ _ Elr), bind_Ok.
  right. eexists _, _. split; [reflexivity|auto].
Qed.

Section ARM64Restart.

Context (linux : bool) (crosscall2SPOffsetBad crosscall2SPOffset : Z).
Context (bi : BinaryInfo) (mem : Memory).

Let arch : Arch := ARM64Arch linux crosscall2SPOffsetBad crosscall2SPOffset.

(** On arm64, when the CFA rule of the frame yields nothing, [Next] delivers
    the zero [Stackframe] and leaves an error in the iterator. *)
Lemma Next_CFA_undefined it e :
  err it = None ->
  atend it = false ->
  executeFrameRegRule bi arch mem it 0
    (frame.CFA (fixFrameUnwindContext arch (FDEForPC bi (pc it)) (pc it) bi)) 0 = (None, e) ->
  Next bi arch mem it = Panic
  \/ exists it', Next bi arch mem it = Ok (true, it')
                 /\ frame_ it' = zeroStackframe /\ err it' <> None
                 /\ opts it' = opts it.
Proof.
  intros He Ha Hcfa. unfold Next. rewrite He, Ha.
  rewrite bool_decide_eq_false_2 by (intros H; apply H; reflexivity).
  cbn [orb]. unfold advanceRegs. rewrite Hcfa.
  unfold newStackframe. cbn [Z.eqb].
  set (it3 := set_frame _ zeroStackframe).
  assert (Hhop : sigtrampHop bi mem it3 = None) by reflexivity.
  rewrite Hhop.
  change (opts it3) with (opts it).
  destruct (hasOpt (opts it) StacktraceSimple).
  { right. eexists. split; [reflexivity|]. repeat split. discriminate. }
  change (switchStack arch bi mem it3 op.zero)
    with (if systemstack it && bool_decide (g it ≠ None) && top it
          then switchOrFail crosscall2SPOffsetBad crosscall2SPOffset it3 op.zero
          else Ok (false, it3, op.zero)).
  destruct (systemstack it && bool_decide (g it ≠ None) && top it).
  2: { right. eexists. split; [reflexivity|]. repeat split. discriminate. }
  unfold switchOrFail.
  destruct (switchToGoroutineStack_result
              (arm64Core crosscall2SPOffsetBad crosscall2SPOffset) it3)
    as [Hp|(itg & e' & Hsw & Hf & Ho & Herr)].
  { left. rewrite Hp. reflexivity. }
  rewrite Hsw, bind_Ok. cbv beta iota. right.
  destruct e' as [e'|].
  - rewrite bind_Ok. cbv beta iota.
    change (Ret (frame_ (set_err itg (Some e')))) with (Ret (frame_ itg)).
    rewrite Hf. eexists. split; [reflexivity|]. repeat split; [exact Hf | discriminate | exact Ho].
  - rewrite bind_Ok. cbv beta iota.
    eexists. split; [reflexivity|]. repeat split; [exact Hf | | exact Ho].
    rewrite Herr. discriminate.
Qed.

(** The trace that follows: the zero frame, then the error frame; the
    iterator's options are as they were. *)
Lemma stacktrace_CFA_undefined it e depth :
  0 <= depth ->
  err it = None ->
  atend it = false ->
  hasOpt (opts it) StacktraceG && bool_decide (g it ≠ None) = false ->
  executeFrameRegRule bi arch mem it 0
    (frame.CFA (fixFrameUnwindContext arch (FDEForPC bi (pc it)) (pc it) bi)) 0 = (None, e) ->
  stacktrace bi arch mem it depth = Panic
  \/ exists it' b e',
       stacktrace bi arch mem it depth
       = Ok (it', [set_Bottom zeroStackframe b; errorFrame e'], None)
       /\ opts it' = opts it.
Proof.
  intros Hdepth He Ha Hg Hcfa.
  unfold stacktrace.
  destruct (Z.ltb_spec depth 0) as [Hneg|_]; [lia|].
  rewrite (stacktraceFunc_plain bi arch mem _ _ it [] Hg).
  assert (Hfuel : Z.to_nat (depth + 1) = Datatypes.S (Z.to_nat depth)) by lia.
  rewrite Hfuel.
  destruct (Next_CFA_undefined it e He Ha Hcfa) as [Hp|(it1 & Hnext & Hf & Herr & Ho)].
  { left. rewrite nextLoop_S, Hp. reflexivity. }
  right.
  assert (Happ : appendInlineCalls bi (collect depth) (fst (Frame it1)) (snd (Frame it1)) []
                 = Ok (1 <? depth + 1, incCount (fst (Frame it1)),
                       [set_Bottom zeroStackframe (atend it1)])).
  { unfold appendInlineCalls.
    change (Fn (Call (snd (Frame it1)))) with (Fn (Call (frame_ it1))).
    change (snd (Frame it1)) with (set_Bottom (frame_ it1) (atend it1)).
    rewrite Hf. reflexivity. }
  assert (Hloop : nextLoop bi arch mem (collect depth) (Datatypes.S (Z.to_nat depth)) it []
                  = Ok (incCount (fst (Frame it1)), [set_Bottom zeroStackframe (atend it1)])).
  { eapply nextLoop_last_frame; [exact Hnext | left; exact Herr | exact Happ |].
    destruct (Z.ltb_spec 1 (depth + 1)); [right; lia | left; reflexivity]. }
  rewrite Hloop, bind_Ok. cbv beta iota.
  change (SystemStack (set_Bottom zeroStackframe (atend it1))) with false.
  rewrite andb_false_r. cbn [andb]. rewrite bind_Ok. cbv beta iota.
  change (err (incCount (fst (Frame it1)))) with (err it1).
  destruct (err it1) as [e'|]; [|congruence].
  exists (incCount (fst (Frame it1))), (atend it1), e'. split; [reflexivity|].
  exact Ho.
Qed.

End ARM64Restart.

(** C10, amended.  [stacktrace] runs its frame loop a second time, and at
    most a second time, when the first pass has left an error in the
    iterator after delivering exactly one frame, that frame is flagged
    [SystemStack], a goroutine is available and simple tracing is off: the
    error is cleared, [StacktraceG] is set, and the second pass starts from
    the PC, SP and BP saved in the goroutine.  A CFA that is undefined on
    the first frame does not lead there: on arm64 the only frame delivered
    is then the zero [Stackframe], whose [SystemStack] flag is false, and the
    trace is that frame followed by the error frame. *)
Theorem stacktrace_restart :
  (forall (bi : BinaryInfo) (a : Arch) (mem : Memory)
          (it it1 itg it2 : stackIterator) (depth : Z) (f0 : Stackframe) (e : error)
          (gg : G.t) (frames2 : list Stackframe),
      0 <= depth ->
      stacktraceFunc bi a mem (collect depth) (Z.to_nat (depth + 1)) it [] = Ok (it1, [f0]) ->
      err it1 = Some e ->
      g it1 = Some gg ->
      SystemStack f0 = true ->
      hasOpt (opts it1) StacktraceSimple = false ->
      switchToGoroutineStack a (set_opts (set_err it1 None) (Z.lor (opts it1) StacktraceG))
      = Ok (itg, None) ->
      nextLoop bi a mem (collect depth) (Z.to_nat (depth + 1)) (set_top itg true) [f0]
      = Ok (it2, frames2) ->
      stacktrace bi a mem it depth
      = Ok (it2,
            frames2 ++ match err it2 with
                       | Some e2 => [errorFrame e2]
                       | None => []
                       end,
            None)
      /\ pc itg = G.PC gg /\ systemstack itg = false /\ err itg = None
      /\ hasOpt (opts itg) StacktraceG = true
      /\ (op.SPRegNum (regs it1) <> op.BPRegNum (regs it1) ->
          op.SPRegNum (regs it1) <> op.LRRegNum (regs it1) ->
          op.SP (regs itg) = G.SP gg)
      /\ (op.BPRegNum (regs it1) <> op.LRRegNum (regs it1) ->
          op.BP (regs itg) = G.BP gg))
  /\ (forall (linux : bool) (crosscall2SPOffsetBad crosscall2SPOffset : Z)
             (bi : BinaryInfo) (mem : Memory) (it : stackIterator)
             (e : option error) (depth : Z),
        let arch := ARM64Arch linux crosscall2SPOffsetBad crosscall2SPOffset in
        0 <= depth ->
        err it = None ->
        atend it = false ->
        hasOpt (opts it) StacktraceG && bool_decide (g it ≠ None) = false ->
        executeFrameRegRule bi arch mem it 0
          (frame.CFA (fixFrameUnwindContext arch (FDEForPC bi (pc it)) (pc it) bi)) 0
        = (None, e) ->
        stacktrace bi arch mem it depth = Panic
        \/ exists it' b e',
             stacktrace bi arch mem it depth
             = Ok (it', [set_Bottom zeroStackframe b; errorFrame e'], None)
             /\ opts it' = opts it).
Proof.
  split.
  - intros bi a mem it it1 itg it2 depth f0 e gg frames2
           Hdepth Hfirst He Hg Hsys Hsimple Hsw Hloop.
    split.
    { eapply stacktrace_second_pass; eassumption. }
    destruct (switchToGoroutineStack_ok a
                (set_opts (set_err it1 None) (Z.lor (opts it1) StacktraceG)) itg gg Hg Hsw)
      as (Hpc & Hss & _ & Herr & Ho & _ & _ & _ & Hsp & Hbp).
    split; [exact Hpc|]. split; [exact Hss|]. split; [exact Herr|].
    split; [rewrite Ho; apply hasOpt_lor_StacktraceG|].
    split; [exact Hsp | exact Hbp].
  - intros linux c1 c2 bi mem it e depth arch. apply stacktrace_CFA_undefined.
Qed.

(** C10 (as stated) fails: with a goroutine at hand and simple tracing off,
    a CFA that is undefined on the very first frame gives the zero frame and
    an error frame, and no frame of the goroutine. *)
Lemma stacktrace_CFA_undefined_counterexample :
  g ExRestart.it0 = Some ExRestart.gor
  /\ hasOpt (opts ExRestart.it0) StacktraceSimple = false
  /\ executeFrameRegRule ExRestart.noCFA arm64Linux ExRestart.mem ExRestart.it0 0
       (frame.CFA (fixFrameUnwindContext arm64Linux
                     (FDEForPC ExRestart.noCFA (pc ExRestart.it0)) (pc ExRestart.it0)
                     ExRestart.noCFA)) 0
     = (None, None)
  /\ exists it',
       stacktrace ExRestart.noCFA arm64Linux ExRestart.mem ExRestart.it0 5
       = Ok (it', [zeroStackframe; errorFrame NullAddrError], None)
       /\ hasOpt (opts it') StacktraceG = false.
Proof.
  split; [reflexivity|]. split; [reflexivity|]. split; [vm_compute; reflexivity|].
  eexists. split; [vm_compute; reflexivity|]. reflexivity.
Qed.

(** The first frame of a thread on the system stack cannot be left because
    its frame record is unreadable: the trace goes on with the goroutine's
    frames at 0x402000 and 0x400f00.  With an undefined CFA instead, the
    trace is the zero frame and the error frame. *)
Lemma stacktrace_restart_witness :
  (stacktrace strippedBinary arm64Linux ExRestart.mem ExRestart.it0 5
   = Ok (fst ExRestart.secondPass,
         snd ExRestart.secondPass
           ++ match err (fst ExRestart.secondPass) with
              | Some e2 => [errorFrame e2]
              | None => []
              end,
         None)
   /\ pc ExRestart.itg = G.PC ExRestart.gor
   /\ systemstack ExRestart.itg = false
   /\ err ExRestart.itg = None
   /\ hasOpt (opts ExRestart.itg) StacktraceG = true
   /\ (op.SPRegNum (regs ExRestart.it1) <> op.BPRegNum (regs ExRestart.it1) ->
       op.SPRegNum (regs ExRestart.it1) <> op.LRRegNum (regs ExRestart.it1) ->
       op.SP (regs ExRestart.itg) = G.SP ExRestart.gor)
   /\ (op.BPRegNum (regs ExRestart.it1) <> op.LRRegNum (regs ExRestart.it1) ->
       op.BP (regs ExRestart.itg) = G.BP ExRestart.gor))
  /\ (stacktrace ExRestart.noCFA arm64Linux ExRestart.mem ExRestart.it0 5 = Panic
      \/ exists it' b e',
           stacktrace ExRestart.noCFA arm64Linux ExRestart.mem ExRestart.it0 5
           = Ok (it', [set_Bottom zeroStackframe b; errorFrame e'], None)
           /\ opts it' = opts ExRestart.it0).
Proof.
  split.
  - refine (proj1 stacktrace_restart strippedBinary arm64Linux ExRestart.mem
              ExRestart.it0 ExRestart.it1 ExRestart.itg (fst ExRestart.secondPass) 5
              ExRestart.f0 (ErrReadMemory 0x2008) ExRestart.gor (snd ExRestart.secondPass)
              _ _ _ _ _ _ _ _).
    + lia.
    + vm_compute. reflexivity.
    + reflexivity.
    + reflexivity.
    + reflexivity.
    + reflexivity.
    + vm_compute. reflexivity.
    + vm_compute. reflexivity.
  - refine (proj2 stacktrace_restart true 8 88 ExRestart.noCFA ExRestart.mem
              ExRestart.it0 None 5 _ _ _ _ _).
    + lia.
    + reflexivity.
    + reflexivity.
    + reflexivity.
    + vm_compute. reflexivity.
Defined.

(** ** Range-over-func reconstruction *)

Section CallbackInvariant.

Context (bi : BinaryInfo) (a : Arch) (mem : Memory).
Context {St : Type} (cb : St -> Stackframe -> Result (bool * St)) (P : St -> Prop).
Hypothesis cb_preserves : forall s fr b s', P s -> cb s fr = Ok (b, s') -> P s'.

(** The frame loop changes the state of the callback through the callback
    only. *)
Lemma inlineLoop_preserves callfn entries : forall it frame s it' frame' s',
  P s -> inlineLoop bi cb callfn entries it frame s = Ok (it', frame', s') -> P s'.
Proof.
  induction entries as [|entry rest IH]; intros it frame s it' frame' s' HP H.
  - simpl in H. inversion H; subst. exact HP.
  - simpl in H.
    destruct (dwarf.AttrName entry) as [fnname|];
      [destruct (dwarf.AttrCallFile entry) as [fileidx|];
       [destruct (dwarf.AttrCallLine entry) as [line|]|]|].
    2-4: inversion H; subst; exact HP.
    change (Fn (Current (set_hasInlines frame true))) with (Fn (Current frame)) in H.
    destruct (Fn (Current frame)) as [curfn|]; [|discriminate].
    destruct (filePath bi curfn fileidx) as [filepath|e].
    + apply rbind_Ok in H. destruct H as ([b s1] & Hcb & H).
      eapply IH; [|exact H]. eapply cb_preserves; eassumption.
    + inversion H; subst. exact HP.
Qed.

Lemma appendInlineCalls_preserves it frame s more it' s' :
  P s -> appendInlineCalls bi cb it frame s = Ok (more, it', s') -> P s'.
Proof.
  intros HP H. unfold appendInlineCalls in H.
  assert (Hdeliver : forall it0 fr0 s0,
    P s0 ->
    (let it1 := incCount it0 in cb s0 fr0 ≫= (fun '(more0, s) => Ok (more0, it1, s)))
    = Ok (more, it', s') -> P s').
  { intros it0 fr0 s0 HP0 Hd. cbv zeta in Hd.
    apply rbind_Ok in Hd. destruct Hd as ([b s1] & Hcb & Hd).
    inversion Hd; subst. eapply cb_preserves; eassumption. }
  destruct (Fn (Call frame)) as [callfn|]; [|eapply Hdeliver; eassumption].
  destruct (negb (lineInfo (cu callfn))); [eapply Hdeliver; eassumption|].
  destruct (negb (getDwarfTree bi callfn)); [eapply Hdeliver; eassumption|].
  apply rbind_Ok in H. destruct H as ([[it1 frame1] s1] & Hloop & Hd).
  eapply Hdeliver; [|exact Hd]. eapply inlineLoop_preserves; eassumption.
Qed.

Lemma nextLoop_preserves fuel : forall it s it' s',
  P s -> nextLoop bi a mem cb fuel it s = Ok (it', s') -> P s'.
Proof.
  induction fuel as [|fuel IH]; intros it s it' s' HP H; [discriminate|].
  rewrite nextLoop_S in H.
  apply rbind_Ok in H. destruct H as ([more it1] & _ & H).
  destruct more; [|inversion H; subst; exact HP].
  apply rbind_Ok in H. destruct H as ([[cont it2] s2] & Happ & H).
  assert (HP2 : P s2) by (eapply appendInlineCalls_preserves; eassumption).
  destruct cont; [eapply IH; eassumption | inversion H; subst; exact HP2].
Qed.

Lemma stacktraceFunc_preserves fuel it s it' s' :
  P s -> stacktraceFunc bi a mem cb fuel it s = Ok (it', s') -> P s'.
Proof.
  intros HP H. unfold stacktraceFunc in H.
  destruct (hasOpt (opts it) StacktraceG && bool_decide (g it ≠ None)).
  - apply rbind_Ok in H. destruct H as ([itg e] & _ & H).
    destruct e; [inversion H; subst; exact HP|].
    eapply nextLoop_preserves; eassumption.
  - eapply nextLoop_preserves; eassumption.
Qed.

End CallbackInvariant.

Section RangeFacts.

Context (bi : BinaryInfo) (a : Arch) (mem : Memory) (readDefer : Z -> rawDefer).

Lemma length_snoc_odd {A : Type} (l : list A) (x : A) :
  Nat.odd (length (l ++ [x])) = negb (Nat.odd (length l)).
Proof.
  rewrite length_app, Nat.add_1_r, Nat.odd_succ, <- Nat.negb_odd. reflexivity.
Qed.

Lemma length_snoc_even {A : Type} (l : list A) (x : A) :
  Nat.even (length (l ++ [x])) = Nat.odd (length l).
Proof. rewrite length_app, Nat.add_1_r, Nat.even_succ. reflexivity. Qed.

Ltac range_case :=
  match goal with
  | H : Ok _ = Ok _ |- _ => inversion H; subst; clear H
  | H : Panic = Ok _ |- _ => discriminate H
  | H : (_ ≫= _) = Ok _ |- _ =>
      let x := fresh "x" in let Hx := fresh "Hx" in
      apply rbind_Ok in H; destruct H as (x & Hx & H)
  | H : (if ?b then _ else _) = Ok _ |- _ => destruct b eqn:?
  | H : match ?x with _ => _ end = Ok _ |- _ => destruct x eqn:?
  end.

Ltac range_parity :=
  cbn [rangeInv rs_stage rs_frames addRetFrame appendFrame push set_stage abandon
       fst snd length Nat.even Nat.odd] in *;
  rewrite ?length_snoc_odd, ?length_snoc_even in *;
  repeat match goal with
         | H : _ /\ _ |- _ => destruct H
         | H : true = Nat.odd _ |- _ => symmetry in H
         | H : false = Nat.odd _ |- _ => symmetry in H
         end;
  try match goal with
      | H : Nat.odd ?n = _ |- _ => rewrite ?H
      end;
  try (split; reflexivity); try reflexivity; try congruence; auto.

Lemma rangeCallback_inv st fr b st' :
  rangeInv st -> rangeCallback bi st fr = Ok (b, st') -> rangeInv st'.
Proof.
  intros Hinv H. unfold rangeCallback in H.
  destruct st as [frames stg ar rp nm cp].
  cbn [rs_frames rs_stage addRetFrame rs_rangeParent nonMonotonicSP rs_closurePtr] in H.
  match type of H with
  | (if ?c then _ else _) = _ => destruct c
  end.
  { inversion H; subst. exact Hinv. }
  unfold rangeInv in Hinv.
  cbn [rs_frames rs_stage addRetFrame] in Hinv.
  destruct stg; destruct ar;
    cbn [rs_frames rs_stage addRetFrame rs_rangeParent nonMonotonicSP rs_closurePtr] in H;
    try match type of Hinv with
        | _ /\ _ => destruct Hinv as [_ Hx]; discriminate Hx
        end.
  - (* startStage *)
    destruct Hinv as [-> _].
    destruct (Fn (Call fr)) as [fn|].
    + cbn in H. repeat range_case; unfold rangeInv; range_parity.
    + cbn in H. repeat range_case; unfold rangeInv; range_parity.
  - (* normalStage, a return frame is due *)
    destruct (Fn (Call fr)) as [fn|].
    + cbn [rs_stage rs_rangeParent] in H. destruct rp as [parent|]; [|discriminate].
      repeat range_case; unfold rangeInv; range_parity.
    + cbn in H. repeat range_case; unfold rangeInv; range_parity.
  - (* normalStage *)
    destruct (Fn (Call fr)) as [fn|].
    + cbn [rs_stage rs_rangeParent] in H. destruct rp as [parent|]; [|discriminate].
      repeat range_case; unfold rangeInv; range_parity.
    + cbn in H. repeat range_case; unfold rangeInv; range_parity.
  - (* lastFrameStage *)
    destruct (Fn (Call fr)) as [fn|]; cbn in H;
      repeat range_case; unfold rangeInv; range_parity.
  - (* doneStage *)
    destruct (Fn (Call fr)) as [fn|]; cbn in H;
      repeat range_case; unfold rangeInv; range_parity.
Qed.

(** [readDefers] writes into the frames it is given, it adds none. *)
Lemma readDefersLoop_length fuel : forall c frames,
  readDefersLoop readDefer fuel c = Ok frames -> length frames = length (dc_frames c).
Proof.
  induction fuel as [|fuel IH]; intros c frames H; [discriminate|].
  simpl in H. destruct (readDefersStep readDefer c) as [c'|res] eqn:Estep.
  - apply IH in H. rewrite H.
    apply readDefersStep_inl in Estep.
    destruct Estep as (d & fr & _ & _ & _ & _ & [[_ ->]|[_ ->]]);
      cbn [dc_frames]; apply length_insert.
  - inversion H; subst res. unfold readDefersStep in Estep.
    destruct (curdefer c) as [d|]; [|inversion Estep; reflexivity].
    destruct (dc_frames c !! idx c) as [fr|]; [|inversion Estep; reflexivity].
    destruct (bool_decide (Unreadable d ≠ None)).
    + inversion Estep. apply length_insert.
    + destruct (bool_decide (Err fr ≠ None)); [inversion Estep; reflexivity|].
      destruct (skipsFrame d _); discriminate.
Qed.

(** The state of the callback when the frame loop of [rangeFuncStackTrace]
    returns. *)
Lemma rangeFunc_collected fuel it0 it st :
  stacktraceFunc bi a mem (rangeCallback bi) fuel it0 initialRangeState = Ok (it, st) ->
  rangeInv st.
Proof.
  apply (stacktraceFunc_preserves bi a mem (rangeCallback bi) rangeInv).
  - intros s fr b s'. apply rangeCallback_inv.
  - split; reflexivity.
Qed.

Lemma rangeInv_done st :
  rangeInv st -> rs_stage st = doneStage -> Nat.even (length (rs_frames st)) = true.
Proof. unfold rangeInv. intros H Hd. rewrite Hd in H. apply H. Qed.

Lemma rangeInv_odd st :
  rangeInv st -> Nat.odd (length (rs_frames st)) = true -> rs_stage st <> doneStage.
Proof.
  intros Hinv Hodd Hdone. apply rangeInv_done in Hinv; [|exact Hdone].
  rewrite <- Nat.negb_odd, Hodd in Hinv. discriminate.
Qed.

Lemma rangeResult_even fuel g it st frames :
  rangeResult readDefer fuel g it st = Ok (frames, None) ->
  Nat.even (length frames) = true.
Proof.
  unfold rangeResult. intros H.
  destruct (err it); [discriminate|].
  destruct (nonMonotonicSP st); [discriminate|].
  destruct (negb (bool_decide (rs_stage st = doneStage))); [discriminate|].
  destruct (negb (Nat.even (length (rs_frames st)))) eqn:Eeven; [discriminate|].
  apply rbind_Ok in H. destruct H as (res & Hrd & H). inversion H; subst res.
  unfold readDefers in Hrd. apply readDefersLoop_length in Hrd.
  rewrite Hrd. cbn [dc_frames]. apply negb_false_iff. exact Eeven.
Qed.

(** Every result without an error has even length. *)
Lemma rangeFuncStackTrace_even fuel g frames :
  rangeFuncStackTrace bi a mem readDefer fuel g = Ok (frames, None) ->
  Nat.even (length frames) = true.
Proof.
  unfold rangeFuncStackTrace. intros H.
  destruct g as [g|]; [|inversion H; reflexivity].
  destruct (goroutineStackIterator bi a true g StacktraceSimple) as [it0|e]; [|discriminate].
  apply rbind_Ok in H. destruct H as ([it st] & _ & H).
  eapply rangeResult_even. exact H.
Qed.

(** C8, amended.  Every result of [rangeFuncStackTrace] without an error has
    even length.  A collected list of odd length always yields an error, yet
    never "incomplete range-over-func stacktrace": that list belongs to a
    stage other than [doneStage], so one of the earlier checks returns (the
    iterator's error, the non-monotonic SP, or the missing range parent), and
    when the stage is [doneStage] the list has even length. *)
Theorem rangeFuncStackTrace_parity
    (fuel : nat) (g : G.t) (it0 it : stackIterator) (st : rangeState) :
  goroutineStackIterator bi a true g StacktraceSimple = inl it0 ->
  stacktraceFunc bi a mem (rangeCallback bi) fuel it0 initialRangeState = Ok (it, st) ->
  (Nat.odd (length (rs_frames st)) = true ->
     rangeFuncStackTrace bi a mem readDefer fuel (Some g)
     = Ok ([], Some match err it with
                    | Some e => e
                    | None => if nonMonotonicSP st then ErrNonMonotonicSP
                              else ErrNoRangeParent
                    end))
  /\ (rs_stage st = doneStage -> Nat.even (length (rs_frames st)) = true)
  /\ (forall frames,
        rangeFuncStackTrace bi a mem readDefer fuel (Some g) = Ok (frames, None) ->
        Nat.even (length frames) = true).
Proof.
  intros Hit Hrun.
  pose proof (rangeFunc_collected fuel it0 it st Hrun) as Hinv.
  split; [|split].
  - intros Hodd. unfold rangeFuncStackTrace. rewrite Hit, Hrun, bind_Ok.
    cbv beta iota. unfold rangeResult.
    destruct (err it); [reflexivity|].
    destruct (nonMonotonicSP st); [reflexivity|].
    rewrite bool_decide_eq_false_2 by (apply rangeInv_odd; assumption).
    reflexivity.
  - apply rangeInv_done. exact Hinv.
  - intros frames. apply rangeFuncStackTrace_even.
Qed.

End RangeFacts.

(** C8 (as stated) fails: when the body closure is the only frame of the
    stack, one frame has been collected, and the error is that the range
    parent was not found, not the "incomplete" one. *)
Lemma rangeFuncStackTrace_odd_counterexample :
  length (rs_frames (snd (ExRange.collected ExRange.cut))) = 1%nat
  /\ rangeFuncStackTrace ExRange.bi arm64Linux ExRange.cut ExRange.noDefers 10
       (Some ExRange.gor)
     = Ok ([], Some ErrNoRangeParent).
Proof. split; vm_compute; reflexivity. Qed.

(** The stack body <- iterate <- f <- main: the four frames are collected,
    the stage is [doneStage], and any result without an error is even. *)
Lemma rangeFuncStackTrace_parity_witness :
  (Nat.odd (length (rs_frames (snd ExRange.full))) = true ->
     rangeFuncStackTrace ExRange.bi arm64Linux ExRange.mem ExRange.noDefers 10
       (Some ExRange.gor)
     = Ok ([], Some match err (fst ExRange.full) with
                    | Some e => e
                    | None => if nonMonotonicSP (snd ExRange.full) then ErrNonMonotonicSP
                              else ErrNoRangeParent
                    end))
  /\ (rs_stage (snd ExRange.full) = doneStage ->
      Nat.even (length (rs_frames (snd ExRange.full))) = true)
  /\ (forall frames,
        rangeFuncStackTrace ExRange.bi arm64Linux ExRange.mem ExRange.noDefers 10
          (Some ExRange.gor) = Ok (frames, None) ->
        Nat.even (length frames) = true).
Proof.
  apply (rangeFuncStackTrace_parity ExRange.bi arm64Linux ExRange.mem ExRange.noDefers
           10 ExRange.gor ExRange.it0 (fst ExRange.full) (snd ExRange.full)).
  - vm_compute. reflexivity.
  - vm_compute. reflexivity.
Defined.

(** ** The fuel of [stacktrace] is enough *)

Lemma setUint64Val_fuel r i v : op.setUint64Val r i v <> OutOfFuel.
Proof. unfold op.setUint64Val. destruct (op.Reg r i); discriminate. Qed.

Lemma switchToGoroutineStack_fuel (a : ArchCore) it :
  switchToGoroutineStack a it <> OutOfFuel.
Proof.
  destruct (switchToGoroutineStack_result a it) as [H|(itg & e & H & _)];
    rewrite H; discriminate.
Qed.

Lemma bind_fuel {A B : Type} (m : Result A) (k : A -> Result B) :
  m <> OutOfFuel -> (forall x, k x <> OutOfFuel) -> m ≫= k <> OutOfFuel.
Proof.
  intros Hm Hk. destruct m as [x| |]; [apply Hk | discriminate | congruence].
Qed.

Section FuelFacts.

Context (bi : BinaryInfo) (a : Arch) (mem : Memory).
Hypothesis switchStack_fuel : forall it cfr, switchStack a bi mem it cfr <> OutOfFuel.

Lemma Next_fuel it : Next bi a mem it <> OutOfFuel.
Proof.
  unfold Next.
  destruct (bool_decide (err it ≠ None) || atend it); [discriminate|].
  destruct (advanceRegs bi a mem it) as [[[it1 cfr] ret] retaddr].
  destruct (newStackframe bi mem it1 ret retaddr) as [it2 fr].
  destruct (sigtrampHop bi mem (set_frame it2 fr)); [discriminate|].
  apply bind_fuel.
  - destruct (hasOpt (opts (set_frame it2 fr)) StacktraceSimple);
      [discriminate | apply switchStack_fuel].
  - intros [[sw it4] cfr']. destruct sw; [discriminate|].
    destruct (Ret (frame_ it4) <=? 0); discriminate.
Qed.

Lemma inlineLoop_fuel depth callfn entries : forall it frame frames,
  inlineLoop bi (collect depth) callfn entries it frame frames <> OutOfFuel.
Proof.
  induction entries as [|entry rest IH]; intros it frame frames; simpl; [discriminate|].
  destruct (dwarf.AttrName entry); [|discriminate].
  destruct (dwarf.AttrCallFile entry); [|discriminate].
  destruct (dwarf.AttrCallLine entry); [|discriminate].
  destruct (Fn (Current frame)) as [curfn|]; [|discriminate].
  destruct (filePath bi curfn z); [apply IH | discriminate].
Qed.

Lemma appendInlineCalls_fuel depth it frame frames :
  appendInlineCalls bi (collect depth) it frame frames <> OutOfFuel.
Proof.
  unfold appendInlineCalls.
  destruct (Fn (Call frame)) as [callfn|]; [|discriminate].
  destruct (negb (lineInfo (cu callfn))); [discriminate|].
  destruct (negb (getDwarfTree bi callfn)); [discriminate|].
  apply bind_fuel; [apply inlineLoop_fuel|].
  intros [[it1 frame1] frames1]. discriminate.
Qed.

(** Each turn of the loop adds a frame, and the callback stops the loop at
    [depth+1] frames. *)
Lemma nextLoop_collect_fuel depth fuel : forall it frames,
  (1 <= fuel)%nat ->
  depth + 1 <= Z.of_nat fuel + Z.of_nat (length frames) ->
  nextLoop bi a mem (collect depth) fuel it frames <> OutOfFuel.
Proof.
  induction fuel as [|fuel IH]; intros it frames H1 Hd; [lia|].
  rewrite nextLoop_S. apply bind_fuel; [apply Next_fuel|].
  intros [more it1]. destruct more; [|discriminate].
  destruct (appendInlineCalls bi (collect depth) (fst (Frame it1)) (snd (Frame it1)) frames)
    as [[[cont it2] frames2]| |] eqn:Happ.
  - rewrite bind_Ok. cbv beta iota. destruct cont; [|discriminate].
    apply appendInlineCalls_collect in Happ.
    destruct Happ as (synth & phys & Hf & _ & _ & _ & _ & _ & _ & Hcont & _).
    symmetry in Hcont. apply Z.ltb_lt in Hcont.
    assert (Hlen : (length frames < length frames2)%nat).
    { rewrite Hf, !length_app. simpl. lia. }
    apply IH; lia.
  - discriminate.
  - exfalso. eapply appendInlineCalls_fuel. exact Happ.
Qed.

Lemma stacktraceFunc_collect_fuel depth it frames :
  0 <= depth ->
  stacktraceFunc bi a mem (collect depth) (Z.to_nat (depth + 1)) it frames <> OutOfFuel.
Proof.
  intros Hdepth. unfold stacktraceFunc.
  destruct (hasOpt (opts it) StacktraceG && bool_decide (g it ≠ None)).
  - apply bind_fuel; [apply switchToGoroutineStack_fuel|].
    intros [itg e]. destruct e; [discriminate|].
    apply nextLoop_collect_fuel; lia.
  - apply nextLoop_collect_fuel; lia.
Qed.

(** [stacktrace] returns or panics: the fuel it gives its frame loop is
    never used up. *)
Lemma stacktrace_fuel it depth : stacktrace bi a mem it depth <> OutOfFuel.
Proof.
  unfold stacktrace.
  destruct (Z.ltb_spec depth 0) as [Hneg|Hdepth]; [discriminate|].
  apply bind_fuel; [apply stacktraceFunc_collect_fuel; exact Hdepth|].
  intros [it1 frames]. apply bind_fuel.
  - match goal with
    | |- (if ?c then _ else _) <> _ => destruct c
    end; [apply stacktraceFunc_collect_fuel; exact Hdepth | discriminate].
  - intros [it2 frames2]. destruct (err it2); [destruct frames2|]; discriminate.
Qed.

End FuelFacts.

(** The stack-switch hook of arm64 returns or panics. *)
Lemma arm64SwitchStack_fuel linux c1 c2 bi mem it cfr :
  arm64SwitchStack linux c1 c2 bi mem it cfr <> OutOfFuel.
Proof.
  assert (Hsw : forall it0 cfr0, switchOrFail c1 c2 it0 cfr0 <> OutOfFuel).
  { intros it0 cfr0. unfold switchOrFail. apply bind_fuel.
    - apply switchToGoroutineStack_fuel.
    - intros [itg e]. destruct e; discriminate. }
  assert (Hcaller : forall it0 cfr0,
            arm64SwitchStackCaller c1 c2 bi mem it0 cfr0 <> OutOfFuel).
  { intros it0 cfr0. unfold arm64SwitchStackCaller.
    destruct (PCToFunc bi (Ret (frame_ it0))) as [fn|]; [|discriminate].
    repeat match goal with
           | |- (if ?c then _ else _) <> OutOfFuel => destruct c
           | |- Ok _ <> OutOfFuel => discriminate
           | |- (_ ≫= _) <> OutOfFuel =>
               apply bind_fuel; [apply setUint64Val_fuel | intros ?]
           end. }
  unfold arm64SwitchStack.
  destruct (Fn (Current (frame_ it))) as [curfn|].
  2: { destruct (systemstack it && bool_decide (g it ≠ None) && top it);
       [apply Hsw | discriminate]. }
  repeat match goal with
         | |- switchOrFail _ _ _ _ <> OutOfFuel => apply Hsw
         | |- arm64SwitchStackCaller _ _ _ _ _ _ <> OutOfFuel => apply Hcaller
         | |- Ok _ <> OutOfFuel => discriminate
         | |- (if ?c then _ else _) <> OutOfFuel => destruct c
         | |- (match g ?i with _ => _ end) <> OutOfFuel => destruct (g i)
         | |- (let '(_, _) := ?p in _) <> OutOfFuel => destruct p
         | |- (_ ≫= _) <> OutOfFuel =>
             apply bind_fuel;
             [first [apply setUint64Val_fuel
                    | match goal with
                      | |- (match ?x with _ => _ end) <> OutOfFuel =>
                          destruct x; [apply setUint64Val_fuel | discriminate]
                      end]
             | intros ?]
         end.
Qed.

(** On arm64 [stacktrace] always returns or panics. *)
Lemma arm64_stacktrace_fuel linux c1 c2 bi mem it depth :
  stacktrace bi (ARM64Arch linux c1 c2) mem it depth <> OutOfFuel.
Proof. apply stacktrace_fuel. intros it0 cfr. apply arm64SwitchStack_fuel. Qed.

(** * Further properties of the code *)

(** ** The register-rule evaluator *)

Section EvaluatorMore.

Context (bi : BinaryInfo) (a : ArchCore) (mem : Memory).

Lemma readRegisterAt_exclusive it regnum addr :
  fst (readRegisterAt a mem it regnum addr) = None
  \/ snd (readRegisterAt a mem it regnum addr) = None.
Proof.
  unfold readRegisterAt. destruct (ReadMemory mem addr (regSize a regnum)); simpl; auto.
Qed.

(** X1.  [executeFrameRegRule] never returns a register together with an
    error: whenever the register is non-nil the error is nil. *)
Theorem executeFrameRegRule_exclusive
    (it : stackIterator) (regnum : Z) (rule : frame.DWRule) (cfa : Z) :
  fst (executeFrameRegRule bi a mem it regnum rule cfa) = None
  \/ snd (executeFrameRegRule bi a mem it regnum rule cfa) = None.
Proof.
  unfold executeFrameRegRule.
  destruct (frame.rule rule); simpl; auto using readRegisterAt_exclusive.
  - destruct (op.Reg (regs it) regnum); simpl; auto.
  - destruct (ExecuteStackProgram bi (regs it) (frame.Expression rule) (PtrSize a) mem);
      simpl; auto using readRegisterAt_exclusive.
  - destruct (ExecuteStackProgram bi (regs it) (frame.Expression rule) (PtrSize a) mem);
      simpl; auto.
  - destruct (op.Reg (regs it) (frame.Reg rule)); simpl; auto.
  - destruct (op.Reg (regs it) (frame.Reg rule)) as [curReg|]; simpl; auto.
    destruct (op.Uint64Val curReg <=? uint64 cfa); simpl; auto using readRegisterAt_exclusive.
Qed.

End EvaluatorMore.

(** X2.  The rules [Undefined], [SameVal], [ValOffset], [Register],
    [Architectural], [CFA] and the unknown ones are evaluated without the
    target: the result depends neither on its memory nor on the binary or
    the architecture. *)
Theorem executeFrameRegRule_no_target
    (bi bi' : BinaryInfo) (a a' : ArchCore) (mem mem' : Memory)
    (it : stackIterator) (regnum : Z) (rule : frame.DWRule) (cfa : Z) :
  readsTarget (frame.rule rule) = false ->
  executeFrameRegRule bi a mem it regnum rule cfa
  = executeFrameRegRule bi' a' mem' it regnum rule cfa.
Proof.
  unfold executeFrameRegRule. destruct (frame.rule rule); simpl; intros H;
    try discriminate; reflexivity.
Qed.

Lemma executeFrameRegRule_no_target_witness :
  executeFrameRegRule strippedBinary arm64Linux ExEnd.mem ExEnd.it0 regnum.ARM64_SP
    (frame.mkDWRule frame.RuleValOffset 16 0 []) 0x2000
  = executeFrameRegRule ExInline.bi arm64Linux ExEnd.unmapped ExEnd.it0 regnum.ARM64_SP
      (frame.mkDWRule frame.RuleValOffset 16 0 []) 0x2000.
Proof.
  apply executeFrameRegRule_no_target. reflexivity.
Defined.

(** ** The frame advancer *)

Section AdvanceMore.

Context (bi : BinaryInfo) (a : ArchCore) (mem : Memory).

Lemma Reg_AddReg r i reg j :
  op.Reg (op.AddReg r i reg) j = if bool_decide (i = j) then reg else op.Reg r j.
Proof.
  unfold op.Reg, op.AddReg. destruct reg as [x|]; simpl.
  - destruct (decide (i = j)) as [->|Hne].
    + rewrite bool_decide_eq_true_2 by reflexivity. apply lookup_insert_eq.
    + rewrite bool_decide_eq_false_2 by exact Hne. apply lookup_insert_ne. exact Hne.
  - destruct (decide (i = j)) as [->|Hne].
    + rewrite bool_decide_eq_true_2 by reflexivity. apply lookup_delete_eq.
    + rewrite bool_decide_eq_false_2 by exact Hne. apply lookup_delete_ne. exact Hne.
Qed.

Lemma callFrameRegs_step RA st i rule :
  callFrameRegs (advanceRegsStep bi a mem RA st (i, rule))
  = op.AddReg (callFrameRegs st) i
      (fst (executeFrameRegRule bi a mem (as_it st) i rule (op.CFA (regs (as_it st))))).
Proof.
  unfold advanceRegsStep.
  destruct (executeFrameRegRule bi a mem (as_it st) i rule (op.CFA (regs (as_it st))))
    as [reg e]. cbn [fst].
  destruct (bool_decide (i = RA)); [|reflexivity].
  destruct reg as [reg|]; [|reflexivity].
  destruct (fnNamed (Fn (Call (frame_ (as_it st)))) "runtime.sigpanic" && usesLR a);
    [|reflexivity].
  destruct (readInto mem (uint64 (op.CFA (regs (as_it st)))) 8) as [buf [e'|]]; reflexivity.
Qed.

(** Registers without a rule are left as they were. *)
Lemma advanceRegsLoop_reg_other RA l : forall st i,
  i ∉ l.*1 ->
  op.Reg (callFrameRegs (foldl (advanceRegsStep bi a mem RA) st l)) i
  = op.Reg (callFrameRegs st) i.
Proof.
  induction l as [|[j r] l IH]; intros st i Hn; cbn [foldl]; [reflexivity|].
  rewrite IH by (intros H; apply Hn; simpl; right; exact H).
  rewrite callFrameRegs_step, Reg_AddReg.
  rewrite bool_decide_eq_false_2; [reflexivity|].
  intros ->. apply Hn. simpl. left.
Qed.

(** A register with a rule holds what the rule resolves to. *)
Lemma advanceRegsLoop_reg_rule RA l : forall st i rule,
  NoDup l.*1 ->
  (i, rule) ∈ l ->
  op.Reg (callFrameRegs (foldl (advanceRegsStep bi a mem RA) st l)) i
  = fst (executeFrameRegRule bi a mem (as_it st) i rule (op.CFA (regs (as_it st)))).
Proof.
  induction l as [|[j r] l IH]; intros st i rule Hnd Hin.
  - inversion Hin.
  - simpl in Hnd. apply NoDup_cons in Hnd. destruct Hnd as [Hni Hnd]. cbn [foldl].
    destruct (decide (j = i)) as [->|Hne].
    + assert (r = rule) as ->.
      { apply elem_of_cons in Hin. destruct Hin as [Heq|Hin]; [congruence|].
        exfalso. apply Hni. apply list_elem_of_fmap. exists (i, rule).
        split; [reflexivity|exact Hin]. }
      rewrite advanceRegsLoop_reg_other by exact Hni.
      rewrite callFrameRegs_step, Reg_AddReg.
      rewrite bool_decide_eq_true_2 by reflexivity. reflexivity.
    + apply elem_of_cons in Hin. destruct Hin as [Heq|Hin]; [congruence|].
      rewrite (IH _ i rule Hnd Hin).
      destruct (advanceRegsStep_it bi a mem RA st (j, r)) as (G1 & _ & _).
      rewrite G1. f_equal. apply executeFrameRegRule_regs. exact G1.
Qed.

Lemma advanceRegsLoop_cfr_fields RA l : forall st,
  let cfr := callFrameRegs (foldl (advanceRegsStep bi a mem RA) st l) in
  op.StaticBase cfr = op.StaticBase (callFrameRegs st)
  /\ op.CFA cfr = op.CFA (callFrameRegs st)
  /\ op.FrameBase cfr = op.FrameBase (callFrameRegs st)
  /\ op.byteOrder cfr = op.byteOrder (callFrameRegs st)
  /\ op.PCRegNum cfr = op.PCRegNum (callFrameRegs st)
  /\ op.SPRegNum cfr = op.SPRegNum (callFrameRegs st)
  /\ op.BPRegNum cfr = op.BPRegNum (callFrameRegs st)
  /\ op.LRRegNum cfr = op.LRRegNum (callFrameRegs st).
Proof.
  induction l as [|[j r] l IH]; intros st; cbn [foldl]; [cbv zeta; auto 10|].
  cbv zeta in *.
  destruct (IH (advanceRegsStep bi a mem RA st (j, r)))
    as (H1 & H2 & H3 & H4 & H5 & H6 & H7 & H8).
  rewrite H1, H2, H3, H4, H5, H6, H7, H8, callFrameRegs_step.
  destruct (fst (executeFrameRegRule bi a mem (as_it st) j r (op.CFA (regs (as_it st)))));
    cbn; auto 10.
Qed.

(** X3.  The caller-side registers [advanceRegs] returns: a register that has
    a rule in the frame context holds what the rule resolves to (nil if it
    does not resolve); of the registers without a rule only SP is present,
    with the CFA as value.  The static base is that of the image of the PC,
    and the special register numbers and the byte order are those of the
    iterator's registers. *)
Theorem advanceRegs_callFrameRegs (it : stackIterator) (cfareg : op.DwarfRegister) :
  let framectx := fixFrameUnwindContext a (FDEForPC bi (pc it)) (pc it) bi in
  let cfa := int64 (op.Uint64Val cfareg) in
  let it1 := set_regs it (op.set_CFA (regs it) cfa) in
  let cfr := snd (fst (fst (advanceRegs bi a mem it))) in
  fst (executeFrameRegRule bi a mem it 0 (frame.CFA framectx) 0) = Some cfareg ->
  (forall i,
     op.Reg cfr i
     = match frame.Regs framectx !! i with
       | Some rule => fst (executeFrameRegRule bi a mem it1 i rule cfa)
       | None => if bool_decide (i = op.SPRegNum (regs it)) then Some cfareg else None
       end)
  /\ op.StaticBase cfr = PCToImage_StaticBase bi (pc it)
  /\ op.byteOrder cfr = op.byteOrder (regs it)
  /\ op.PCRegNum cfr = op.PCRegNum (regs it)
  /\ op.SPRegNum cfr = op.SPRegNum (regs it)
  /\ op.BPRegNum cfr = op.BPRegNum (regs it)
  /\ op.LRRegNum cfr = op.LRRegNum (regs it).
Proof.
  intros framectx cfa it1 cfr Hcfa. subst cfr.
  unfold advanceRegs. fold framectx.
  destruct (executeFrameRegRule bi a mem it 0 (frame.CFA framectx) 0) as [c e0].
  cbn [fst] in Hcfa. subst c. fold cfa. fold it1.
  unfold advanceRegsLoop.
  set (st0 := mkAdvanceState it1 _ 0 0).
  set (l := map_to_list (frame.Regs framectx)).
  cbn [fst snd].
  destruct (advanceRegsLoop_cfr_fields (frame.RetAddrReg framectx) l st0)
    as (H1 & _ & _ & H4 & H5 & H6 & H7 & H8).
  split; [|repeat split; assumption].
  intros i.
  destruct (frame.Regs framectx !! i) as [rule|] eqn:Hi.
  - rewrite (advanceRegsLoop_reg_rule _ l st0 i rule).
    + reflexivity.
    + apply NoDup_fst_map_to_list.
    + apply elem_of_map_to_list. exact Hi.
  - rewrite advanceRegsLoop_reg_other.
    + unfold st0. cbn [callFrameRegs]. rewrite Reg_AddReg. cbn.
      destruct (bool_decide (op.SPRegNum (regs it) = i)) eqn:E.
      * apply bool_decide_eq_true in E. subst i.
        rewrite bool_decide_eq_true_2 by reflexivity. reflexivity.
      * apply bool_decide_eq_false in E.
        rewrite bool_decide_eq_false_2 by congruence. reflexivity.
    + intros Hin. apply list_elem_of_fmap in Hin. destruct Hin as ([j r] & -> & Hin).
      apply elem_of_map_to_list in Hin. simpl in Hi. congruence.
Qed.

Lemma set_err_err it : set_err it (err it) = it.
Proof. destruct it; reflexivity. Qed.

Lemma set_CFA_CFA r : op.set_CFA r (op.CFA r) = r.
Proof. destruct r; reflexivity. Qed.

Lemma set_regs_regs it : set_regs it (regs it) = it.
Proof. destruct it; reflexivity. Qed.

(** A rule of another register than the return-address register touches
    the caller-side registers only. *)
Lemma advanceRegsStep_other RA st i rule :
  i <> RA ->
  as_it (advanceRegsStep bi a mem RA st (i, rule)) = as_it st
  /\ as_ret (advanceRegsStep bi a mem RA st (i, rule)) = as_ret st
  /\ as_retaddr (advanceRegsStep bi a mem RA st (i, rule)) = as_retaddr st.
Proof.
  intros Hne. unfold advanceRegsStep.
  destruct (executeFrameRegRule bi a mem (as_it st) i rule (op.CFA (regs (as_it st))))
    as [reg e].
  rewrite bool_decide_eq_false_2 by exact Hne. auto.
Qed.

Lemma advanceRegsLoop_no_RA RA l : forall st,
  RA ∉ l.*1 ->
  as_it (foldl (advanceRegsStep bi a mem RA) st l) = as_it st
  /\ as_ret (foldl (advanceRegsStep bi a mem RA) st l) = as_ret st
  /\ as_retaddr (foldl (advanceRegsStep bi a mem RA) st l) = as_retaddr st.
Proof.
  induction l as [|[i r] l IH]; intros st Hn; cbn [foldl]; [auto|].
  destruct (IH (advanceRegsStep bi a mem RA st (i, r))) as (H1 & H2 & H3).
  { intros H. apply Hn. simpl. right. exact H. }
  destruct (advanceRegsStep_other RA st i r) as (G1 & G2 & G3).
  { intros ->. apply Hn. simpl. left. }
  rewrite H1, H2, H3. auto.
Qed.

(** What the rule of the return-address register leaves of the iterator,
    of [ret] and of [retaddr] depends on the iterator and on [ret] only. *)
Lemma advanceRegsStep_RA_congr RA st st' rule :
  as_it st = as_it st' -> as_ret st = as_ret st' ->
  as_it (advanceRegsStep bi a mem RA st (RA, rule))
  = as_it (advanceRegsStep bi a mem RA st' (RA, rule))
  /\ as_ret (advanceRegsStep bi a mem RA st (RA, rule))
     = as_ret (advanceRegsStep bi a mem RA st' (RA, rule))
  /\ as_retaddr (advanceRegsStep bi a mem RA st (RA, rule))
     = as_retaddr (advanceRegsStep bi a mem RA st' (RA, rule)).
Proof.
  intros Hit Hret. unfold advanceRegsStep. rewrite <- Hit, <- Hret.
  destruct (executeFrameRegRule bi a mem (as_it st) RA rule (op.CFA (regs (as_it st))))
    as [[reg|] e].
  - rewrite bool_decide_eq_true_2 by reflexivity.
    destruct (fnNamed (Fn (Call (frame_ (as_it st)))) "runtime.sigpanic" && usesLR a);
      [|auto].
    destruct (readInto mem (uint64 (op.CFA (regs (as_it st)))) 8) as [buf [e'|]]; auto.
  - rewrite bool_decide_eq_true_2 by reflexivity. auto.
Qed.

Lemma advanceRegsLoop_at_RA RA rule l : forall st,
  NoDup l.*1 ->
  (RA, rule) ∈ l ->
  as_it (foldl (advanceRegsStep bi a mem RA) st l)
  = as_it (advanceRegsStep bi a mem RA st (RA, rule))
  /\ as_ret (foldl (advanceRegsStep bi a mem RA) st l)
     = as_ret (advanceRegsStep bi a mem RA st (RA, rule))
  /\ as_retaddr (foldl (advanceRegsStep bi a mem RA) st l)
     = as_retaddr (advanceRegsStep bi a mem RA st (RA, rule)).
Proof.
  induction l as [|[i r] l IH]; intros st Hnd Hin.
  - inversion Hin.
  - simpl in Hnd. apply NoDup_cons in Hnd. destruct Hnd as [Hni Hnd]. cbn [foldl].
    destruct (decide (i = RA)) as [->|Hne].
    + assert (r = rule) as ->.
      { apply elem_of_cons in Hin. destruct Hin as [Heq|Hin]; [congruence|].
        exfalso. apply Hni. apply list_elem_of_fmap. exists (RA, rule).
        split; [reflexivity|exact Hin]. }
      apply advanceRegsLoop_no_RA. exact Hni.
    + apply elem_of_cons in Hin. destruct Hin as [Heq|Hin]; [congruence|].
      destruct (IH (advanceRegsStep bi a mem RA st (i, r)) Hnd Hin) as (H1 & H2 & H3).
      destruct (advanceRegsStep_other RA st i r Hne) as (G1 & G2 & G3).
      destruct (advanceRegsStep_RA_congr RA (advanceRegsStep bi a mem RA st (i, r)) st rule
                  G1 G2) as (K1 & K2 & K3).
      rewrite H1, H2, H3. auto.
Qed.

(** The iterator after [advanceRegs] differs from the one before in
    [regs.CFA] and [err] only. *)
Lemma advanceRegs_it_shape (it : stackIterator) :
  exists cfa e,
    fst (fst (fst (advanceRegs bi a mem it)))
    = set_err (set_regs it (op.set_CFA (regs it) cfa)) e.
Proof.
  unfold advanceRegs.
  set (framectx := fixFrameUnwindContext a (FDEForPC bi (pc it)) (pc it) bi).
  destruct (executeFrameRegRule bi a mem it 0 (frame.CFA framectx) 0) as [[cfareg|] e0].
  - exists (int64 (op.Uint64Val cfareg)). cbn [fst].
    unfold advanceRegsLoop.
    set (it1 := set_regs it (op.set_CFA (regs it) (int64 (op.Uint64Val cfareg)))).
    set (st0 := mkAdvanceState it1 _ 0 0).
    set (l := map_to_list (frame.Regs framectx)).
    destruct (frame.Regs framectx !! frame.RetAddrReg framectx) as [rule|] eqn:Hra.
    + destruct (advanceRegsLoop_at_RA (frame.RetAddrReg framectx) rule l st0) as (H1 & _ & _).
      { apply NoDup_fst_map_to_list. }
      { apply elem_of_map_to_list. exact Hra. }
      rewrite H1. unfold advanceRegsStep. cbn [as_it st0].
      destruct (executeFrameRegRule bi a mem it1 (frame.RetAddrReg framectx) rule
                  (op.CFA (regs it1))) as [[reg|] e].
      * rewrite bool_decide_eq_true_2 by reflexivity.
        destruct (fnNamed (Fn (Call (frame_ it1))) "runtime.sigpanic" && usesLR a).
        -- destruct (readInto mem (uint64 (op.CFA (regs it1))) 8) as [buf [e'|]];
             cbn [as_it].
           ++ eexists. reflexivity.
           ++ exists (err it1). symmetry. apply set_err_err.
        -- cbn [as_it]. exists (err it1). symmetry. apply set_err_err.
      * rewrite bool_decide_eq_true_2 by reflexivity. cbn [as_it].
        eexists. reflexivity.
    + destruct (advanceRegsLoop_no_RA (frame.RetAddrReg framectx) l st0) as (H1 & _ & _).
      { intros Hin. apply list_elem_of_fmap in Hin. destruct Hin as ([j r] & Hj & Hin).
        apply elem_of_map_to_list in Hin. simpl in Hj. subst j. congruence. }
      rewrite H1. cbn [as_it st0]. exists (err it1). symmetry. apply set_err_err.
  - exists (op.CFA (regs it)), (Some (ErrCFAUndefined (pc it))). cbn [fst].
    rewrite set_CFA_CFA, set_regs_regs. reflexivity.
Qed.

(** X4.  Of the iterator, [advanceRegs] changes nothing but [regs.CFA] and
    [err]. *)
Theorem advanceRegs_iterator (it : stackIterator) :
  exists cfa e,
    fst (fst (fst (advanceRegs bi a mem it)))
    = set_err (set_regs it (op.set_CFA (regs it) cfa)) e.
Proof. exact (advanceRegs_it_shape it). Qed.

(** X6.  Once the CFA is known, only the return-address register can make
    [advanceRegs] fail: a rule of another register that does not resolve, or
    whose evaluation fails, leaves the iterator's error as it was.  The
    error is set when the rule of the return-address register gives no
    register (to the error of the evaluation, or to the
    undefined-return-address error), or when the word at the CFA cannot be read
    behind a [runtime.sigpanic] frame on a link-register architecture.
    [retaddr] is the CFA plus the offset of that rule whatever the kind of
    the rule, and 0 when there is no such rule. *)
Theorem advanceRegs_err_retaddr (it : stackIterator) (cfareg : op.DwarfRegister) :
  let framectx := fixFrameUnwindContext a (FDEForPC bi (pc it)) (pc it) bi in
  let cfa := int64 (op.Uint64Val cfareg) in
  let it1 := set_regs it (op.set_CFA (regs it) cfa) in
  let it' := fst (fst (fst (advanceRegs bi a mem it))) in
  let retaddr := snd (advanceRegs bi a mem it) in
  fst (executeFrameRegRule bi a mem it 0 (frame.CFA framectx) 0) = Some cfareg ->
  match frame.Regs framectx !! frame.RetAddrReg framectx with
  | None => err it' = err it /\ retaddr = 0
  | Some rule =>
      retaddr = uint64 (cfa + frame.Offset rule)
      /\ err it'
         = match executeFrameRegRule bi a mem it1 (frame.RetAddrReg framectx) rule cfa with
           | (Some _, _) =>
               if fnNamed (Fn (Call (frame_ it))) "runtime.sigpanic" && usesLR a
               then match snd (readInto mem (uint64 cfa) 8) with
                    | Some e => Some e
                    | None => err it
                    end
               else err it
           | (None, Some e) => Some e
           | (None, None) => Some (ErrUndefinedReturnAddress (pc it))
           end
  end.
Proof.
  intros framectx cfa it1 it' retaddr Hcfa. subst it' retaddr.
  unfold advanceRegs. fold framectx.
  destruct (executeFrameRegRule bi a mem it 0 (frame.CFA framectx) 0) as [c e0].
  cbn [fst] in Hcfa. subst c. fold cfa. fold it1.
  unfold advanceRegsLoop.
  set (st0 := mkAdvanceState it1 _ 0 0).
  set (l := map_to_list (frame.Regs framectx)).
  cbn [fst snd].
  destruct (frame.Regs framectx !! frame.RetAddrReg framectx) as [rule|] eqn:Hra.
  - destruct (advanceRegsLoop_at_RA (frame.RetAddrReg framectx) rule l st0) as (H1 & _ & H3).
    { apply NoDup_fst_map_to_list. }
    { apply elem_of_map_to_list. exact Hra. }
    rewrite H1, H3. unfold advanceRegsStep. cbn [as_it st0].
    change (op.CFA (regs it1)) with cfa.
    change (frame_ it1) with (frame_ it).
    destruct (executeFrameRegRule bi a mem it1 (frame.RetAddrReg framectx) rule cfa)
      as [[reg|] e].
    + rewrite bool_decide_eq_true_2 by reflexivity.
      destruct (fnNamed (Fn (Call (frame_ it))) "runtime.sigpanic" && usesLR a).
      * destruct (readInto mem (uint64 cfa) 8) as [buf [e'|]]; cbn; auto.
      * cbn. auto.
    + rewrite bool_decide_eq_true_2 by reflexivity. cbn. destruct e; auto.
  - destruct (advanceRegsLoop_no_RA (frame.RetAddrReg framectx) l st0) as (H1 & _ & H3).
    { intros Hin. apply list_elem_of_fmap in Hin. destruct Hin as ([j r] & Hj & Hin).
      apply elem_of_map_to_list in Hin. simpl in Hj. subst j. congruence. }
    rewrite H1, H3. cbn. auto.
Qed.

End AdvanceMore.

(** Without a frame description the arm64 context has rules for PC, BP and
    SP only: the caller's SP is the CFA and its link register is nil. *)
Lemma advanceRegs_callFrameRegs_witness :
  let cfr := snd (fst (fst (advanceRegs strippedBinary arm64Linux ExEnd.mem ExEnd.it0))) in
  op.Reg cfr regnum.ARM64_SP = Some (op.DwarfRegisterFromUint64 0x2010)
  /\ op.Reg cfr regnum.ARM64_LR = None.
Proof.
  unshelve refine (let H := advanceRegs_callFrameRegs strippedBinary arm64Linux ExEnd.mem
                              ExEnd.it0 (op.DwarfRegisterFromUint64 0x2010) _ in _).
  - vm_compute. reflexivity.
  - destruct H as [H _]. cbv zeta. split.
    + rewrite (H regnum.ARM64_SP). vm_compute. reflexivity.
    + rewrite (H regnum.ARM64_LR). vm_compute. reflexivity.
Defined.

(** The frame record at 0x2000 cannot be read: the rule of the PC gives no
    register and the error of the read becomes the iterator's. *)
Lemma advanceRegs_err_retaddr_witness :
  snd (advanceRegs strippedBinary arm64Linux ExEnd.unmapped ExEnd.it0) = 0x2008
  /\ err (fst (fst (fst (advanceRegs strippedBinary arm64Linux ExEnd.unmapped ExEnd.it0))))
     = Some (ErrReadMemory 0x2008).
Proof.
  unshelve refine (let H := advanceRegs_err_retaddr strippedBinary arm64Linux ExEnd.unmapped
                              ExEnd.it0 (op.DwarfRegisterFromUint64 0x2010) _ in _).
  - vm_compute. reflexivity.
  - cbv zeta in H.
    change (frame.Regs (fixFrameUnwindContext arm64Linux
              (FDEForPC strippedBinary (pc ExEnd.it0)) (pc ExEnd.it0) strippedBinary)
            !! frame.RetAddrReg (fixFrameUnwindContext arm64Linux
              (FDEForPC strippedBinary (pc ExEnd.it0)) (pc ExEnd.it0) strippedBinary))
      with (Some (frame.mkDWRule frame.RuleOffset (-8) 0 [])) in H.
    destruct H as [H1 H2]. split.
    + rewrite H1. vm_compute. reflexivity.
    + rewrite H2. vm_compute. reflexivity.
Defined.

Section AdvanceOrder.

Context (bi : BinaryInfo) (a : ArchCore) (mem : Memory).

Lemma DwarfRegisters_eq (r r' : op.DwarfRegisters) :
  op.StaticBase r = op.StaticBase r' -> op.CFA r = op.CFA r' ->
  op.FrameBase r = op.FrameBase r' -> op.byteOrder r = op.byteOrder r' ->
  op.PCRegNum r = op.PCRegNum r' -> op.SPRegNum r = op.SPRegNum r' ->
  op.BPRegNum r = op.BPRegNum r' -> op.LRRegNum r = op.LRRegNum r' ->
  (forall i, op.Reg r i = op.Reg r' i) ->
  r = r'.
Proof.
  destruct r, r'; cbn. intros -> -> -> -> -> -> -> -> H. f_equal.
  apply map_eq. exact H.
Qed.

Lemma advanceState_eq (s s' : advanceState) :
  as_it s = as_it s' -> callFrameRegs s = callFrameRegs s' ->
  as_ret s = as_ret s' -> as_retaddr s = as_retaddr s' -> s = s'.
Proof. destruct s, s'; cbn. intros -> -> -> ->. reflexivity. Qed.

(** The register loop gives the same state for any two lists that hold the
    same rules, each register once. *)
Lemma advanceRegsLoop_same_entries RA (l l' : list (Z * frame.DWRule)) st :
  NoDup l.*1 -> NoDup l'.*1 -> (forall x, x ∈ l <-> x ∈ l') ->
  foldl (advanceRegsStep bi a mem RA) st l = foldl (advanceRegsStep bi a mem RA) st l'.
Proof.
  intros Hnd Hnd' Hsame.
  assert (Hkeys : forall i, i ∈ l.*1 -> exists r, (i, r) ∈ l).
  { intros i Hi. apply list_elem_of_fmap in Hi. destruct Hi as ([j r] & -> & Hin).
    exists r. exact Hin. }
  assert (Hno : forall i, i ∉ l.*1 -> i ∉ l'.*1).
  { intros i Hn Hi. apply Hn. apply list_elem_of_fmap in Hi.
    destruct Hi as ([j r] & -> & Hin). apply list_elem_of_fmap. exists (j, r).
    split; [reflexivity|]. apply Hsame. exact Hin. }
  assert (Hmain : as_it (foldl (advanceRegsStep bi a mem RA) st l)
                  = as_it (foldl (advanceRegsStep bi a mem RA) st l')
                  /\ as_ret (foldl (advanceRegsStep bi a mem RA) st l)
                     = as_ret (foldl (advanceRegsStep bi a mem RA) st l')
                  /\ as_retaddr (foldl (advanceRegsStep bi a mem RA) st l)
                     = as_retaddr (foldl (advanceRegsStep bi a mem RA) st l')).
  { destruct (decide (RA ∈ l.*1)) as [Hin|Hn].
    - destruct (Hkeys _ Hin) as [rule Hr].
      destruct (advanceRegsLoop_at_RA bi a mem RA rule l st Hnd Hr) as (H1 & H2 & H3).
      destruct (advanceRegsLoop_at_RA bi a mem RA rule l' st Hnd' (proj1 (Hsame _) Hr))
        as (G1 & G2 & G3).
      rewrite H1, H2, H3, G1, G2, G3. auto.
    - destruct (advanceRegsLoop_no_RA bi a mem RA l st Hn) as (H1 & H2 & H3).
      destruct (advanceRegsLoop_no_RA bi a mem RA l' st (Hno _ Hn)) as (G1 & G2 & G3).
      rewrite H1, H2, H3, G1, G2, G3. auto. }
  destruct Hmain as (M1 & M2 & M3).
  apply advanceState_eq; try assumption.
  destruct (advanceRegsLoop_cfr_fields bi a mem RA l st)
    as (H1 & H2 & H3 & H4 & H5 & H6 & H7 & H8).
  destruct (advanceRegsLoop_cfr_fields bi a mem RA l' st)
    as (G1 & G2 & G3 & G4 & G5 & G6 & G7 & G8).
  apply DwarfRegisters_eq; try congruence.
  intros i. destruct (decide (i ∈ l.*1)) as [Hin|Hn].
  - destruct (Hkeys _ Hin) as [rule Hr].
    rewrite (advanceRegsLoop_reg_rule bi a mem RA l st i rule Hnd Hr).
    rewrite (advanceRegsLoop_reg_rule bi a mem RA l' st i rule Hnd' (proj1 (Hsame _) Hr)).
    reflexivity.
  - rewrite (advanceRegsLoop_reg_other bi a mem RA l st i Hn).
    rewrite (advanceRegsLoop_reg_other bi a mem RA l' st i (Hno _ Hn)).
    reflexivity.
Qed.

(** X5.  The register loop of [advanceRegs] ranges over a Go map, whose
    iteration order is not specified.  The order does not matter: visiting
    the rules of the frame context in any order gives the same iterator,
    caller-side registers, [ret] and [retaddr]. *)
Theorem advanceRegsLoop_order
    (framectx : frame.FrameContext) (st : advanceState) (l : list (Z * frame.DWRule)) :
  l ≡ₚ map_to_list (frame.Regs framectx) ->
  foldl (advanceRegsStep bi a mem (frame.RetAddrReg framectx)) st l
  = advanceRegsLoop bi a mem framectx st.
Proof.
  intros Hp. unfold advanceRegsLoop. apply advanceRegsLoop_same_entries.
  - rewrite Hp. apply NoDup_fst_map_to_list.
  - apply NoDup_fst_map_to_list.
  - intros x. rewrite Hp. reflexivity.
Qed.

End AdvanceOrder.

(** The three rules of the arm64 context without frame description, taken
    PC first. *)
Lemma advanceRegsLoop_order_witness :
  let st := mkAdvanceState ExEnd.it1 ExEnd.cfr 0 0 in
  foldl (advanceRegsStep strippedBinary arm64Linux ExEnd.mem regnum.ARM64_PC) st
    [(regnum.ARM64_PC, frame.mkDWRule frame.RuleOffset (-8) 0 []);
     (regnum.ARM64_BP, frame.mkDWRule frame.RuleOffset (-16) 0 []);
     (regnum.ARM64_SP, frame.mkDWRule frame.RuleValOffset 0 0 [])]
  = advanceRegsLoop strippedBinary arm64Linux ExEnd.mem (arm64DefaultContext 8) st.
Proof.
  intros st.
  apply (advanceRegsLoop_order strippedBinary arm64Linux ExEnd.mem (arm64DefaultContext 8) st).
  change (map_to_list (frame.Regs (arm64DefaultContext 8)))
    with [(regnum.ARM64_SP, frame.mkDWRule frame.RuleValOffset 0 0 []);
          (regnum.ARM64_BP, frame.mkDWRule frame.RuleOffset (-16) 0 []);
          (regnum.ARM64_PC, frame.mkDWRule frame.RuleOffset (-8) 0 [])].
  exact (reverse_Permutation
           [(regnum.ARM64_SP, frame.mkDWRule frame.RuleValOffset 0 0 []);
            (regnum.ARM64_BP, frame.mkDWRule frame.RuleOffset (-16) 0 []);
            (regnum.ARM64_PC, frame.mkDWRule frame.RuleOffset (-8) 0 [])]).
Defined.

(** ** Frame-pointer unwinding on arm64 *)

Lemma int64_small z : - 2 ^ 63 <= z < 2 ^ 63 -> int64 z = z.
Proof. intros H. unfold int64. rewrite Z.mod_small by lia. lia. Qed.

Lemma DwarfRegisterFromBytes_word (bs : list byte) :
  length bs = 8%nat -> op.Uint64Val (op.DwarfRegisterFromBytes bs) = le_decode bs.
Proof.
  intros H. unfold op.DwarfRegisterFromBytes. rewrite H. cbn.
  rewrite take_ge by lia. reflexivity.
Qed.

(** X7.  A frame without frame description is unwound through the frame
    record the frame pointer points at: with the frame pointer [bp], the CFA
    is [bp+16], the return address is the word at [bp+8], the caller's frame
    pointer the word at [bp] and the caller's SP the CFA.  The caller's link
    register is nil.  (Both words readable, the return address not zero, the
    frame not behind [runtime.sigpanic].) *)
Theorem arm64_frame_pointer_unwind
    (c1 c2 : Z) (bi : BinaryInfo) (mem : Memory) (it : stackIterator)
    (bpreg : op.DwarfRegister) (wfp wra : list byte) :
  let bp := op.Uint64Val bpreg in
  FDEForPC bi (pc it) = None ->
  op.SPRegNum (regs it) = regnum.ARM64_SP ->
  op.Reg (regs it) regnum.ARM64_BP = Some bpreg ->
  0 <= bp < 2 ^ 63 - 16 ->
  ReadMemory mem bp 8 = Some wfp ->
  ReadMemory mem (bp + 8) 8 = Some wra ->
  fnNamed (Fn (Call (frame_ it))) "runtime.sigpanic" = false ->
  le_decode wra <> 0 ->
  exists cfr,
    advanceRegs bi (arm64Core c1 c2) mem it
    = (set_regs it (op.set_CFA (regs it) (bp + 16)), cfr, le_decode wra, bp + 8)
    /\ op.Reg cfr regnum.ARM64_SP = Some (op.DwarfRegisterFromUint64 (bp + 16))
    /\ op.Reg cfr regnum.ARM64_BP = Some (op.DwarfRegisterFromBytes wfp)
    /\ op.Reg cfr regnum.ARM64_PC = Some (op.DwarfRegisterFromBytes wra)
    /\ op.Reg cfr regnum.ARM64_LR = None.
Proof.
  intros bp Hfde Hsp Hbp Hrange Hfp Hra Hsig Hnz.
  assert (Hcfa : uint64 (int64 bp + 16) = bp + 16).
  { rewrite int64_small by lia. apply uint64_small. lia. }
  unfold advanceRegs.
  change (fixFrameUnwindContext (arm64Core c1 c2)) with (arm64FixFrameUnwindContext c1 c2).
  rewrite Hfde.
  change (arm64FixFrameUnwindContext c1 c2 None (pc it) bi) with (arm64DefaultContext 8).
  set (ctx := arm64DefaultContext 8).
  assert (Hctx : executeFrameRegRule bi (arm64Core c1 c2) mem it 0 (frame.CFA ctx) 0
                 = (Some (op.DwarfRegisterFromUint64 (bp + 16)), None)).
  { unfold executeFrameRegRule. change (frame.rule (frame.CFA ctx)) with frame.RuleCFA.
    change (frame.Reg (frame.CFA ctx)) with regnum.ARM64_BP.
    change (frame.Offset (frame.CFA ctx)) with 16.
    unfold op.Uint64Val_at. rewrite Hbp. fold bp. rewrite Hcfa. reflexivity. }
  rewrite Hctx.
  change (op.Uint64Val (op.DwarfRegisterFromUint64 (bp + 16))) with (bp + 16).
  rewrite (int64_small (bp + 16)) by lia.
  set (it1 := set_regs it (op.set_CFA (regs it) (bp + 16))).
  unfold advanceRegsLoop.
  set (st0 := mkAdvanceState it1 _ 0 0).
  set (l := map_to_list (frame.Regs ctx)).
  change (frame.RetAddrReg ctx) with regnum.ARM64_PC.
  assert (Hnd : NoDup l.*1) by apply NoDup_fst_map_to_list.
  assert (Hin : forall i r, frame.Regs ctx !! i = Some r -> (i, r) ∈ l).
  { intros i r H. apply elem_of_map_to_list. exact H. }
  assert (Hrd : forall i off, (i <? 64) = true ->
            executeFrameRegRule bi (arm64Core c1 c2) mem it1 i
              (frame.mkDWRule frame.RuleOffset off 0 []) (bp + 16)
            = match ReadMemory mem (uint64 (bp + 16 + off)) 8 with
              | Some buf => (Some (op.DwarfRegisterFromBytes buf), None)
              | None => (None, Some (ErrReadMemory (uint64 (bp + 16 + off))))
              end).
  { intros i off Hi. unfold executeFrameRegRule, readRegisterAt. cbn [frame.rule frame.Offset].
    change (regSize (arm64Core c1 c2) i) with (arm64RegSize i). unfold arm64RegSize.
    apply Z.ltb_lt in Hi. destruct (Z.leb_spec 64 i) as [H64|_]; [lia|]. cbn [andb].
    destruct (ReadMemory mem (uint64 (bp + 16 + off)) 8); reflexivity. }
  assert (Hpc : executeFrameRegRule bi (arm64Core c1 c2) mem it1 regnum.ARM64_PC
                  (frame.mkDWRule frame.RuleOffset (-8) 0 []) (bp + 16)
                = (Some (op.DwarfRegisterFromBytes wra), None)).
  { rewrite Hrd by reflexivity.
    replace (uint64 (bp + 16 + -8)) with (bp + 8)
      by (symmetry; rewrite uint64_small by lia; lia).
    rewrite Hra. reflexivity. }
  assert (Hbpr : executeFrameRegRule bi (arm64Core c1 c2) mem it1 regnum.ARM64_BP
                  (frame.mkDWRule frame.RuleOffset (-16) 0 []) (bp + 16)
                = (Some (op.DwarfRegisterFromBytes wfp), None)).
  { rewrite Hrd by reflexivity.
    replace (uint64 (bp + 16 + -16)) with bp
      by (symmetry; rewrite uint64_small by lia; lia).
    rewrite Hfp. reflexivity. }
  destruct (advanceRegsLoop_at_RA bi (arm64Core c1 c2) mem regnum.ARM64_PC
              (frame.mkDWRule frame.RuleOffset (-8) 0 []) l st0 Hnd)
    as (H1 & H2 & H3).
  { apply Hin. reflexivity. }
  assert (Hstep : advanceRegsStep bi (arm64Core c1 c2) mem regnum.ARM64_PC st0
                    (regnum.ARM64_PC, frame.mkDWRule frame.RuleOffset (-8) 0 [])
                  = mkAdvanceState it1
                      (op.AddReg (callFrameRegs st0) regnum.ARM64_PC
                         (Some (op.DwarfRegisterFromBytes wra)))
                      (le_decode wra) (bp + 8)).
  { unfold advanceRegsStep. cbn [as_it st0].
    change (op.CFA (regs it1)) with (bp + 16). rewrite Hpc.
    rewrite bool_decide_eq_true_2 by reflexivity.
    change (frame_ it1) with (frame_ it). rewrite Hsig. cbn [andb].
    rewrite DwarfRegisterFromBytes_word by (eapply ReadMemory_length; exact Hra).
    cbn [frame.Offset]. change (op.CFA (regs it1)) with (bp + 16).
    replace (uint64 (bp + 16 + -8)) with (bp + 8)
      by (symmetry; rewrite uint64_small by lia; lia).
    reflexivity. }
  rewrite Hstep in H1, H2, H3. cbn [as_it as_ret as_retaddr] in H1, H2, H3.
  eexists. split.
  - rewrite H1, H2, H3. cbn [usesLR arm64Core].
    destruct (op.Reg (regs it1) (op.LRRegNum (regs it1))) as [lr|].
    + destruct (Z.eqb_spec (le_decode wra) 0) as [Hz|_]; [contradiction|]. reflexivity.
    + reflexivity.
  - split; [|split; [|split]].
    + rewrite (advanceRegsLoop_reg_rule bi (arm64Core c1 c2) mem _ l st0 regnum.ARM64_SP
                 (frame.mkDWRule frame.RuleValOffset 0 0 []) Hnd) by (apply Hin; reflexivity).
      unfold executeFrameRegRule. cbn [frame.rule frame.Offset as_it st0].
      change (op.CFA (regs it1)) with (bp + 16).
      rewrite Z.add_0_r, uint64_small by lia. reflexivity.
    + rewrite (advanceRegsLoop_reg_rule bi (arm64Core c1 c2) mem _ l st0 regnum.ARM64_BP
                 (frame.mkDWRule frame.RuleOffset (-16) 0 []) Hnd) by (apply Hin; reflexivity).
      cbn [as_it st0]. change (op.CFA (regs it1)) with (bp + 16). rewrite Hbpr. reflexivity.
    + rewrite (advanceRegsLoop_reg_rule bi (arm64Core c1 c2) mem _ l st0 regnum.ARM64_PC
                 (frame.mkDWRule frame.RuleOffset (-8) 0 []) Hnd) by (apply Hin; reflexivity).
      cbn [as_it st0]. change (op.CFA (regs it1)) with (bp + 16). rewrite Hpc. reflexivity.
    + rewrite advanceRegsLoop_reg_other.
      * unfold st0. cbn [callFrameRegs]. rewrite Reg_AddReg.
        cbn [op.SPRegNum]. change (op.SPRegNum (regs it1)) with (op.SPRegNum (regs it)).
        rewrite Hsp. reflexivity.
      * intros Hl. apply list_elem_of_fmap in Hl. destruct Hl as ([j r] & Hj & Hl).
        apply elem_of_map_to_list in Hl. simpl in Hj. subst j. discriminate Hl.
Qed.

(** The frame of [ExInline]: frame pointer 0x7010, so the CFA is 0x7020 and
    the return address 0x400f00 is read at 0x7018. *)
Lemma arm64_frame_pointer_unwind_witness :
  exists cfr,
    advanceRegs strippedBinary (arm64Core 8 88) ExInline.mem ExInline.it0
    = (set_regs ExInline.it0 (op.set_CFA (regs ExInline.it0) 0x7020), cfr, 0x400f00, 0x7018)
    /\ op.Reg cfr regnum.ARM64_BP = Some (op.DwarfRegisterFromBytes (le_encode 8 0x7040)).
Proof.
  unshelve refine (let H := arm64_frame_pointer_unwind 8 88 strippedBinary ExInline.mem
                              ExInline.it0 (op.DwarfRegisterFromUint64 0x7010)
                              (le_encode 8 0x7040) (le_encode 8 0x400f00) _ _ _ _ _ _ _ _ in _).
  - reflexivity.
  - reflexivity.
  - vm_compute. reflexivity.
  - simpl. lia.
  - vm_compute. reflexivity.
  - vm_compute. reflexivity.
  - reflexivity.
  - vm_compute. discriminate.
  - destruct H as (cfr & H1 & _ & H2 & _). exists cfr. split; [exact H1 | exact H2].
Defined.

(** ** The arm64 unwind context *)

Section FixContext.

Context (c1 c2 : Z) (bi : BinaryInfo).

Lemma regRule_set_Reg ctx i r j :
  frame.regRule (frame.set_Reg ctx i r) j
  = if bool_decide (i = j) then r else frame.regRule ctx j.
Proof.
  unfold frame.regRule, frame.set_Reg. cbn.
  destruct (decide (i = j)) as [->|Hne].
  - rewrite bool_decide_eq_true_2 by reflexivity. rewrite lookup_insert_eq. reflexivity.
  - rewrite bool_decide_eq_false_2 by exact Hne. rewrite lookup_insert_ne by exact Hne.
    reflexivity.
Qed.

Lemma withFramePointerRules_spec f :
  let ctx := withFramePointerRules f in
  frame.rule (frame.regRule ctx regnum.ARM64_BP) <> frame.RuleUndefined
  /\ frame.rule (frame.regRule ctx regnum.ARM64_LR) <> frame.RuleUndefined
  /\ frame.RetAddrReg ctx = frame.RetAddrReg f
  /\ frame.CFA ctx = frame.CFA f
  /\ (forall i r, frame.Regs f !! i = Some r -> frame.rule r <> frame.RuleUndefined ->
        frame.Regs ctx !! i = Some r)
  /\ (forall i, i <> regnum.ARM64_BP -> i <> regnum.ARM64_LR ->
        frame.Regs ctx !! i = frame.Regs f !! i).
Proof.
  cbv zeta. unfold withFramePointerRules.
  set (f1 := match frame.rule (frame.regRule f regnum.ARM64_BP) with
             | frame.RuleUndefined => _
             | _ => f
             end).
  assert (H1 : frame.rule (frame.regRule f1 regnum.ARM64_BP) <> frame.RuleUndefined
               /\ frame.RetAddrReg f1 = frame.RetAddrReg f
               /\ frame.CFA f1 = frame.CFA f
               /\ (forall i r, frame.Regs f !! i = Some r ->
                     frame.rule r <> frame.RuleUndefined -> frame.Regs f1 !! i = Some r)
               /\ (forall i, i <> regnum.ARM64_BP -> frame.Regs f1 !! i = frame.Regs f !! i)).
  { subst f1. destruct (frame.rule (frame.regRule f regnum.ARM64_BP)) eqn:E;
      try (split; [rewrite E; discriminate | auto]).
    split; [rewrite regRule_set_Reg, bool_decide_eq_true_2 by reflexivity; discriminate|].
    split; [reflexivity|]. split; [reflexivity|]. split.
    - intros i r Hi Hr. cbn. destruct (decide (i = regnum.ARM64_BP)) as [->|Hne].
      + exfalso. apply Hr. unfold frame.regRule in E. rewrite Hi in E. exact E.
      + rewrite lookup_insert_ne by congruence. exact Hi.
    - intros i Hne. cbn. rewrite lookup_insert_ne by congruence. reflexivity. }
  destruct H1 as (B1 & B2 & B3 & B4 & B5).
  destruct (frame.rule (frame.regRule f1 regnum.ARM64_LR)) eqn:E.
  1: {
    split; [rewrite regRule_set_Reg, bool_decide_eq_false_2 by discriminate; exact B1|].
    split; [rewrite regRule_set_Reg, bool_decide_eq_true_2 by reflexivity; discriminate|].
    split; [exact B2|]. split; [exact B3|]. split.
    - intros i r Hi Hr. cbn. destruct (decide (i = regnum.ARM64_LR)) as [->|Hne].
      + exfalso. apply Hr. unfold frame.regRule in E. rewrite (B4 _ _ Hi Hr) in E. exact E.
      + rewrite lookup_insert_ne by congruence. apply B4; assumption.
    - intros i Hb Hl. cbn. rewrite lookup_insert_ne by congruence. apply B5. exact Hb. }
  all: split; [exact B1|]; split; [rewrite E; discriminate|];
       split; [exact B2|]; split; [exact B3|]; split; [exact B4|];
       intros i Hb _; apply B5; exact Hb.
Qed.

(** X8.  The context [arm64FixFrameUnwindContext] returns always has a rule
    for the frame pointer.  When the frame description is used (there is
    one, and the PC is outside [runtime.sigreturn]) it also has a rule for
    the link register, it keeps the return-address register of the
    description, every rule of the description that is not undefined, and
    the rules of all registers other than BP and LR as they are; the CFA rule
    changes only inside [crosscall2]. *)
Theorem arm64FixFrameUnwindContext_rules (fctxt : option frame.FrameContext) (pc : Z) :
  let ctx := arm64FixFrameUnwindContext c1 c2 fctxt pc bi in
  frame.rule (frame.regRule ctx regnum.ARM64_BP) <> frame.RuleUndefined
  /\ match fctxt with
     | None => True
     | Some f =>
         if inFunc (lookupOneFunc bi "runtime.sigreturn") pc then True
         else
           frame.rule (frame.regRule ctx regnum.ARM64_LR) <> frame.RuleUndefined
           /\ frame.RetAddrReg ctx = frame.RetAddrReg f
           /\ (forall i r, frame.Regs f !! i = Some r ->
                 frame.rule r <> frame.RuleUndefined -> frame.Regs ctx !! i = Some r)
           /\ (forall i, i <> regnum.ARM64_BP -> i <> regnum.ARM64_LR ->
                 frame.Regs ctx !! i = frame.Regs f !! i)
           /\ (inFunc (lookupOneFunc bi "crosscall2") pc = false ->
                 frame.CFA ctx = frame.CFA f)
     end.
Proof.
  cbv zeta. unfold arm64FixFrameUnwindContext.
  destruct fctxt as [f|]; [|split; [vm_compute; discriminate | exact I]].
  destruct (inFunc (lookupOneFunc bi "runtime.sigreturn") pc);
    [split; [vm_compute; discriminate | exact I]|].
  set (f0 := if inFunc (lookupOneFunc bi "crosscall2") pc then _ else f).
  assert (H0 : frame.Regs f0 = frame.Regs f /\ frame.RetAddrReg f0 = frame.RetAddrReg f
               /\ (inFunc (lookupOneFunc bi "crosscall2") pc = false
                   -> frame.CFA f0 = frame.CFA f)).
  { subst f0. destruct (inFunc (lookupOneFunc bi "crosscall2") pc).
    - split; [reflexivity|]. split; [reflexivity|]. discriminate.
    - auto. }
  destruct H0 as (R0 & A0 & C0).
  fold (withFramePointerRules f0).
  destruct (withFramePointerRules_spec f0) as (S1 & S2 & S3 & S4 & S5 & S6).
  split; [exact S1|]. split; [exact S2|]. split; [congruence|].
  split; [intros i r Hi Hr; apply S5; [rewrite R0; exact Hi | exact Hr]|].
  split; [intros i Hb Hl; rewrite S6 by assumption; rewrite R0; reflexivity|].
  intros Hc. rewrite S4. apply C0. exact Hc.
Qed.

End FixContext.

(** ** Building a stack frame *)

Section FrameMore.

Context (bi : BinaryInfo) (mem : Memory).

Ltac break_frame :=
  repeat match goal with
         | |- context [match op.Reg ?r ?i with _ => _ end] => destruct (op.Reg r i)
         | |- context [if ?b then _ else _] => destruct b
         | |- context [let '(_, _) := ?p in _] => destruct p
         | |- context [match ?x with Some _ => _ | None => _ end] => destruct x
         end.

(** The shape of the frame [newStackframe] builds. *)
Lemma newStackframe_shape (it : stackIterator) (ret retaddr : Z) :
  retaddr <> 0 ->
  exists f l cf cl rg lp cp,
    snd (newStackframe bi mem it ret retaddr)
    = mkStackframe (mkLocation (pc it) f l (snd (PCToLine bi (pc it))))
        (mkLocation (pc it) cf cl (snd (PCToLine bi (pc it))))
        rg (stackhi it) ret None (systemstack it) false false false lp cp None []
    /\ op.Reg rg (op.PCRegNum (regs it)) <> None
    /\ ((lp = pc it /\ cf = f /\ cl = l) \/ (lp = uint64 (pc it - 1) /\ top it = false)).
Proof.
  intros Hra. unfold newStackframe.
  destruct (Z.eqb_spec retaddr 0) as [|_]; [contradiction|].
  destruct (PCToLine bi (pc it)) as [[f l] [fn|]]; cbn [snd].
  - cbn [top pc sigret g systemstack stackhi regs set_regs Regs].
    set (rg0 := op.set_FrameBase (regs it) (frameBase bi mem it fn)).
    change (op.PCRegNum rg0) with (op.PCRegNum (regs it)).
    destruct (op.Reg rg0 (op.PCRegNum (regs it))) eqn:E.
    all: destruct (top it); cbn [negb andb];
      repeat match goal with
             | |- context [if ?b then _ else _] => destruct b
             | |- context [let '(_, _) := ?p in _] => destruct p
             | |- context [match ?x with Some _ => _ | None => _ end] => destruct x
             end; cbn -[op.AddReg op.Reg uint64];
      do 7 eexists; (split; [reflexivity|]); (split; [|auto]);
      cbn [Regs set_Regs set_Call set_lastpc set_closurePtr];
      first [ rewrite E; discriminate
            | rewrite Reg_AddReg, bool_decide_eq_true_2 by reflexivity; discriminate ].
  - cbn [top pc sigret g systemstack stackhi regs set_regs Regs].
    destruct (op.Reg (regs it) (op.PCRegNum (regs it))) eqn:E; cbn -[op.AddReg op.Reg uint64];
      do 7 eexists; (split; [reflexivity|]); (split; [|auto]); cbn [Regs set_Regs set_Call set_lastpc set_closurePtr].
    + rewrite E. discriminate.
    + rewrite Reg_AddReg, bool_decide_eq_true_2 by reflexivity. discriminate.
Qed.

(** X9.  The frame [newStackframe] builds for a non-zero [retaddr]:
    [Call.PC] is always [Current.PC], the iterator's PC, and [Call.Fn] is
    [Current.Fn]; only file and line of [Call] can differ from [Current].
    For the topmost frame [Call] is [Current] and [lastpc] is the PC; for
    every frame [lastpc] is the PC and [Call] is [Current], or [lastpc] is
    the PC minus one.  The frame carries [ret], the iterator's [stackhi] and
    [systemstack], no error, and its registers always include the PC
    register. *)
Theorem newStackframe_locations (it : stackIterator) (ret retaddr : Z) :
  retaddr <> 0 ->
  let fr := snd (newStackframe bi mem it ret retaddr) in
  PC (Current fr) = pc it
  /\ PC (Call fr) = pc it
  /\ Fn (Call fr) = Fn (Current fr)
  /\ Fn (Current fr) = snd (PCToLine bi (pc it))
  /\ (top it = true -> Call fr = Current fr /\ lastpc fr = pc it)
  /\ ((lastpc fr = pc it /\ Call fr = Current fr) \/ lastpc fr = uint64 (pc it - 1))
  /\ Ret fr = ret /\ stackHi fr = stackhi it /\ SystemStack fr = systemstack it
  /\ Err fr = None /\ Inlined fr = false
  /\ op.Reg (Regs fr) (op.PCRegNum (regs it)) <> None.
Proof.
  intros Hra fr.
  destruct (newStackframe_shape it ret retaddr Hra)
    as (f & l & cf & cl & rg & lp & cp & Hfr & Hpc & Hlp).
  subst fr. rewrite Hfr. cbn.
  repeat split; auto.
  - destruct Hlp as [(_ & -> & ->)|[_ Ht]]; [reflexivity | congruence].
  - destruct Hlp as [(-> & _)|[_ Ht]]; [reflexivity | congruence].
  - destruct Hlp as [(-> & -> & ->)|[-> _]]; auto.
Qed.

Lemma newStackframe_closure (it : stackIterator) (ret retaddr : Z) (gg : G.t)
    (fn : Function) (f : string) (l : Z) :
  retaddr <> 0 ->
  PCToLine bi (pc it) = (f, l, Some fn) ->
  g it = Some gg ->
  systemstack it = false ->
  imageStripped (cu fn) = false ->
  getDwarfTree bi fn = true ->
  exists r,
    closurePtr r = 0
    /\ snd (newStackframe bi mem it ret retaddr)
       = (let c := readLocalPtrVar_closureptr bi fn (Regs r) mem in
          if c =? 0 then r
          else if (G.stack_lo gg <=? c) && (c <? G.stack_hi gg)
               then set_closurePtr r (int64 (int64 c - int64 (G.stack_hi gg)))
               else set_closurePtr r (int64 c)).
Proof.
  intros Hra Hline Hg Hsys Hstrip Htree. unfold newStackframe.
  destruct (Z.eqb_spec retaddr 0) as [|_]; [contradiction|].
  rewrite Hline. cbn [top pc sigret g systemstack stackhi regs set_regs Regs].
  rewrite Hg, Hstrip, Htree.
  set (rg0 := op.set_FrameBase (regs it) (frameBase bi mem it fn)).
  destruct (op.Reg rg0 (op.PCRegNum rg0));
    repeat match goal with
           | |- context [if ?b && negb (sigret it) then _ else _] =>
               destruct (b && negb (sigret it))
           | |- context [if bool_decide ?p || ?q then _ else _] =>
               destruct (bool_decide p || q)
           | |- context [let '(_, _) := ?p in _] => destruct p
           end;
    cbn [SystemStack set_Call set_Regs set_lastpc]; rewrite Hsys; cbn [negb andb snd];
    eexists; (split; [|reflexivity]); reflexivity.
Qed.

(** X10.  A closure pointer that lies on the goroutine's stack is recorded
    in the frame as its offset from the stack's high address, a negative
    number.  [contains] undoes the encoding: on a frame of the same stack it
    tests whether the pointer [c] itself lies above SP and at or below the
    CFA. *)
Theorem newStackframe_closurePtr_stack
    (it : stackIterator) (ret retaddr : Z) (gg : G.t) (fn : Function) (f : string)
    (l c : Z) (fr' : Stackframe) :
  retaddr <> 0 ->
  PCToLine bi (pc it) = (f, l, Some fn) ->
  g it = Some gg ->
  systemstack it = false ->
  imageStripped (cu fn) = false ->
  getDwarfTree bi fn = true ->
  let fr := snd (newStackframe bi mem it ret retaddr) in
  readLocalPtrVar_closureptr bi fn (Regs fr) mem = c ->
  0 <= G.stack_lo gg -> G.stack_lo gg <= c < G.stack_hi gg -> c <> 0 ->
  G.stack_hi gg < 2 ^ 63 ->
  stackHi fr' = G.stack_hi gg ->
  closurePtr fr = c - G.stack_hi gg
  /\ closurePtr fr < 0
  /\ contains fr' (closurePtr fr)
     = (op.SP (Regs fr') <? c) && (c <=? uint64 (op.CFA (Regs fr'))).
Proof.
  intros Hra Hline Hg Hsys Hstrip Htree fr Hc Hlo Hin Hnz Hhi Hfr'.
  destruct (newStackframe_closure it ret retaddr gg fn f l Hra Hline Hg Hsys Hstrip Htree)
    as (r & Hr0 & Hr).
  assert (Hregs : Regs fr = Regs r).
  { subst fr. rewrite Hr. cbv zeta.
    destruct (_ =? 0); [reflexivity|]. destruct (_ && _); reflexivity. }
  rewrite Hregs in Hc.
  assert (Hcp : closurePtr fr = c - G.stack_hi gg).
  { subst fr. rewrite Hr. cbv zeta. rewrite Hc.
    destruct (Z.eqb_spec c 0) as [|_]; [contradiction|].
    destruct (Z.leb_spec (G.stack_lo gg) c) as [_|]; [|lia].
    destruct (Z.ltb_spec c (G.stack_hi gg)) as [_|]; [|lia].
    cbn. rewrite (int64_small c), (int64_small (G.stack_hi gg)) by lia.
    apply int64_small. lia. }
  rewrite Hcp. split; [reflexivity|]. split; [lia|].
  unfold contains. rewrite Hfr', (int64_small (G.stack_hi gg)) by lia.
  replace (c - G.stack_hi gg + G.stack_hi gg) with c by lia.
  rewrite uint64_small by lia. reflexivity.
Qed.

End FrameMore.

(** The frame of [ExEnd]: the topmost one, so [Call] is [Current]. *)
Lemma newStackframe_locations_witness :
  let fr := snd (newStackframe strippedBinary ExEnd.mem ExEnd.it1 0 0x2008) in
  PC (Call fr) = 0x401000 /\ Call fr = Current fr /\ lastpc fr = 0x401000.
Proof.
  unshelve refine (let H := newStackframe_locations strippedBinary ExEnd.mem ExEnd.it1
                              0 0x2008 _ in _).
  - discriminate.
  - cbv zeta in H. destruct H as (_ & H2 & _ & _ & H5 & _).
    destruct (H5 eq_refl) as [H6 H7]. cbv zeta. split; [exact H2|]. split; [exact H6|exact H7].
Defined.

(** The loop body of [ExClosure]: its closure pointer 0x7008 is recorded as
    -0xff8, and the frame, whose SP is 0x7000 and whose CFA is 0x7020,
    contains it. *)
Lemma newStackframe_closurePtr_stack_witness :
  closurePtr ExClosure.bodyFrame = -0xff8
  /\ contains ExClosure.bodyFrame (closurePtr ExClosure.bodyFrame) = true.
Proof.
  unshelve refine (let H := newStackframe_closurePtr_stack ExClosure.bi ExRange.mem
                              ExClosure.it1 0x404020 0x7018 ExRange.gor ExRange.body
                              "body.go" 7 0x7008 ExClosure.bodyFrame
                              _ _ _ _ _ _ _ _ _ _ _ _ in _).
  - discriminate.
  - reflexivity.
  - reflexivity.
  - reflexivity.
  - reflexivity.
  - reflexivity.
  - reflexivity.
  - simpl. lia.
  - simpl. lia.
  - discriminate.
  - simpl. lia.
  - reflexivity.
  - cbv zeta in H. destruct H as (H1 & _ & H3). split.
    + exact H1.
    + refine (eq_trans H3 _). vm_compute. reflexivity.
Defined.

(** ** What the arm64 stack switch leaves alone *)

Section Kept.

Context (bi : BinaryInfo) (mem : Memory).

Lemma advanceRegs_kept (a : ArchCore) it it' cfr ret retaddr :
  advanceRegs bi a mem it = (it', cfr, ret, retaddr) -> kept it' = kept it.
Proof.
  intros H. destruct (advanceRegs_it_shape bi a mem it) as (cfa & e & He).
  rewrite H in He. cbn [fst] in He. subst it'. reflexivity.
Qed.

Lemma newStackframe_it it ret retaddr :
  fst (newStackframe bi mem it ret retaddr) = set_err it (Some NullAddrError)
  \/ exists fb, fst (newStackframe bi mem it ret retaddr)
                = set_regs it (op.set_FrameBase (regs it) fb).
Proof.
  unfold newStackframe. destruct (retaddr =? 0); [left; reflexivity|].
  right. destruct (PCToLine bi (pc it)) as [[f l] [fn|]]; cbn [fst].
  - eexists. reflexivity.
  - exists (op.FrameBase (regs it)). destruct it as [? ? ? ? ? ? ? ? ? r ? ? ? ? ?].
    destruct r. reflexivity.
Qed.

Lemma newStackframe_kept it ret retaddr it' fr :
  newStackframe bi mem it ret retaddr = (it', fr) -> kept it' = kept it.
Proof.
  intros H. destruct (newStackframe_it it ret retaddr) as [He|[fb He]];
    rewrite H in He; cbn [fst] in He; subst it'; reflexivity.
Qed.

Lemma loadG0SchedSP_kept it : kept (loadG0SchedSP it) = kept it.
Proof.
  unfold loadG0SchedSP. destruct (g0_sched_sp_loaded it); [reflexivity|].
  cbn [g set_g0_sched_sp_loaded]. destruct (g it) as [gg|]; [|reflexivity].
  destruct (G.g0SP gg); reflexivity.
Qed.

Lemma switchToGoroutineStack_kept (a : ArchCore) it it' e :
  switchToGoroutineStack a it = Ok (it', e) -> kept it' = kept it.
Proof.
  unfold switchToGoroutineStack. destruct (g it) as [gg|]; [|intros H; inversion H; reflexivity].
  intros H. apply rbind_Ok in H. destruct H as (r & _ & H).
  destruct (usesLR a).
  - destruct (op.Reg _ _); [|inversion H; reflexivity].
    apply rbind_Ok in H. destruct H as (r' & _ & H). inversion H. reflexivity.
  - inversion H. reflexivity.
Qed.

End Kept.

Section ARM64Kept.

Context (linux : bool) (c1 c2 : Z) (bi : BinaryInfo) (mem : Memory).

Lemma keptResult_bind {A : Type} it (m : Result A) (k : A -> switchResult) :
  (forall x, m = Ok x -> keptResult it (k x)) -> keptResult it (m ≫= k).
Proof. intros H. destruct m as [x| |]; [apply H; reflexivity | exact I | exact I]. Qed.

Lemma set_Ret_eq f f' : set_Ret f' 0 = set_Ret f 0 -> f' = set_Ret f (Ret f').
Proof. destruct f, f'. cbn. intros H. inversion H. reflexivity. Qed.

Ltac kept_solve it :=
  unfold keptResult;
  repeat match goal with
         | H : newStackframe _ _ ?i _ _ = (?i', _) |- kept _ = _ =>
             transitivity (kept i'); [reflexivity|];
             rewrite (newStackframe_kept _ _ _ _ _ _ _ H); clear H
         | H : advanceRegs _ _ _ ?i = (?i', _, _, _) |- kept _ = _ =>
             transitivity (kept i'); [reflexivity|];
             rewrite (advanceRegs_kept _ _ _ _ _ _ _ _ H); clear H
         end;
  first [ reflexivity
        | transitivity (kept (loadG0SchedSP it));
          [reflexivity | apply loadG0SchedSP_kept] ].

Lemma switchOrFail_kept it0 it cfr :
  kept it = kept it0 -> keptResult it0 (switchOrFail c1 c2 it cfr).
Proof.
  intros Hk. unfold switchOrFail. apply keptResult_bind. intros [itg e] H.
  apply switchToGoroutineStack_kept in H.
  destruct e; cbn; rewrite <- Hk, <- H; reflexivity.
Qed.

Lemma arm64SwitchStackCaller_kept it cfr :
  keptResult it (arm64SwitchStackCaller c1 c2 bi mem it cfr).
Proof.
  unfold arm64SwitchStackCaller.
  destruct (PCToFunc bi (Ret (frame_ it))) as [fn|]; [|reflexivity].
  repeat match goal with
         | |- keptResult _ (if ?c then _ else _) => destruct c
         | |- keptResult _ (Ok _) => kept_solve it
         | |- keptResult _ (_ ≫= _) => apply keptResult_bind; intros ? _
         end.
Qed.

Lemma arm64SwitchStack_keptResult (it : stackIterator) (cfr : op.DwarfRegisters) :
  keptResult it (arm64SwitchStack linux c1 c2 bi mem it cfr).
Proof.
  unfold arm64SwitchStack.
  destruct (Fn (Current (frame_ it))) as [curfn|].
  2: { destruct (systemstack it && bool_decide (g it ≠ None) && top it);
       [apply switchOrFail_kept; reflexivity | reflexivity]. }
  repeat match goal with
         | |- keptResult _ (switchOrFail _ _ _ _) => apply switchOrFail_kept; reflexivity
         | |- keptResult _ (arm64SwitchStackCaller _ _ _ _ _ _) =>
             apply arm64SwitchStackCaller_kept
         | |- keptResult _ (if ?c then _ else _) => destruct c
         | |- keptResult _ (match g ?i with _ => _ end) => destruct (g i)
         | |- keptResult _ (let '(_, _) := ?p in _) => destruct p eqn:?
         | |- keptResult _ (_ ≫= _) => apply keptResult_bind; intros ? _
         | |- keptResult _ (Ok _) => kept_solve it
         end.
Qed.

Lemma kept_fields it it' :
  kept it' = kept it ->
  frame_ it' = set_Ret (frame_ it) (Ret (frame_ it'))
  /\ count it' = count it /\ opts it' = opts it /\ g it' = g it
  /\ stackhi it' = stackhi it /\ target it' = target it.
Proof.
  intros H. unfold kept in H.
  apply pair_equal_spec in H as [H Ht]. apply pair_equal_spec in H as [H Hs].
  apply pair_equal_spec in H as [H Hg]. apply pair_equal_spec in H as [H Ho].
  apply pair_equal_spec in H as [Hf Hc].
  repeat split; try assumption. apply set_Ret_eq. exact Hf.
Qed.

(** X11.  Of the frame the iterator points at, the stack-switch hook of
    arm64 assigns nothing but the return address; what its stores to the
    registers of [it.regs] change are the registers the frame shares with
    them, which are left out here.  It never writes the frame counter, the
    options, the goroutine, the stack's high address or the target. *)
Theorem arm64SwitchStack_kept (it : stackIterator) (cfr : op.DwarfRegisters) :
  match arm64SwitchStack linux c1 c2 bi mem it cfr with
  | Ok (_, it', _) =>
      withoutRegisters (frame_ it')
      = withoutRegisters (set_Ret (frame_ it) (Ret (frame_ it')))
      /\ count it' = count it /\ opts it' = opts it /\ g it' = g it
      /\ stackhi it' = stackhi it /\ target it' = target it
  | _ => True
  end.
Proof.
  pose proof (arm64SwitchStack_keptResult it cfr) as H.
  unfold keptResult in H.
  destruct (arm64SwitchStack linux c1 c2 bi mem it cfr) as [[[b it'] cfr']| |]; try exact I.
  apply kept_fields in H. destruct H as (Hf & H).
  split; [|exact H]. rewrite <- Hf. reflexivity.
Qed.

End ARM64Kept.

(** ** The frames the iterator delivers *)

Section NextFrame.

Context (bi : BinaryInfo) (a : Arch) (mem : Memory).

Hypothesis switchStack_kept :
  forall it cfr, keptResult it (switchStack a bi mem it cfr).

Lemma newStackframe_physOk it ret retaddr :
  physOk (snd (newStackframe bi mem it ret retaddr)).
Proof.
  destruct (Z.eq_dec retaddr 0) as [->|Hne].
  - unfold newStackframe. cbn. repeat split.
  - destruct (newStackframe_shape bi mem it ret retaddr Hne)
      as (f & l & cf & cl & rg & lp & cp & Hfr & _ & _).
    rewrite Hfr. repeat split.
Qed.

Lemma sigtrampHop_kept it ith : sigtrampHop bi mem it = Some ith -> kept ith = kept it.
Proof.
  unfold sigtrampHop.
  destruct (fnNamed _ _ && target it); [|discriminate].
  destruct (readSigtrampgoContext bi it mem) as [r|]; [|discriminate].
  intros H. inversion H. cbn [g set_top set_regs set_pc].
  destruct (g it) as [gg|]; [|reflexivity].
  destruct (negb (G.ID gg =? 0)); reflexivity.
Qed.

(** The frame a successful [Next] leaves in the iterator is the frame
    [newStackframe] built, up to its return address. *)
Lemma Next_frame it it' :
  Next bi a mem it = Ok (true, it') ->
  exists it1 ret retaddr,
    frame_ it' = set_Ret (snd (newStackframe bi mem it1 ret retaddr)) (Ret (frame_ it'))
    /\ count it' = count it /\ opts it' = opts it /\ g it' = g it
    /\ stackhi it' = stackhi it /\ target it' = target it.
Proof.
  unfold Next. destruct (bool_decide (err it ≠ None) || atend it); [discriminate|].
  destruct (advanceRegs bi a mem it) as [[[it1 cfr] ret] retaddr] eqn:Hadv.
  destruct (newStackframe bi mem it1 ret retaddr) as [it2 fr] eqn:Hnew.
  apply advanceRegs_kept in Hadv. apply newStackframe_kept in Hnew as Hk2.
  assert (Hbase : forall i, kept i = kept (set_frame it2 fr) ->
            frame_ i = set_Ret fr (Ret (frame_ i))
            /\ count i = count it /\ opts i = opts it /\ g i = g it
            /\ stackhi i = stackhi it /\ target i = target it).
  { intros i Hi. apply kept_fields in Hi. destruct Hi as (F & C & O & G & S & T).
    apply kept_fields in Hadv. destruct Hadv as (_ & C1 & O1 & G1 & S1 & T1).
    apply kept_fields in Hk2. destruct Hk2 as (_ & C2 & O2 & G2 & S2 & T2).
    cbn in F, C, O, G, S, T. repeat split; congruence. }
  intros H. exists it1, ret, retaddr. rewrite Hnew. cbn [snd].
  destruct (sigtrampHop bi mem (set_frame it2 fr)) as [ith|] eqn:Hhop.
  - inversion H; subst ith. apply Hbase. apply sigtrampHop_kept. exact Hhop.
  - apply rbind_Ok in H. destruct H as ([[sw it4] cfr'] & Hsw & H).
    assert (Hk4 : kept it4 = kept (set_frame it2 fr)).
    { destruct (hasOpt (opts (set_frame it2 fr)) StacktraceSimple).
      - inversion Hsw. reflexivity.
      - pose proof (switchStack_kept (set_frame it2 fr) cfr) as Hs.
        rewrite Hsw in Hs. exact Hs. }
    destruct sw.
    + inversion H; subst it4. apply Hbase. exact Hk4.
    + destruct (Ret (frame_ it4) <=? 0); inversion H; apply Hbase; rewrite <- Hk4;
        reflexivity.
Qed.

Lemma physOk_set_Ret f v : physOk f -> physOk (set_Ret f v).
Proof. intros H. exact H. Qed.

Lemma Next_physOk it it' :
  Next bi a mem it = Ok (true, it') -> physOk (frame_ it').
Proof.
  intros H. apply Next_frame in H. destruct H as (it1 & ret & retaddr & F & _).
  rewrite F. apply physOk_set_Ret. apply newStackframe_physOk.
Qed.

End NextFrame.

Section Delivered.

Context (bi : BinaryInfo) (a : Arch) (mem : Memory).

Hypothesis switchStack_kept :
  forall it cfr, keptResult it (switchStack a bi mem it cfr).

Context {St : Type} (cb : St -> Stackframe -> Result (bool * St)) (P : St -> Prop).

Hypothesis cb_delivered :
  forall s fr b s', P s -> delivered fr -> cb s fr = Ok (b, s') -> P s'.

Lemma inlineLoop_delivered callfn entries : forall it frame s it' frame' s',
  delivered frame -> P s ->
  inlineLoop bi cb callfn entries it frame s = Ok (it', frame', s') ->
  delivered frame' /\ P s'.
Proof.
  induction entries as [|entry rest IH]; intros it frame s it' frame' s' Hd HP H.
  - simpl in H. inversion H; subst. auto.
  - simpl in H.
    destruct (dwarf.AttrName entry) as [fnname|];
      [destruct (dwarf.AttrCallFile entry) as [fileidx|];
       [destruct (dwarf.AttrCallLine entry) as [line|]|]|].
    2-4: inversion H; subst; auto.
    change (Fn (Current (set_hasInlines frame true))) with (Fn (Current frame)) in H.
    destruct (Fn (Current frame)) as [curfn|]; [|discriminate].
    destruct (filePath bi curfn fileidx) as [filepath|e].
    + apply rbind_Ok in H. destruct H as ([b s1] & Hcb & H).
      apply cb_delivered in Hcb; [|exact HP|exact Hd].
      eapply IH; [|exact Hcb|exact H]. exact Hd.
    + inversion H; subst. auto.
Qed.

Lemma appendInlineCalls_delivered it frame s more it' s' :
  delivered frame -> P s ->
  appendInlineCalls bi cb it frame s = Ok (more, it', s') -> P s'.
Proof.
  intros Hd HP. unfold appendInlineCalls.
  assert (Hdeliver : forall it0 fr0 s0, delivered fr0 -> P s0 ->
            cb s0 fr0 ≫= (fun '(more0, s1) => Ok (more0, incCount it0, s1))
            = Ok (more, it', s') -> P s').
  { intros it0 fr0 s0 Hd0 HP0 H. apply rbind_Ok in H. destruct H as ([b s1] & Hcb & H).
    inversion H; subst. eapply cb_delivered; eassumption. }
  destruct (Fn (Call frame)) as [callfn|]; [|apply Hdeliver; assumption].
  destruct (negb (lineInfo (cu callfn))); [apply Hdeliver; assumption|].
  destruct (negb (getDwarfTree bi callfn)); [apply Hdeliver; assumption|].
  intros H. apply rbind_Ok in H. destruct H as ([[it1 frame1] s1] & Hloop & H).
  apply inlineLoop_delivered in Hloop; [|exact Hd|exact HP].
  destruct Hloop as [Hd1 HP1]. eapply Hdeliver; eassumption.
Qed.

Lemma nextLoop_delivered fuel : forall it s it' s',
  P s -> nextLoop bi a mem cb fuel it s = Ok (it', s') -> P s'.
Proof.
  induction fuel as [|fuel IH]; intros it s it' s' HP H; [discriminate|].
  rewrite nextLoop_S in H. apply rbind_Ok in H. destruct H as ([more it1] & Hnext & H).
  destruct more; [|inversion H; subst; exact HP].
  apply rbind_Ok in H. destruct H as ([[cont it2] s2] & Happ & H).
  apply (Next_physOk bi a mem switchStack_kept) in Hnext.
  apply appendInlineCalls_delivered in Happ; [| |exact HP].
  - destruct cont; [eapply IH; eassumption | inversion H; subst; exact Happ].
  - destruct Hnext as (H1 & _ & H3 & _). split; [exact H1 | exact H3].
Qed.

Lemma stacktraceFunc_delivered fuel it s it' s' :
  P s -> stacktraceFunc bi a mem cb fuel it s = Ok (it', s') -> P s'.
Proof.
  intros HP. unfold stacktraceFunc.
  destruct (hasOpt (opts it) StacktraceG && bool_decide (g it ≠ None)).
  - intros H. apply rbind_Ok in H. destruct H as ([itg e] & _ & H).
    destruct e; [inversion H; subst; exact HP|].
    eapply nextLoop_delivered; eassumption.
  - apply nextLoop_delivered. exact HP.
Qed.

End Delivered.

Section TraceFrames.

Context (bi : BinaryInfo) (a : Arch) (mem : Memory).

Hypothesis switchStack_kept :
  forall it cfr, keptResult it (switchStack a bi mem it cfr).

(** Every frame [stacktrace] returns has [Call.PC = Current.PC], and none
    but an error frame appended at the end has its [Err] set. *)
Lemma stacktrace_frames it depth it' frames e :
  stacktrace bi a mem it depth = Ok (it', frames, e) ->
  Forall (fun f => PC (Call f) = PC (Current f)) frames
  /\ exists body,
       Forall (fun f => Err f = None) body
       /\ (frames = body \/ exists e', err it' = Some e' /\ frames = body ++ [errorFrame e']).
Proof.
  unfold stacktrace. destruct (depth <? 0).
  { intros H. inversion H; subst. split; [constructor|]. exists []. split; [constructor|].
    left. reflexivity. }
  assert (Hcb : forall s fr (b : bool) s', Forall delivered s -> delivered fr ->
            collect depth s fr = Ok (b, s') -> Forall delivered s').
  { intros s fr b s' Hs Hfr H. unfold collect in H. inversion H; subst.
    apply Forall_app. split; [exact Hs|]. constructor; [exact Hfr|constructor]. }
  intros H. apply rbind_Ok in H. destruct H as ([it1 frames1] & H1 & H).
  apply (stacktraceFunc_delivered bi a mem switchStack_kept (collect depth)
           (Forall delivered) Hcb) in H1; [|constructor].
  apply rbind_Ok in H. destruct H as ([it2 frames2] & H2 & H).
  assert (Hd2 : Forall delivered frames2).
  { match type of H2 with
    | (if ?c then _ else _) = _ => destruct c
    end.
    - apply (stacktraceFunc_delivered bi a mem switchStack_kept (collect depth)
               (Forall delivered) Hcb) in H2; assumption.
    - inversion H2; subst. exact H1. }
  assert (Hpc : Forall (fun f => PC (Call f) = PC (Current f)) frames2)
    by (eapply Forall_impl; [exact Hd2 | intros f [Hf _]; exact Hf]).
  assert (Herr : Forall (fun f => Err f = None) frames2)
    by (eapply Forall_impl; [exact Hd2 | intros f [_ Hf]; exact Hf]).
  destruct (err it2) as [e2|] eqn:He2.
  - destruct frames2 as [|f0 rest].
    + inversion H; subst. split; [constructor|]. exists []. split; [constructor|].
      left. reflexivity.
    + assert (Hfr : frames = (f0 :: rest) ++ [errorFrame e2] /\ it' = it2)
        by (inversion H; auto).
      destruct Hfr as [-> ->]. split.
      * apply Forall_app. split; [exact Hpc|]. constructor; [reflexivity|constructor].
      * exists (f0 :: rest). split; [exact Herr|]. right. exists e2. auto.
  - inversion H; subst. split; [exact Hpc|]. exists frames. split; [exact Herr|].
    left. reflexivity.
Qed.

End TraceFrames.

(** X12.  On arm64 every frame [stacktrace] returns, synthetic frames and
    the error frame included, has [Call.PC] equal to [Current.PC]. *)
Theorem arm64_stacktrace_Call_PC
    (linux : bool) (c1 c2 : Z) (bi : BinaryInfo) (mem : Memory) (it it' : stackIterator)
    (depth : Z) (frames : list Stackframe) (e : option error) :
  stacktrace bi (ARM64Arch linux c1 c2) mem it depth = Ok (it', frames, e) ->
  Forall (fun f => PC (Call f) = PC (Current f)) frames.
Proof.
  intros H. eapply stacktrace_frames in H; [apply H|].
  intros it0 cfr. apply arm64SwitchStack_keptResult.
Qed.

(** X13.  On arm64 an error never sits in the middle of a trace: the frames
    [stacktrace] returns all have a nil [Err], except for the one frame that
    is appended at the end when the iterator stopped with an error; that
    frame carries the iterator's error and nothing else. *)
Theorem arm64_stacktrace_Err_last
    (linux : bool) (c1 c2 : Z) (bi : BinaryInfo) (mem : Memory) (it it' : stackIterator)
    (depth : Z) (frames : list Stackframe) (e : option error) :
  stacktrace bi (ARM64Arch linux c1 c2) mem it depth = Ok (it', frames, e) ->
  exists body,
    Forall (fun f => Err f = None) body
    /\ (frames = body \/ exists e', err it' = Some e' /\ frames = body ++ [errorFrame e']).
Proof.
  intros H. eapply stacktrace_frames in H; [apply H|].
  intros it0 cfr. apply arm64SwitchStack_keptResult.
Qed.

(** The trace that restarts from the goroutine: three frames. *)
Lemma arm64_stacktrace_Call_PC_witness :
  Forall (fun f => PC (Call f) = PC (Current f)) (snd (fst ExTrace.restarted))
  /\ length (snd (fst ExTrace.restarted)) = 3%nat.
Proof.
  split; [|reflexivity].
  apply (arm64_stacktrace_Call_PC true 8 88 strippedBinary ExRestart.mem ExRestart.it0
           (fst (fst ExTrace.restarted)) 5 (snd (fst ExTrace.restarted))
           (snd ExTrace.restarted)).
  vm_compute. reflexivity.
Defined.

(** The trace that fails on an unreadable frame record: the frame, then the
    error frame. *)
Lemma arm64_stacktrace_Err_last_witness :
  exists body,
    Forall (fun f => Err f = None) body
    /\ (snd (fst ExTrace.failed) = body
        \/ exists e', err (fst (fst ExTrace.failed)) = Some e'
                      /\ snd (fst ExTrace.failed) = body ++ [errorFrame e']).
Proof.
  apply (arm64_stacktrace_Err_last true 8 88 strippedBinary ExEnd.unmapped ExEnd.it0
           (fst (fst ExTrace.failed)) 5 (snd (fst ExTrace.failed)) (snd ExTrace.failed)).
  vm_compute. reflexivity.
Defined.

(** ** The depth of a trace *)

Lemma physCount_app l l' : physCount (l ++ l') = (physCount l + physCount l')%nat.
Proof. unfold physCount. rewrite List.filter_app, length_app. reflexivity. Qed.

Lemma physCount_inlined l :
  Forall (fun f => Inlined f = true) l -> physCount l = 0%nat.
Proof.
  induction 1 as [|f l Hf _ IH]; [reflexivity|].
  unfold physCount in *. simpl. rewrite Hf. simpl. exact IH.
Qed.

Lemma physCount_le l : (physCount l <= length l)%nat.
Proof. unfold physCount. apply List.filter_length_le. Qed.

Section Depth.

Context (bi : BinaryInfo) (a : Arch) (mem : Memory).

Hypothesis switchStack_kept :
  forall it cfr, keptResult it (switchStack a bi mem it cfr).

(** Every turn of the frame loop adds one frame that is not inlined, and
    the loop goes on only while fewer than [depth+1] frames are there. *)
Lemma nextLoop_physCount depth fuel : forall it frames it' frames',
  nextLoop bi a mem (collect depth) fuel it frames = Ok (it', frames') ->
  Z.of_nat (physCount frames') <= Z.max (Z.of_nat (physCount frames) + 1) (depth + 1).
Proof.
  induction fuel as [|fuel IH]; intros it frames it' frames' H; [discriminate|].
  rewrite nextLoop_S in H. apply rbind_Ok in H. destruct H as ([more it1] & Hnext & H).
  destruct more; [|inversion H; subst; lia].
  apply rbind_Ok in H. destruct H as ([[cont it2] frames2] & Happ & H).
  apply (Next_physOk bi a mem switchStack_kept) in Hnext.
  destruct Hnext as (_ & _ & _ & Hinl).
  apply appendInlineCalls_collect in Happ.
  destruct Happ as (synth & phys & Hf & Hall & _ & _ & Hi & _ & _ & Hcont & _).
  assert (Hcount : physCount frames2 = (physCount frames + 1)%nat).
  { rewrite Hf, !physCount_app.
    rewrite (physCount_inlined synth)
      by (eapply Forall_impl; [exact Hall | intros f [Hfi _]; exact Hfi]).
    unfold physCount at 2. simpl. rewrite Hi. cbn [Frame snd set_frame frame_ set_Bottom Inlined].
    rewrite Hinl. simpl. lia. }
  destruct cont.
  - apply IH in H. symmetry in Hcont. apply Z.ltb_lt in Hcont.
    pose proof (physCount_le frames2). lia.
  - inversion H; subst. lia.
Qed.

Lemma stacktraceFunc_physCount depth fuel it frames it' frames' :
  stacktraceFunc bi a mem (collect depth) fuel it frames = Ok (it', frames') ->
  Z.of_nat (physCount frames') <= Z.max (Z.of_nat (physCount frames) + 1) (depth + 1).
Proof.
  unfold stacktraceFunc.
  destruct (hasOpt (opts it) StacktraceG && bool_decide (g it ≠ None)).
  - intros H. apply rbind_Ok in H. destruct H as ([itg e] & _ & H).
    destruct e; [inversion H; subst; lia|].
    eapply nextLoop_physCount; eassumption.
  - apply nextLoop_physCount.
Qed.

Lemma stacktrace_physCount it depth it' frames e :
  stacktrace bi a mem it depth = Ok (it', frames, e) ->
  Z.of_nat (physCount frames)
  <= Z.max 2 (depth + 1) + match err it' with Some _ => 1 | None => 0 end.
Proof.
  unfold stacktrace. destruct (Z.ltb_spec depth 0) as [Hneg|Hdepth].
  { intros H. inversion H; subst. cbn. destruct (err it'); lia. }
  intros H. apply rbind_Ok in H. destruct H as ([it1 frames1] & H1 & H).
  apply stacktraceFunc_physCount in H1. cbn in H1.
  apply rbind_Ok in H. destruct H as ([it2 frames2] & H2 & H).
  assert (Hb : Z.of_nat (physCount frames2) <= Z.max 2 (depth + 1)).
  { match type of H2 with
    | (if ?c then _ else _) = _ => destruct c eqn:Hc
    end.
    - apply stacktraceFunc_physCount in H2.
      apply andb_prop in Hc as [Hc _]. apply andb_prop in Hc as [Hc _].
      apply andb_prop in Hc as [Hc _]. apply andb_prop in Hc as [_ Hc].
      apply Nat.eqb_eq in Hc. pose proof (physCount_le frames1). lia.
    - inversion H2; subst. lia. }
  destruct (err it2) as [e2|] eqn:He2.
  - destruct frames2 as [|f0 rest].
    + inversion H; subst. rewrite He2. cbn. lia.
    + assert (Hfr : frames = (f0 :: rest) ++ [errorFrame e2] /\ it' = it2)
        by (inversion H; auto).
      destruct Hfr as [-> ->]. rewrite He2, physCount_app.
      change (physCount [errorFrame e2]) with 1%nat. lia.
  - inversion H; subst. rewrite He2. lia.
Qed.

End Depth.

(** X14.  The maximum depth bounds the frames that are not synthetic frames
    of inlined calls: on arm64 a trace holds at most [depth+1] of them, and
    at most 2 when [depth] is 0 (the restart from the goroutine's registers
    adds its first frame whatever the depth), not counting the error frame
    that is appended when the iterator stopped with an error. *)
Theorem arm64_stacktrace_depth
    (linux : bool) (c1 c2 : Z) (bi : BinaryInfo) (mem : Memory) (it it' : stackIterator)
    (depth : Z) (frames : list Stackframe) (e : option error) :
  stacktrace bi (ARM64Arch linux c1 c2) mem it depth = Ok (it', frames, e) ->
  Z.of_nat (physCount frames) <= Z.max 2 (depth + 1) + match err it' with Some _ => 1 | None => 0 end.
Proof.
  apply stacktrace_physCount. intros it0 cfr. apply arm64SwitchStack_keptResult.
Qed.

(** The bound is reached: with maximum depth 0 the trace that restarts from
    the goroutine has two frames. *)
Lemma arm64_stacktrace_depth_witness :
  Z.of_nat (physCount (snd (fst ExTrace.shallow))) <= 2
  /\ physCount (snd (fst ExTrace.shallow)) = 2%nat.
Proof.
  split; [|reflexivity].
  apply (arm64_stacktrace_depth true 8 88 strippedBinary ExRestart.mem ExRestart.it0
           (fst (fst ExTrace.shallow)) 0 (snd (fst ExTrace.shallow)) (snd ExTrace.shallow)).
  vm_compute. reflexivity.
Defined.

(** ** Traces with [StacktraceSimple] *)

Section Simple.

Context (bi : BinaryInfo) (mem : Memory).

Lemma noSwitch_kept (c : ArchCore) it cfr :
  keptResult it (switchStack (noSwitch c) bi mem it cfr).
Proof. reflexivity. Qed.

Lemma kept_opts it it' : kept it' = kept it -> opts it' = opts it.
Proof. intros H. apply kept_fields in H. apply H. Qed.

(** With [StacktraceSimple] the stack-switch hook is not called. *)
Lemma Next_simple_eq (a : Arch) it :
  hasOpt (opts it) StacktraceSimple = true ->
  Next bi a mem it = Next bi (noSwitch a) mem it.
Proof.
  intros Hs. unfold Next. destruct (bool_decide (err it ≠ None) || atend it); [reflexivity|].
  change (core (noSwitch a)) with (core a).
  destruct (advanceRegs bi a mem it) as [[[it1 cfr] ret] retaddr] eqn:Hadv.
  destruct (newStackframe bi mem it1 ret retaddr) as [it2 fr] eqn:Hnew.
  apply advanceRegs_kept, kept_opts in Hadv. apply newStackframe_kept, kept_opts in Hnew.
  destruct (sigtrampHop bi mem (set_frame it2 fr)); [reflexivity|].
  change (opts (set_frame it2 fr)) with (opts it2). rewrite Hnew, Hadv, Hs. reflexivity.
Qed.

Lemma Next_opts (a : Arch) it more it' :
  (forall i cfr, keptResult i (switchStack a bi mem i cfr)) ->
  Next bi a mem it = Ok (more, it') -> opts it' = opts it.
Proof.
  intros Hsw H. destruct more.
  - apply (Next_frame bi a mem Hsw) in H. destruct H as (_ & _ & _ & _ & _ & H & _). exact H.
  - unfold Next in H. destruct (bool_decide (err it ≠ None) || atend it).
    + inversion H. reflexivity.
    + destruct (advanceRegs bi a mem it) as [[[it1 cfr] ret] retaddr].
      destruct (newStackframe bi mem it1 ret retaddr) as [it2 fr].
      destruct (sigtrampHop bi mem (set_frame it2 fr)); [discriminate|].
      apply rbind_Ok in H. destruct H as ([[sw it4] cfr'] & _ & H).
      destruct sw; [discriminate|]. destruct (Ret (frame_ it4) <=? 0); discriminate.
Qed.

Section AnyCallback.

Context {St : Type} (cb : St -> Stackframe -> Result (bool * St)).

Lemma inlineLoop_count_only callfn entries : forall it frame s it' frame' s',
  inlineLoop bi cb callfn entries it frame s = Ok (it', frame', s') ->
  exists n, it' = set_count it n.
Proof.
  induction entries as [|entry rest IH]; intros it frame s it' frame' s' H.
  - simpl in H. inversion H; subst. exists (count it'). destruct it'; reflexivity.
  - simpl in H.
    destruct (dwarf.AttrName entry) as [fnname|];
      [destruct (dwarf.AttrCallFile entry) as [fileidx|];
       [destruct (dwarf.AttrCallLine entry) as [line|]|]|].
    2-4: inversion H; subst; exists (count it'); destruct it'; reflexivity.
    change (Fn (Current (set_hasInlines frame true))) with (Fn (Current frame)) in H.
    destruct (Fn (Current frame)) as [curfn|]; [|discriminate].
    destruct (filePath bi curfn fileidx) as [filepath|e].
    + apply rbind_Ok in H. destruct H as ([b s1] & _ & H).
      apply IH in H. destruct H as [n ->]. eexists. reflexivity.
    + inversion H; subst. exists (count it'). destruct it'; reflexivity.
Qed.

Lemma appendInlineCalls_count_only it frame s more it' s' :
  appendInlineCalls bi cb it frame s = Ok (more, it', s') ->
  exists n, it' = set_count it n.
Proof.
  unfold appendInlineCalls.
  assert (Hdeliver : forall it0 fr0 s0,
            cb s0 fr0 ≫= (fun '(more0, s1) => Ok (more0, incCount it0, s1))
            = Ok (more, it', s') -> it' = incCount it0).
  { intros it0 fr0 s0 H. apply rbind_Ok in H. destruct H as ([b s1] & _ & H).
    inversion H. reflexivity. }
  destruct (Fn (Call frame)) as [callfn|];
    [|intros H; apply Hdeliver in H; subst; eexists; reflexivity].
  destruct (negb (lineInfo (cu callfn)));
    [intros H; apply Hdeliver in H; subst; eexists; reflexivity|].
  destruct (negb (getDwarfTree bi callfn));
    [intros H; apply Hdeliver in H; subst; eexists; reflexivity|].
  intros H. apply rbind_Ok in H. destruct H as ([[it1 frame1] s1] & Hloop & H).
  apply Hdeliver in H. apply inlineLoop_count_only in Hloop. destruct Hloop as [n ->].
  subst. eexists. reflexivity.
Qed.

Lemma nextLoop_simple_eq (a : Arch) fuel : forall it s,
  hasOpt (opts it) StacktraceSimple = true ->
  nextLoop bi a mem cb fuel it s = nextLoop bi (noSwitch a) mem cb fuel it s.
Proof.
  induction fuel as [|fuel IH]; intros it s Hs; [reflexivity|].
  rewrite !nextLoop_S, (Next_simple_eq a it Hs).
  destruct (Next bi (noSwitch a) mem it) as [[more it1]| |] eqn:Hnext; [|reflexivity..].
  rewrite !bind_Ok. destruct more; [|reflexivity].
  apply (Next_opts (noSwitch a)) in Hnext; [|intros; apply noSwitch_kept].
  destruct (appendInlineCalls bi cb (fst (Frame it1)) (snd (Frame it1)) s)
    as [[[cont it2] s2]| |] eqn:Happ; [|reflexivity..].
  rewrite !bind_Ok. destruct cont; [|reflexivity].
  apply IH. apply appendInlineCalls_count_only in Happ. destruct Happ as [n ->].
  cbn. rewrite Hnext. exact Hs.
Qed.

Lemma switchToGoroutineStack_opts (c : ArchCore) it it' e :
  switchToGoroutineStack c it = Ok (it', e) -> opts it' = opts it.
Proof. intros H. apply switchToGoroutineStack_kept, kept_opts in H. exact H. Qed.

Lemma stacktraceFunc_simple_eq (a : Arch) fuel it s :
  hasOpt (opts it) StacktraceSimple = true ->
  stacktraceFunc bi a mem cb fuel it s = stacktraceFunc bi (noSwitch a) mem cb fuel it s.
Proof.
  intros Hs. unfold stacktraceFunc. change (core (noSwitch a)) with (core a).
  destruct (hasOpt (opts it) StacktraceG && bool_decide (g it ≠ None)).
  - destruct (switchToGoroutineStack a it) as [[itg e]| |] eqn:Hsw; [|reflexivity..].
    rewrite !bind_Ok. destruct e; [reflexivity|].
    apply nextLoop_simple_eq. apply switchToGoroutineStack_opts in Hsw.
    cbn. rewrite Hsw. exact Hs.
  - apply nextLoop_simple_eq. exact Hs.
Qed.

End AnyCallback.

Lemma stacktraceFunc_opts (a : Arch) {St : Type}
    (cb : St -> Stackframe -> Result (bool * St)) fuel it s it' s' :
  (forall i cfr, keptResult i (switchStack a bi mem i cfr)) ->
  stacktraceFunc bi a mem cb fuel it s = Ok (it', s') -> opts it' = opts it.
Proof.
  intros Hsw.
  assert (Hloop : forall fuel it s it' s',
            nextLoop bi a mem cb fuel it s = Ok (it', s') -> opts it' = opts it).
  { clear fuel it s it' s'.
    induction fuel as [|fuel IH]; intros it s it' s' H; [discriminate|].
    rewrite nextLoop_S in H. apply rbind_Ok in H. destruct H as ([more it1] & Hnext & H).
    apply (Next_opts a _ _ _ Hsw) in Hnext.
    destruct more; [|inversion H; subst; exact Hnext].
    apply rbind_Ok in H. destruct H as ([[cont it2] s2] & Happ & H).
    apply appendInlineCalls_count_only in Happ. destruct Happ as [n ->].
    destruct cont.
    - apply IH in H. rewrite H. cbn. exact Hnext.
    - inversion H; subst. cbn. exact Hnext. }
  unfold stacktraceFunc.
  destruct (hasOpt (opts it) StacktraceG && bool_decide (g it ≠ None)).
  - intros H. apply rbind_Ok in H. destruct H as ([itg e] & Hs & H).
    apply switchToGoroutineStack_opts in Hs.
    destruct e; [inversion H; subst; cbn; exact Hs|].
    apply Hloop in H. rewrite H. cbn. exact Hs.
  - apply Hloop.
Qed.

Lemma stacktrace_simple_eq (a : Arch) it depth :
  hasOpt (opts it) StacktraceSimple = true ->
  stacktrace bi a mem it depth = stacktrace bi (noSwitch a) mem it depth.
Proof.
  intros Hs. unfold stacktrace. destruct (depth <? 0); [reflexivity|].
  rewrite (stacktraceFunc_simple_eq (collect depth) a _ it [] Hs).
  destruct (stacktraceFunc bi (noSwitch a) mem (collect depth) (Z.to_nat (depth + 1)) it [])
    as [[it1 frames1]| |] eqn:H1; [|reflexivity..].
  rewrite !bind_Ok.
  apply (stacktraceFunc_opts (noSwitch a)) in H1; [|intros; apply noSwitch_kept].
  rewrite H1, Hs. cbn [negb]. rewrite !andb_false_r. reflexivity.
Qed.

(** X15.  With [StacktraceSimple] the stack-switch hook of the architecture
    is never called: two architectures that differ only in the hook give the
    same trace. *)
Theorem stacktrace_simple_no_switch (a a' : Arch) (it : stackIterator) (depth : Z) :
  core a = core a' ->
  hasOpt (opts it) StacktraceSimple = true ->
  stacktrace bi a mem it depth = stacktrace bi a' mem it depth.
Proof.
  intros Hc Hs. rewrite (stacktrace_simple_eq a it depth Hs),
    (stacktrace_simple_eq a' it depth Hs), Hc. reflexivity.
Qed.

Lemma Next_noSwitch_returns (c : ArchCore) it :
  exists r, Next bi (noSwitch c) mem it = Ok r.
Proof.
  unfold Next. destruct (bool_decide (err it ≠ None) || atend it); [eexists; reflexivity|].
  destruct (advanceRegs bi (noSwitch c) mem it) as [[[it1 cfr] ret] retaddr].
  destruct (newStackframe bi mem it1 ret retaddr) as [it2 fr].
  destruct (sigtrampHop bi mem (set_frame it2 fr)); [eexists; reflexivity|].
  destruct (hasOpt (opts (set_frame it2 fr)) StacktraceSimple); cbn;
    destruct (Ret fr <=? 0); eexists; reflexivity.
Qed.

(** The inline expansion dereferences [Current.Fn] without a nil check; it
    does not panic when [Current.Fn] is there. *)
Lemma inlineLoop_returns depth callfn entries : forall it frame frames,
  Fn (Current frame) <> None ->
  exists r, inlineLoop bi (collect depth) callfn entries it frame frames = Ok r.
Proof.
  induction entries as [|entry rest IH]; intros it frame frames Hfn; simpl;
    [eexists; reflexivity|].
  destruct (dwarf.AttrName entry); [|eexists; reflexivity].
  destruct (dwarf.AttrCallFile entry) as [fileidx|]; [|eexists; reflexivity].
  destruct (dwarf.AttrCallLine entry); [|eexists; reflexivity].
  destruct (Fn (Current frame)) as [curfn|] eqn:E; [|contradiction].
  destruct (filePath bi curfn fileidx); [|eexists; reflexivity].
  apply IH. cbn. rewrite E. discriminate.
Qed.

Lemma appendInlineCalls_returns depth it frame frames :
  Fn (Call frame) = Fn (Current frame) ->
  exists r, appendInlineCalls bi (collect depth) it frame frames = Ok r.
Proof.
  intros Hfn. unfold appendInlineCalls.
  destruct (Fn (Call frame)) as [callfn|] eqn:E; [|eexists; reflexivity].
  destruct (negb (lineInfo (cu callfn))); [eexists; reflexivity|].
  destruct (negb (getDwarfTree bi callfn)); [eexists; reflexivity|].
  destruct (inlineLoop_returns depth callfn
              (InlineStack bi callfn
                 (if 0 <? count it then uint64 (PC (Call frame) - 1) else PC (Call frame)))
              it frame frames) as ([[it1 frame1] frames1] & Hloop).
  { rewrite <- Hfn. discriminate. }
  rewrite Hloop. eexists. reflexivity.
Qed.

Lemma nextLoop_noSwitch_returns (c : ArchCore) depth fuel : forall it frames,
  (1 <= fuel)%nat ->
  depth + 1 <= Z.of_nat fuel + Z.of_nat (length frames) ->
  exists r, nextLoop bi (noSwitch c) mem (collect depth) fuel it frames = Ok r.
Proof.
  induction fuel as [|fuel IH]; intros it frames H1 Hd; [lia|].
  rewrite nextLoop_S.
  destruct (Next_noSwitch_returns c it) as ([more it1] & Hnext). rewrite Hnext, bind_Ok.
  destruct more; [|eexists; reflexivity].
  apply (Next_physOk bi (noSwitch c) mem (noSwitch_kept c)) in Hnext.
  destruct Hnext as (_ & Hfn & _ & _).
  destruct (appendInlineCalls_returns depth (fst (Frame it1)) (snd (Frame it1)) frames)
    as ([[cont it2] frames2] & Happ); [exact Hfn|].
  rewrite Happ, bind_Ok. destruct cont; [|eexists; reflexivity].
  apply appendInlineCalls_collect in Happ.
  destruct Happ as (synth & phys & Hf & _ & _ & _ & _ & _ & _ & Hcont & _).
  symmetry in Hcont. apply Z.ltb_lt in Hcont.
  assert (Hlen : (length frames < length frames2)%nat).
  { rewrite Hf, !length_app. simpl. lia. }
  apply IH; lia.
Qed.

(** X16.  With [StacktraceSimple], and without a switch to the goroutine's
    registers, [stacktrace] returns for every depth below 2^16, where the
    capacity [depth+1] of the slice it allocates neither wraps nor is
    refused by [make]: on any architecture and for any target, it neither
    panics nor loops. *)
Theorem stacktrace_simple_returns (a : Arch) (it : stackIterator) (depth : Z) :
  depth < 2 ^ 16 ->
  hasOpt (opts it) StacktraceSimple = true ->
  hasOpt (opts it) StacktraceG && bool_decide (g it ≠ None) = false ->
  exists it' frames e, stacktrace bi a mem it depth = Ok (it', frames, e).
Proof.
  intros _ Hs Hg. rewrite (stacktrace_simple_eq a it depth Hs).
  unfold stacktrace. destruct (Z.ltb_spec depth 0) as [Hneg|Hdepth];
    [eexists _, _, _; reflexivity|].
  rewrite (stacktraceFunc_plain bi (noSwitch a) mem (collect depth) _ it [] Hg).
  destruct (nextLoop_noSwitch_returns a depth (Z.to_nat (depth + 1)) it [])
    as ([it1 frames1] & H1); [lia | simpl; lia|].
  rewrite H1, bind_Ok.
  assert (Ho : opts it1 = opts it).
  { apply (stacktraceFunc_opts (noSwitch a) (collect depth) (Z.to_nat (depth + 1)) it []
             it1 frames1 (noSwitch_kept a)).
    rewrite (stacktraceFunc_plain bi (noSwitch a) mem (collect depth) _ it [] Hg).
    exact H1. }
  rewrite Ho, Hs. cbn [negb]. rewrite !andb_false_r, bind_Ok.
  destruct (err it1); [destruct frames1|]; eexists _, _, _; reflexivity.
Qed.

End Simple.

(** The trace of [ExRange], taken with [StacktraceSimple], is the same for
    a debugger on linux and one elsewhere. *)
Lemma stacktrace_simple_no_switch_witness :
  stacktrace ExRange.bi arm64Linux ExRange.mem ExRange.it0 5
  = stacktrace ExRange.bi (ARM64Arch false 8 88) ExRange.mem ExRange.it0 5.
Proof.
  apply stacktrace_simple_no_switch; reflexivity.
Defined.

Lemma stacktrace_simple_returns_witness :
  exists it' frames e,
    stacktrace ExRange.bi arm64Linux ExRange.mem ExRange.it0 5 = Ok (it', frames, e).
Proof.
  apply stacktrace_simple_returns; [lia | reflexivity | reflexivity].
Defined.

(** ** How a trace reports errors *)

Section ErrorFrame.

Context (bi : BinaryInfo) (a : Arch) (mem : Memory).

Lemma stacktraceFunc_collect_prefix depth fuel it frames it' frames' :
  stacktraceFunc bi a mem (collect depth) fuel it frames = Ok (it', frames') ->
  exists more, frames' = frames ++ more.
Proof.
  unfold stacktraceFunc.
  destruct (hasOpt (opts it) StacktraceG && bool_decide (g it ≠ None)).
  - intros H. apply rbind_Ok in H. destruct H as ([itg e] & _ & H).
    destruct e.
    + inversion H; subst. exists []. rewrite app_nil_r. reflexivity.
    + eapply nextLoop_collect_prefix. exact H.
  - apply nextLoop_collect_prefix.
Qed.

(** X17.  From an iterator that has not stopped, and without a switch to
    the goroutine's registers, [stacktrace] never returns an error for a
    depth that is not negative: it returns at least one frame, and a failure
    of the unwinding is reported as the last frame, which carries the
    iterator's error and nothing else. *)
Theorem stacktrace_error_frame
    (it it' : stackIterator) (depth : Z) (frames : list Stackframe) (e : option error) :
  0 <= depth ->
  err it = None ->
  atend it = false ->
  hasOpt (opts it) StacktraceG && bool_decide (g it ≠ None) = false ->
  stacktrace bi a mem it depth = Ok (it', frames, e) ->
  e = None /\ frames <> []
  /\ (forall e', err it' = Some e' -> last frames = Some (errorFrame e')).
Proof.
  intros Hdepth He Ha Hg. unfold stacktrace.
  destruct (Z.ltb_spec depth 0) as [Hneg|_]; [lia|].
  rewrite (stacktraceFunc_plain bi a mem (collect depth) _ it [] Hg).
  intros H. apply rbind_Ok in H. destruct H as ([it1 frames1] & H1 & H).
  assert (Hne1 : frames1 <> []).
  { destruct (Z.to_nat (depth + 1)) as [|fuel] eqn:Ef; [lia|].
    rewrite nextLoop_S in H1. apply rbind_Ok in H1.
    destruct H1 as ([more itn] & Hnext & H1).
    assert (more = true) as -> by exact (Next_running bi a mem it more itn He Ha Hnext).
    apply rbind_Ok in H1. destruct H1 as ([[cont it2] frames2] & Happ & H1).
    apply appendInlineCalls_collect in Happ.
    destruct Happ as (synth & phys & Hf & _).
    assert (Hne2 : frames2 <> []).
    { rewrite Hf. simpl. intros Hnil. apply app_eq_nil in Hnil as [_ Hnil]. discriminate. }
    destruct cont.
    - apply nextLoop_collect_prefix in H1. destruct H1 as [more ->].
      intros Hnil. apply app_eq_nil in Hnil as [Hnil _]. contradiction.
    - inversion H1; subst. exact Hne2. }
  apply rbind_Ok in H. destruct H as ([it2 frames2] & H2 & H).
  assert (Hne2 : frames2 <> []).
  { match type of H2 with
    | (if ?c then _ else _) = _ => destruct c
    end.
    - apply stacktraceFunc_collect_prefix in H2. destruct H2 as [more ->].
      intros Hnil. apply app_eq_nil in Hnil as [Hnil _]. contradiction.
    - inversion H2; subst. exact Hne1. }
  destruct (err it2) as [e2|] eqn:He2.
  - destruct frames2 as [|f0 rest]; [contradiction|].
    assert (Hfr : frames = (f0 :: rest) ++ [errorFrame e2] /\ it' = it2 /\ e = None)
      by (inversion H; auto).
    destruct Hfr as (-> & -> & ->). split; [reflexivity|]. split.
    + discriminate.
    + intros e' He'. rewrite He2 in He'. inversion He'; subst e'. apply last_snoc.
  - inversion H; subst. split; [reflexivity|]. split; [exact Hne2|].
    intros e' He'. congruence.
Qed.

End ErrorFrame.

(** The thread of [ExEnd] with an unreadable frame record: no error is
    returned, the last frame carries it. *)
Lemma stacktrace_error_frame_witness :
  snd ExTrace.failed = None
  /\ last (snd (fst ExTrace.failed)) = Some (errorFrame (ErrReadMemory 0x2008)).
Proof.
  unshelve refine (let H := stacktrace_error_frame strippedBinary arm64Linux ExEnd.unmapped
                              ExEnd.it0 (fst (fst ExTrace.failed)) 5
                              (snd (fst ExTrace.failed)) (snd ExTrace.failed)
                              _ _ _ _ _ in _).
  - lia.
  - reflexivity.
  - reflexivity.
  - reflexivity.
  - vm_compute. reflexivity.
  - destruct H as (H1 & _ & H3). split; [exact H1|]. apply H3. reflexivity.
Defined.

(** ** The defer correlator and the frames *)

Section DeferMore.

Context (readDefer : Z -> rawDefer).

Lemma decorated_refl fr : decorated fr fr.
Proof.
  split; [destruct fr; reflexivity|]. split; [exists []; rewrite app_nil_r; reflexivity|].
  reflexivity.
Qed.

Lemma decorated_trans f1 f2 f3 : decorated f1 f2 -> decorated f2 f3 -> decorated f1 f3.
Proof.
  intros (E1 & [m1 D1] & T1) (E2 & [m2 D2] & T2). split; [|split].
  - rewrite E2. rewrite E1 at 1. reflexivity.
  - exists (m1 ++ m2). rewrite D2, D1, app_assoc. reflexivity.
  - intros Hne. rewrite T2; [apply T1; exact Hne|]. rewrite T1 by exact Hne. exact Hne.
Qed.

Lemma decorated_withTopmost d fr : decorated fr (withTopmost d fr).
Proof.
  unfold withTopmost. destruct (TopmostDefer fr) eqn:E; [apply decorated_refl|].
  split; [destruct fr; reflexivity|]. split; [exists []; rewrite app_nil_r; reflexivity|].
  intros Hne. contradiction.
Qed.

Lemma decorated_attach fr ds : decorated fr (attach fr ds).
Proof.
  split; [destruct fr; reflexivity|]. split; [exists ds; reflexivity|]. reflexivity.
Qed.

Lemma Forall2_decorated_insert (l : list Stackframe) i fr fr' :
  l !! i = Some fr -> decorated fr fr' -> Forall2 decorated l (<[i := fr']> l).
Proof.
  intros Hi Hd. rewrite <- (list_insert_id l i fr Hi) at 1.
  apply Forall2_insert; [|exact Hd].
  apply Forall_Forall2_diag. apply Forall_forall. intros x _. apply decorated_refl.
Qed.

Lemma Forall2_decorated_trans (l1 l2 l3 : list Stackframe) :
  Forall2 decorated l1 l2 -> Forall2 decorated l2 l3 -> Forall2 decorated l1 l3.
Proof.
  intros H12. revert l3. induction H12 as [|x y l k Hxy _ IH]; intros l3 H23.
  - inversion H23. constructor.
  - inversion H23 as [|y' z k' l3' Hyz Hrest]; subst.
    constructor; [eapply decorated_trans; eassumption | apply IH; exact Hrest].
Qed.

Lemma readDefersStep_decorated c :
  match readDefersStep readDefer c with
  | inl c' => Forall2 decorated (dc_frames c) (dc_frames c')
  | inr frames' => Forall2 decorated (dc_frames c) frames'
  end.
Proof.
  assert (Hrefl : Forall2 decorated (dc_frames c) (dc_frames c)).
  { apply Forall_Forall2_diag. apply Forall_forall. intros x _. apply decorated_refl. }
  destruct (readDefersStep readDefer c) as [c'|frames'] eqn:Hstep.
  - apply readDefersStep_inl in Hstep.
    destruct Hstep as (d & fr & _ & Hfr & _ & _ & [[_ ->]|[_ ->]]); cbn [dc_frames].
    + apply (Forall2_decorated_insert _ _ fr); [exact Hfr | apply decorated_withTopmost].
    + apply (Forall2_decorated_insert _ _ fr); [exact Hfr|].
      eapply decorated_trans; [apply decorated_withTopmost | apply decorated_attach].
  - unfold readDefersStep in Hstep.
    destruct (curdefer c) as [d|]; [|inversion Hstep; subst; exact Hrefl].
    destruct (dc_frames c !! idx c) as [fr|] eqn:Hfr; [|inversion Hstep; subst; exact Hrefl].
    destruct (bool_decide (Unreadable d ≠ None)).
    + inversion Hstep; subst.
      apply (Forall2_decorated_insert _ _ fr); [exact Hfr | apply decorated_attach].
    + destruct (bool_decide (Err fr ≠ None)); [inversion Hstep; subst; exact Hrefl|].
      destruct (skipsFrame d _); discriminate.
Qed.

Lemma readDefersLoop_decorated fuel : forall c frames',
  readDefersLoop readDefer fuel c = Ok frames' ->
  Forall2 decorated (dc_frames c) frames'.
Proof.
  induction fuel as [|fuel IH]; intros c frames' H; [discriminate|].
  simpl in H. pose proof (readDefersStep_decorated c) as Hstep.
  destruct (readDefersStep readDefer c) as [c'|fs].
  - eapply Forall2_decorated_trans; [exact Hstep | apply IH; exact H].
  - inversion H; subst. exact Hstep.
Qed.

Lemma readDefersLoop_no_panic fuel : forall c, readDefersLoop readDefer fuel c <> Panic.
Proof.
  induction fuel as [|fuel IH]; intros c; [discriminate|].
  simpl. destruct (readDefersStep readDefer c); [apply IH | discriminate].
Qed.

Lemma readDefers_decorates_aux fuel g frames frames' :
  readDefers readDefer fuel g frames = Ok frames' -> Forall2 decorated frames frames'.
Proof. unfold readDefers. intros H. apply readDefersLoop_decorated in H. exact H. Qed.

(** X18.  [readDefers] writes nothing of the frames but [TopmostDefer] and
    [Defers]: the result has the same number of frames, every frame keeps
    all its other fields, the deferred calls it already had stay in front of
    the ones that are added, and a [TopmostDefer] that was set is not
    replaced. *)
Theorem readDefers_decorates
    (fuel : nat) (g : G.t) (frames frames' : list Stackframe) :
  readDefers readDefer fuel g frames = Ok frames' ->
  Forall2 decorated frames frames'.
Proof.
  unfold readDefers. intros H. apply readDefersLoop_decorated in H. exact H.
Qed.

End DeferMore.

(** The scenario of [ExDefers]: three frames before and after. *)
Lemma readDefers_decorates_witness :
  Forall2 decorated ExDefers.frames ExDefersRun.result.
Proof.
  apply (readDefers_decorates ExDefers.heap 10 ExDefers.gor).
  vm_compute. reflexivity.
Defined.

(** ** Termination of the defer correlator *)

Section DeferTermination.

Context (readDefer : Z -> rawDefer).

(** X19.  The loop of [readDefers] has no bound of its own.  When the list
    does not end (every defer reached from the current one is readable and
    has a successor, as in a list that runs in a circle) and the defers lie
    below the CFA of the frame the cursor is at, the loop never moves on to
    the next frame and never returns. *)
Theorem readDefersLoop_diverges
    (S : Defer -> Prop) (c : deferCursor) (d0 : Defer) (fr0 : Stackframe) :
  (forall d, S d ->
     Unreadable d = None /\ skipsFrame d fr0 = false
     /\ exists d', Defer_Next readDefer d = Some d' /\ S d') ->
  curdefer c = Some d0 -> S d0 ->
  dc_frames c !! idx c = Some fr0 -> Err fr0 = None ->
  forall fuel, readDefersLoop readDefer fuel c = OutOfFuel.
Proof.
  intros HS Hd HS0 Hfr Herr fuel.
  assert (Hgen : forall fuel c d fr,
            curdefer c = Some d -> S d -> dc_frames c !! idx c = Some fr ->
            sameFrame fr0 fr -> readDefersLoop readDefer fuel c = OutOfFuel).
  { clear fuel c d0 Hd HS0 Hfr.
    induction fuel as [|fuel IH]; intros c d fr Hd Hs Hfr Hsame; [reflexivity|].
    simpl. destruct (HS d Hs) as (Hu & Hskip & d' & Hnext & Hs').
    assert (Hlt : (idx c < length (dc_frames c))%nat) by (eapply lookup_lt_Some; exact Hfr).
    destruct (readDefersStep readDefer c) as [c'|frames'] eqn:Hstep.
    - apply readDefersStep_inl in Hstep.
      destruct Hstep as (d1 & fr1 & Hd1 & Hfr1 & _ & _ & Hcase).
      rewrite Hd in Hd1. inversion Hd1; subst d1.
      rewrite Hfr in Hfr1. inversion Hfr1; subst fr1.
      rewrite (sameFrame_skipsFrame d fr0 fr Hsame) in Hcase.
      destruct Hcase as [[Hsk _]|[_ ->]]; [congruence|].
      apply (IH _ d' (attach (withTopmost d fr) (attachedFor d))).
      + cbn. exact Hnext.
      + exact Hs'.
      + cbn. apply list_lookup_insert_eq. exact Hlt.
      + destruct Hsame as (S1 & S2 & S3 & S4).
        destruct (sameFrame_withTopmost d fr) as (T1 & T2 & T3 & T4).
        unfold sameFrame, attach. cbn. rewrite T1, T2, T3, T4. auto.
    - exfalso. unfold readDefersStep in Hstep. rewrite Hd, Hfr in Hstep.
      rewrite Hu in Hstep.
      rewrite bool_decide_eq_false_2 in Hstep by (intros H; apply H; reflexivity).
      destruct Hsame as (_ & _ & _ & S4). rewrite S4, Herr in Hstep.
      rewrite bool_decide_eq_false_2 in Hstep by (intros H; apply H; reflexivity).
      match type of Hstep with
      | (if ?b then _ else _) = _ => destruct b
      end; discriminate. }
  apply (Hgen fuel c d0 fr0 Hd HS0 Hfr). repeat split.
Qed.

Lemma readDefersLoop_terminates k : forall c n,
  endsWithin readDefer n (curdefer c) = true ->
  (n + (length (dc_frames c) - idx c) <= k)%nat ->
  exists frames', forall fuel, (k < fuel)%nat -> readDefersLoop readDefer fuel c = Ok frames'.
Proof.
  induction k as [|k IH]; intros c n Hend Hk.
  - destruct (readDefersStep readDefer c) as [c'|frames'] eqn:Hstep.
    + exfalso. apply readDefersStep_inl in Hstep.
      destruct Hstep as (d & fr & Hd & Hfr & Hu & _ & _).
      apply lookup_lt_Some in Hfr.
      destruct n as [|n]; [|lia]. rewrite Hd in Hend. cbn in Hend.
      rewrite Hu in Hend.
      rewrite bool_decide_eq_false_2 in Hend by (intros H; apply H; reflexivity).
      discriminate.
    + exists frames'. intros [|fuel] Hf; [lia|]. simpl. rewrite Hstep. reflexivity.
  - destruct (readDefersStep readDefer c) as [c'|frames'] eqn:Hstep.
    + assert (Hc' : exists n', endsWithin readDefer n' (curdefer c') = true
                       /\ (n' + (length (dc_frames c') - idx c') <= k)%nat).
      { apply readDefersStep_inl in Hstep.
        destruct Hstep as (d & fr & Hd & Hfr & Hu & _ & Hcase).
        apply lookup_lt_Some in Hfr. rewrite Hd in Hend.
        destruct Hcase as [[_ ->]|[_ ->]]; cbn [curdefer idx dc_frames];
          rewrite length_insert.
        - exists n. split; [exact Hend | lia].
        - destruct n as [|n].
          + cbn in Hend. rewrite Hu in Hend.
            rewrite bool_decide_eq_false_2 in Hend by (intros H; apply H; reflexivity).
            discriminate.
          + exists n. split; [|lia]. cbn in Hend. rewrite Hu in Hend.
            rewrite bool_decide_eq_false_2 in Hend by (intros H; apply H; reflexivity).
            exact Hend. }
      destruct Hc' as (n' & Hend' & Hk').
      destruct (IH c' n' Hend' Hk') as (frames' & Hres).
      exists frames'. intros [|fuel] Hf; [lia|]. simpl. rewrite Hstep. apply Hres. lia.
    + exists frames'. intros [|fuel] Hf; [lia|]. simpl. rewrite Hstep. reflexivity.
Qed.

(** X20.  When the [fn] field of every record can be followed, so that no
    [load] reads a nil variable, and the list of defers ends after at most
    [n] readable defers, with nil or with a defer that cannot be read,
    [readDefers] returns: its loop takes at most [n + len(frames) + 1]
    turns, since each turn moves on to the next frame or to the next
    defer. *)
Theorem readDefers_terminates (g : G.t) (frames : list Stackframe) (n : nat) :
  (forall addr, fnLoaded (readDefer addr) = true) ->
  endsWithin readDefer n (G_Defer readDefer g) = true ->
  exists frames',
    forall fuel, (n + length frames < fuel)%nat ->
      readDefers readDefer fuel g frames = Ok frames'.
Proof.
  intros _ Hend. unfold readDefers.
  apply (readDefersLoop_terminates (n + length frames) _ n); [exact Hend|].
  cbn. lia.
Qed.

End DeferTermination.

(** A defer whose link points back at itself, below the CFA 0x1008 of the
    first frame of [ExDefers]: a thousand turns are not enough, nor is any
    other number. *)
Lemma readDefersLoop_diverges_witness :
  readDefersLoop ExDefersRun.selfLinked 1000
    (mkDeferCursor (Some ExDefersRun.cyclic) 0 ExDefers.frames)
  = OutOfFuel.
Proof.
  unshelve refine (readDefersLoop_diverges ExDefersRun.selfLinked
                     (fun d => d = ExDefersRun.cyclic)
                     (mkDeferCursor (Some ExDefersRun.cyclic) 0 ExDefers.frames)
                     ExDefersRun.cyclic (ExDefers.frameAt 0x1008) _ _ _ _ _ 1000%nat).
  - intros d ->. split; [reflexivity|]. split; [reflexivity|].
    exists ExDefersRun.cyclic. split; [vm_compute; reflexivity | reflexivity].
  - reflexivity.
  - reflexivity.
  - reflexivity.
  - reflexivity.
Defined.

(** The two defers of [ExDefers] and its three frames: six turns are
    enough. *)
Lemma readDefers_terminates_witness :
  exists frames',
    forall fuel, (5 < fuel)%nat ->
      readDefers ExDefers.heap fuel ExDefers.gor ExDefers.frames = Ok frames'.
Proof.
  apply (readDefers_terminates ExDefers.heap ExDefers.gor ExDefers.frames 2).
  - intros addr. unfold ExDefers.heap.
    destruct (addr =? 0x8000); [reflexivity|].
    destruct (addr =? 0x8040); reflexivity.
  - vm_compute. reflexivity.
Defined.

(** ** The rangefunc entries of a defer *)

Section RangefuncMore.

Context (readDefer : Z -> rawDefer).

Lemma loadFields_newDefer addr :
  let e := loadFields readDefer (newDefer addr) in
  variable e = addr /\ rangefunc e = [] /\ (link e <> 0 -> Unreadable e = None).
Proof.
  cbv zeta. unfold loadFields.
  destruct (raw_Unreadable (readDefer (variable (newDefer addr)))) eqn:E; cbn.
  - split; [reflexivity|]. split; [reflexivity|]. intros H. contradiction.
  - auto.
Qed.

Lemma linked_snoc l e :
  linked l ->
  rangefunc e = [] ->
  (forall p, last l = Some p -> Unreadable p = None /\ link p <> 0 /\ variable e = link p) ->
  linked (l ++ [e]).
Proof.
  intros [Hflat Hch] He Hlast. split.
  - apply Forall_app. split; [exact Hflat|]. constructor; [exact He|constructor].
  - intros k x x' Hx Hx'.
    destruct (decide (Datatypes.S k < length l)%nat) as [Hlt|Hge].
    + rewrite lookup_app_l in Hx by lia. rewrite lookup_app_l in Hx' by lia.
      eapply Hch; eassumption.
    + assert (Hk : Datatypes.S k = length l).
      { apply lookup_lt_Some in Hx'. rewrite length_app in Hx'. simpl in Hx'. lia. }
      rewrite lookup_app_l in Hx by lia.
      rewrite lookup_app_r in Hx' by lia. rewrite Hk, Nat.sub_diag in Hx'.
      inversion Hx'; subst x'. apply Hlast.
      rewrite last_lookup. rewrite <- Hk. simpl. exact Hx.
Qed.

Lemma rangefuncLoop_linked fuel : forall hd acc,
  linked acc ->
  (forall p, last acc = Some p -> Unreadable p = None /\ link p <> 0 /\ hd = link p) ->
  linked (rangefuncLoop readDefer fuel hd acc).
Proof.
  induction fuel as [|fuel IH]; intros hd acc Hl Hlast; [exact Hl|].
  rewrite rangefuncLoop_S.
  destruct (loadFields_newDefer hd) as (Hv & Hr & Hu).
  set (e := loadFields readDefer (newDefer hd)) in *.
  assert (Hsnoc : linked (acc ++ [e])).
  { apply linked_snoc; [exact Hl | exact Hr|].
    intros p Hp. destruct (Hlast p Hp) as (A & B & C). rewrite Hv. auto. }
  destruct (Z.eqb_spec (link e) 0) as [Hz|Hnz]; [exact Hsnoc|].
  destruct (maxRangeFuncDefers <? Z.of_nat (length (acc ++ [e]))); [exact Hsnoc|].
  apply IH; [exact Hsnoc|].
  intros p Hp. rewrite last_snoc in Hp. inversion Hp; subst p. auto.
Qed.

(** X21.  The rangefunc entries [load] attaches to a defer form a singly
    linked run: each entry is loaded without rangefunc entries of its own,
    every entry but the last is readable and has a non-nil [link], and the
    next entry is the record that [link] points at.  So an entry that cannot
    be read, or whose [link] is nil, is always the last one. *)
Theorem Defer_load_rangefunc_linked (addr : Z) (canrecur : bool) :
  linked (rangefunc (Defer_load readDefer (newDefer addr) canrecur)).
Proof.
  assert (Hnil : linked []).
  { split; [constructor|]. intros k e e' H. rewrite lookup_nil in H. discriminate. }
  unfold Defer_load.
  destruct (loadFields_newDefer addr) as (_ & Hr & _).
  destruct (raw_Unreadable (readDefer (variable (newDefer addr)))); [rewrite Hr; exact Hnil|].
  destruct canrecur; [|rewrite Hr; exact Hnil].
  destruct (raw_head (readDefer (variable (newDefer addr)))) as [h|]; [|rewrite Hr; exact Hnil].
  destruct (h =? 0); [rewrite Hr; exact Hnil|].
  unfold set_rangefunc. cbn [rangefunc]. rewrite Hr.
  apply rangefuncLoop_linked; [exact Hnil|].
  intros p Hp. discriminate.
Qed.

End RangefuncMore.

(** ** The callback of the range-over-func reconstruction *)

Section RangeMore.

Context (bi : BinaryInfo).

Lemma sortedSP_nil : sortedSP [].
Proof. intros i j x y _ H. rewrite lookup_nil in H. discriminate. Qed.

Lemma sortedSP_snoc l fr :
  sortedSP l ->
  match last l with
  | Some prev => op.SP (Regs fr) <? op.SP (Regs prev)
  | None => false
  end = false ->
  sortedSP (l ++ [fr]).
Proof.
  intros Hs Hlast i j x y Hij Hx Hy.
  destruct (decide (j < length l)%nat) as [Hj|Hj].
  - rewrite lookup_app_l in Hy by lia. rewrite lookup_app_l in Hx by lia.
    exact (Hs i j x y Hij Hx Hy).
  - assert (Hje : j = length l).
    { apply lookup_lt_Some in Hy. rewrite length_app in Hy. simpl in Hy. lia. }
    subst j. rewrite lookup_app_r in Hy by lia. rewrite Nat.sub_diag in Hy.
    inversion Hy; subst y.
    destruct (decide (i = length l)) as [->|Hne].
    + rewrite lookup_app_r in Hx by lia. rewrite Nat.sub_diag in Hx.
      inversion Hx; subst x. lia.
    + rewrite lookup_app_l in Hx by lia.
      destruct (last l) as [prev|] eqn:El.
      * apply Z.ltb_ge in Hlast.
        assert (Hp : op.SP (Regs x) <= op.SP (Regs prev)).
        { rewrite last_lookup in El. eapply (Hs i (Nat.pred (length l))); [lia | exact Hx | exact El]. }
        lia.
      * apply last_None in El. subst l. rewrite lookup_nil in Hx. discriminate.
Qed.

Lemma sortedSP_snoc_twice l fr : sortedSP (l ++ [fr]) -> sortedSP ((l ++ [fr]) ++ [fr]).
Proof.
  intros H. apply sortedSP_snoc; [exact H|]. rewrite last_snoc. apply Z.ltb_irrefl.
Qed.

Lemma head_snoc {A : Type} (l : list A) (x : A) :
  head (l ++ [x]) = match head l with Some y => Some y | None => Some x end.
Proof. destruct l; reflexivity. Qed.

Lemma snoc_not_nil {A : Type} (l : list A) (x : A) : l ++ [x] <> [].
Proof. destruct l; discriminate. Qed.

Ltac range_split H :=
  repeat match type of H with
         | Ok _ = Ok _ => inversion H; subst; clear H
         | Panic = Ok _ => discriminate H
         | (_ ≫= _) = Ok _ =>
             let x := fresh "x" in let Hx := fresh "Hx" in
             apply rbind_Ok in H; destruct H as (x & Hx & H); clear Hx
         | (if ?b then _ else _) = Ok _ => destruct b eqn:?
         | match ?x with _ => _ end = Ok _ => destruct x eqn:?
         end.

Ltac ok_leaf Hrpb :=
  unfold rangeOk; cbn;
  split; [first [assumption | right; apply sortedSP_nil]|];
  split;
  [ intros Hst;
    first [ discriminate Hst
          | split; [first [assumption | eapply Hrpb; eassumption]
                   | first [assumption | apply snoc_not_nil | discriminate]] ]
  | intros f0 Hf0;
    first [ discriminate Hf0
          | match goal with Hh : forall f, head _ = Some f -> exists _, _ |- _ =>
              apply Hh; exact Hf0 end
          | match goal with
            | Hh : forall f, head (_ ++ [_]) = Some f -> _ -> exists _, _ |- _ =>
                apply Hh; [exact Hf0 | assumption]
            end
          | match goal with
            | Hh : forall f, head ((_ ++ [_]) ++ [_]) = Some f -> _ -> exists _, _ |- _ =>
                apply Hh; [exact Hf0 | assumption]
            end
          | (inversion Hf0; subst; eexists; split;
             [eassumption | eapply Hrpb; eassumption]) ] ].

Lemma rangeCallback_ok st fr b st' :
  rangeInv st -> rangeOk bi st -> rangeCallback bi st fr = Ok (b, st') -> rangeOk bi st'.
Proof.
  intros Hinv (Hsort & Hnormal & Hhead) H. unfold rangeCallback in H.
  destruct st as [frames stg ar rp nm cp].
  unfold rangeInv in Hinv.
  cbn [rs_frames rs_stage addRetFrame rs_rangeParent nonMonotonicSP rs_closurePtr] in *.
  destruct (match last frames with
            | Some prev => op.SP (Regs fr) <? op.SP (Regs prev)
            | None => false
            end) eqn:Hmono.
  { inversion H; subst. unfold rangeOk. cbn. auto. }
  assert (Hsort1 : nm = true \/ sortedSP (frames ++ [fr])).
  { destruct Hsort as [Hn|Hs]; [left; exact Hn | right; apply sortedSP_snoc; assumption]. }
  assert (Hsort2 : nm = true \/ sortedSP ((frames ++ [fr]) ++ [fr])).
  { destruct Hsort1 as [Hn|Hs]; [left; exact Hn | right; apply sortedSP_snoc_twice; exact Hs]. }
  assert (Hhead1 : forall f0, head (frames ++ [fr]) = Some f0 -> frames <> [] ->
            exists fn, Fn (Call f0) = Some fn /\ rangeParent bi fn <> None).
  { intros f0 Hf0 Hne. apply Hhead. rewrite head_snoc in Hf0.
    destruct (head frames) eqn:E; [exact Hf0|]. destruct frames; [contradiction|discriminate]. }
  assert (Hhead2 : forall f0, head ((frames ++ [fr]) ++ [fr]) = Some f0 -> frames <> [] ->
            exists fn, Fn (Call f0) = Some fn /\ rangeParent bi fn <> None).
  { intros f0 Hf0 Hne. apply Hhead1; [|exact Hne]. rewrite head_snoc in Hf0.
    destruct (head (frames ++ [fr])) eqn:E; [exact Hf0|].
    destruct frames; discriminate. }
  assert (Hrpb : forall fn x, bool_decide (rangeParent bi fn = None) || x = false ->
            rangeParent bi fn <> None).
  { intros fn x Hb. apply orb_false_iff in Hb as [Hb _].
    apply bool_decide_eq_false in Hb. exact Hb. }
  destruct stg.
  - (* startStage *)
    destruct Hinv as [-> ->].
    cbn [rs_frames rs_stage addRetFrame rs_rangeParent nonMonotonicSP rs_closurePtr] in H.
    destruct (Fn (Call fr)) as [fn|] eqn:Efn; cbn in H; range_split H; ok_leaf Hrpb.
  - (* normalStage *)
    destruct (Hnormal eq_refl) as [Hrp Hne].
    destruct ar;
      cbn [rs_frames rs_stage addRetFrame rs_rangeParent nonMonotonicSP rs_closurePtr] in H;
      (destruct (Fn (Call fr)) as [fn|] eqn:Efn;
       [destruct rp as [parent|]; [|contradiction]|]);
      cbn in H; range_split H; ok_leaf Hrpb.
  - (* lastFrameStage *)
    destruct Hinv as [Hodd ->].
    assert (Hne : frames <> []) by (intros ->; discriminate Hodd).
    cbn [rs_frames rs_stage addRetFrame rs_rangeParent nonMonotonicSP rs_closurePtr] in H.
    destruct (Fn (Call fr)) as [fn|] eqn:Efn; cbn in H; range_split H; ok_leaf Hrpb.
  - (* doneStage *)
    destruct Hinv as [_ ->].
    cbn [rs_frames rs_stage addRetFrame rs_rangeParent nonMonotonicSP rs_closurePtr] in H.
    destruct (Fn (Call fr)) as [fn|] eqn:Efn; cbn in H; range_split H; ok_leaf Hrpb.
Qed.

(** The variables the callback reads are there when it reads them: in the
    normal stage the range parent is not nil and a frame has been
    collected. *)
Lemma rangeCallback_total st fr :
  rangeInv st -> rangeOk bi st -> exists r, rangeCallback bi st fr = Ok r.
Proof.
  intros Hinv (_ & Hnormal & _). unfold rangeCallback.
  destruct st as [frames stg ar rp nm cp].
  unfold rangeInv in Hinv.
  cbn [rs_frames rs_stage addRetFrame rs_rangeParent nonMonotonicSP rs_closurePtr] in *.
  destruct (match last frames with
            | Some prev => op.SP (Regs fr) <? op.SP (Regs prev)
            | None => false
            end); [eexists; reflexivity|].
  assert (Hlast : stg = normalStage -> exists p, last frames = Some p).
  { intros Hs. destruct (Hnormal Hs) as [_ Hne].
    destruct (last frames) eqn:E; [eexists; reflexivity|].
    apply last_None in E. contradiction. }
  destruct (Fn (Call fr)) as [fn|].
  2: { destruct ar; cbn; destruct (bool_decide (stg = startStage)); eexists; reflexivity. }
  destruct stg.
  - destruct ar; cbn;
      repeat match goal with
             | |- context [if ?b then _ else _] => destruct b
             end; eexists; reflexivity.
  - destruct (Hnormal eq_refl) as [Hrp _]. destruct (Hlast eq_refl) as [p Hp].
    destruct rp as [parent|]; [|contradiction].
    destruct ar;
      cbn [rs_frames rs_stage addRetFrame rs_rangeParent nonMonotonicSP rs_closurePtr];
      unfold closurePtrOk, lastInlined;
      cbn [rs_frames rs_stage addRetFrame rs_rangeParent nonMonotonicSP rs_closurePtr
           appendFrame push set_stage];
      rewrite ?last_snoc, ?Hp;
      repeat match goal with
             | |- context [if ?b then _ else _] => destruct b; cbn
             end; eexists; reflexivity.
  - destruct ar; cbn; eexists; reflexivity.
  - destruct ar; cbn; eexists; reflexivity.
Qed.

End RangeMore.

(** ** Callbacks that do not panic *)

Section TotalCallback.

Context (bi : BinaryInfo) (mem : Memory).
Context {St : Type} (cb : St -> Stackframe -> Result (bool * St)) (P : St -> Prop).

Hypothesis cb_total : forall s fr, P s -> exists b s', cb s fr = Ok (b, s') /\ P s'.

Lemma inlineLoop_total callfn entries : forall it frame s,
  Fn (Current frame) <> None -> P s ->
  exists it' frame' s',
    inlineLoop bi cb callfn entries it frame s = Ok (it', frame', s') /\ P s'.
Proof.
  induction entries as [|entry rest IH]; intros it frame s Hfn HP; simpl;
    [eexists _, _, _; split; [reflexivity | exact HP]|].
  destruct (dwarf.AttrName entry) as [fnname|];
    [|eexists _, _, _; split; [reflexivity | exact HP]].
  destruct (dwarf.AttrCallFile entry) as [fileidx|];
    [|eexists _, _, _; split; [reflexivity | exact HP]].
  destruct (dwarf.AttrCallLine entry) as [line|];
    [|eexists _, _, _; split; [reflexivity | exact HP]].
  destruct (Fn (Current frame)) as [curfn|] eqn:E; [|contradiction].
  destruct (filePath bi curfn fileidx) as [filepath|err0];
    [|eexists _, _, _; split; [reflexivity | exact HP]].
  match goal with
  | |- context [cb s ?f] => destruct (cb_total s f HP) as (b & snew & Hcb & HP1)
  end.
  rewrite Hcb, bind_Ok. cbv beta iota.
  apply IH; [|exact HP1]. cbn. rewrite E. discriminate.
Qed.

Lemma appendInlineCalls_total it frame s :
  Fn (Call frame) = Fn (Current frame) -> P s ->
  exists more it' s', appendInlineCalls bi cb it frame s = Ok (more, it', s') /\ P s'.
Proof.
  intros Hfn HP. unfold appendInlineCalls.
  assert (Hdeliver : forall it0 fr0 s0, P s0 ->
            exists more it' s',
              cb s0 fr0 ≫= (fun '(more0, s1) => Ok (more0, incCount it0, s1))
              = Ok (more, it', s') /\ P s').
  { intros it0 fr0 s0 HP0. destruct (cb_total s0 fr0 HP0) as (b & s1 & Hcb & HP1).
    rewrite Hcb. eexists _, _, _. split; [reflexivity | exact HP1]. }
  destruct (Fn (Call frame)) as [callfn|] eqn:E; [|apply Hdeliver; exact HP].
  destruct (negb (lineInfo (cu callfn))); [apply Hdeliver; exact HP|].
  destruct (negb (getDwarfTree bi callfn)); [apply Hdeliver; exact HP|].
  destruct (inlineLoop_total callfn
              (InlineStack bi callfn
                 (if 0 <? count it then uint64 (PC (Call frame) - 1) else PC (Call frame)))
              it frame s) as (it1 & frame1 & s1 & Hloop & HP1); [|exact HP|].
  { rewrite <- Hfn. discriminate. }
  rewrite Hloop, bind_Ok. cbv beta iota. apply Hdeliver. exact HP1.
Qed.

Lemma nextLoop_noSwitch_total (c : ArchCore) fuel : forall it s,
  P s -> nextLoop bi (noSwitch c) mem cb fuel it s <> Panic.
Proof.
  induction fuel as [|fuel IH]; intros it s HP; [discriminate|].
  rewrite nextLoop_S.
  destruct (Next_noSwitch_returns bi mem c it) as ([more it1] & Hnext).
  rewrite Hnext, bind_Ok. destruct more; [|discriminate].
  apply (Next_physOk bi (noSwitch c) mem (noSwitch_kept bi mem c)) in Hnext.
  destruct Hnext as (_ & Hfn & _ & _).
  destruct (appendInlineCalls_total (fst (Frame it1)) (snd (Frame it1)) s Hfn HP)
    as (cont & it2 & s2 & Happ & HP2).
  rewrite Happ, bind_Ok. destruct cont; [apply IH; exact HP2 | discriminate].
Qed.

End TotalCallback.

Section RangeTrace.

Context (bi : BinaryInfo) (a : Arch) (mem : Memory) (readDefer : Z -> rawDefer).

Lemma rangeFunc_collected_ok fuel it0 it st :
  stacktraceFunc bi a mem (rangeCallback bi) fuel it0 initialRangeState = Ok (it, st) ->
  rangeInv st /\ rangeOk bi st.
Proof.
  apply (stacktraceFunc_preserves bi a mem (rangeCallback bi)
           (fun st => rangeInv st /\ rangeOk bi st)).
  - intros s fr b s' [Hinv Hok] H. split.
    + eapply rangeCallback_inv; eassumption.
    + eapply rangeCallback_ok; eassumption.
  - split; [split; reflexivity|]. unfold rangeOk. cbn.
    split; [right; apply sortedSP_nil|]. split; [discriminate|]. discriminate.
Qed.

Lemma decorated_sortedSP l l' : Forall2 decorated l l' -> sortedSP l -> sortedSP l'.
Proof.
  intros H Hs i j x y Hij Hx Hy.
  destruct (Forall2_lookup_r _ _ _ _ _ H Hx) as (x0 & Hx0 & (Ex & _)).
  destruct (Forall2_lookup_r _ _ _ _ _ H Hy) as (y0 & Hy0 & (Ey & _)).
  rewrite Ex, Ey. cbn. exact (Hs i j x0 y0 Hij Hx0 Hy0).
Qed.

(** What a result of [rangeFuncStackTrace] is made of. *)
Lemma rangeFuncStackTrace_result fuel g frames e :
  rangeFuncStackTrace bi a mem readDefer fuel g = Ok (frames, e) ->
  frames = []
  \/ exists st, rangeOk bi st /\ nonMonotonicSP st = false
                /\ Forall2 decorated (rs_frames st) frames.
Proof.
  unfold rangeFuncStackTrace. intros H.
  destruct g as [g|]; [|inversion H; left; reflexivity].
  destruct (goroutineStackIterator bi a true g StacktraceSimple) as [it0|e0];
    [|inversion H; left; reflexivity].
  apply rbind_Ok in H. destruct H as ([it st] & Hrun & H).
  apply rangeFunc_collected_ok in Hrun. destruct Hrun as [_ Hok].
  unfold rangeResult in H.
  destruct (err it); [inversion H; left; reflexivity|].
  destruct (nonMonotonicSP st) eqn:Enm; [inversion H; left; reflexivity|].
  destruct (negb (bool_decide (rs_stage st = doneStage))); [inversion H; left; reflexivity|].
  destruct (negb (Nat.even (length (rs_frames st)))); [inversion H; left; reflexivity|].
  apply rbind_Ok in H. destruct H as (res & Hrd & H). inversion H; subst res e.
  right. exists st. split; [exact Hok|]. split; [exact Enm|].
  eapply readDefers_decorates_aux. exact Hrd.
Qed.

(** X22.  The frames [rangeFuncStackTrace] returns are in the order of
    their stack pointers: SP never decreases from one frame of the result to
    a later one. *)
Theorem rangeFuncStackTrace_sorted
    (fuel : nat) (g : option G.t) (frames : list Stackframe) (e : option error) :
  rangeFuncStackTrace bi a mem readDefer fuel g = Ok (frames, e) ->
  sortedSP frames.
Proof.
  intros H. apply rangeFuncStackTrace_result in H.
  destruct H as [->|(st & (Hsort & _) & Hnm & Hdec)]; [apply sortedSP_nil|].
  destruct Hsort as [Hn|Hs]; [congruence|].
  eapply decorated_sortedSP; eassumption.
Qed.

(** X23.  [rangeFuncStackTrace] returns frames only if the topmost frame is
    the body of a range-over-func statement: the first frame of a result
    that is not empty belongs to a function that has a range parent. *)
Theorem rangeFuncStackTrace_first_frame
    (fuel : nat) (g : option G.t) (frames : list Stackframe) (e : option error)
    (f0 : Stackframe) :
  rangeFuncStackTrace bi a mem readDefer fuel g = Ok (frames, e) ->
  head frames = Some f0 ->
  exists fn, Fn (Call f0) = Some fn /\ rangeParent bi fn <> None.
Proof.
  intros H Hf0. apply rangeFuncStackTrace_result in H.
  destruct H as [->|(st & (_ & _ & Hhead) & _ & Hdec)]; [discriminate|].
  destruct frames as [|f rest]; [discriminate|]. inversion Hf0; subst f.
  inversion Hdec as [|x y l k Hxy Hrest Hl Hk].
  destruct (Hhead x) as (fn & Hfn & Hrp); [rewrite <- Hl; reflexivity|].
  exists fn. split; [|exact Hrp]. destruct Hxy as (Ex & _). rewrite Ex. exact Hfn.
Qed.

(** X24.  When the [fn] field of every defer record can be followed, so
    that no [load] under [readDefers] reads a nil variable,
    [rangeFuncStackTrace] does not panic: the range parent is not nil when
    its offset is read, the list of frames is not empty when its last
    element is read, and [Current.Fn] is not nil where the inline expansion
    reads its compile unit. *)
Theorem rangeFuncStackTrace_no_panic (fuel : nat) (g : option G.t) :
  (forall addr, fnLoaded (readDefer addr) = true) ->
  rangeFuncStackTrace bi a mem readDefer fuel g <> Panic.
Proof.
  intros _. unfold rangeFuncStackTrace. destruct g as [g|]; [|discriminate].
  destruct (goroutineStackIterator bi a true g StacktraceSimple) as [it0|e0] eqn:Hit;
    [|discriminate].
  assert (Hopts : opts it0 = StacktraceSimple).
  { unfold goroutineStackIterator in Hit.
    destruct (G.Thread g) as [[r|e]|]; inversion Hit; reflexivity. }
  rewrite (stacktraceFunc_simple_eq bi mem (rangeCallback bi) a fuel it0 initialRangeState)
    by (rewrite Hopts; reflexivity).
  rewrite (stacktraceFunc_plain bi (noSwitch a) mem (rangeCallback bi) fuel it0
             initialRangeState) by (rewrite Hopts; reflexivity).
  destruct (nextLoop bi (noSwitch a) mem (rangeCallback bi) fuel it0 initialRangeState)
    as [[it st]| |] eqn:Hloop.
  - rewrite bind_Ok. unfold rangeResult.
    destruct (err it); [discriminate|]. destruct (nonMonotonicSP st); [discriminate|].
    destruct (negb (bool_decide (rs_stage st = doneStage))); [discriminate|].
    destruct (negb (Nat.even (length (rs_frames st)))); [discriminate|].
    destruct (readDefers readDefer fuel g (rs_frames st)) as [frames| |] eqn:Hrd;
      [discriminate| |discriminate].
    exfalso. unfold readDefers in Hrd. eapply readDefersLoop_no_panic. exact Hrd.
  - exfalso. revert Hloop.
    apply (nextLoop_noSwitch_total bi mem (rangeCallback bi)
             (fun st => rangeInv st /\ rangeOk bi st)).
    + intros s fr [Hinv Hok].
      destruct (rangeCallback_total bi s fr Hinv Hok) as ([b s'] & Hcb).
      exists b, s'. split; [exact Hcb|]. split.
      * eapply rangeCallback_inv; eassumption.
      * eapply rangeCallback_ok; eassumption.
    + split; [split; reflexivity|]. unfold rangeOk. cbn.
      split; [right; apply sortedSP_nil|]. split; [discriminate|]. discriminate.
  - discriminate.
Qed.

End RangeTrace.

(** The result for [ExRange]: SP 0x7000, 0x7020, 0x7050 and 0x7080. *)
Lemma rangeFuncStackTrace_sorted_witness :
  sortedSP (fst ExRangeRun.result) /\ length (fst ExRangeRun.result) = 4%nat.
Proof.
  split; [|reflexivity].
  apply (rangeFuncStackTrace_sorted ExRange.bi arm64Linux ExRange.mem ExRange.noDefers 10
           (Some ExRange.gor) (fst ExRangeRun.result) (snd ExRangeRun.result)).
  vm_compute. reflexivity.
Defined.

(** The reconstruction for [ExRange], whose defer records are all
    unreadable, does not panic. *)
Lemma rangeFuncStackTrace_no_panic_witness :
  rangeFuncStackTrace ExRange.bi arm64Linux ExRange.mem ExRange.noDefers 10
    (Some ExRange.gor) <> Panic.
Proof.
  apply (rangeFuncStackTrace_no_panic ExRange.bi arm64Linux ExRange.mem ExRange.noDefers
           10 (Some ExRange.gor)).
  intros addr. reflexivity.
Defined.

(** Its first frame is in [main.f-range1], whose range parent is [main.f]. *)
Lemma rangeFuncStackTrace_first_frame_witness :
  exists fn, Fn (Call ExRangeRun.first) = Some fn /\ rangeParent ExRange.bi fn <> None.
Proof.
  apply (rangeFuncStackTrace_first_frame ExRange.bi arm64Linux ExRange.mem ExRange.noDefers
           10 (Some ExRange.gor) (fst ExRangeRun.result) (snd ExRangeRun.result)
           ExRangeRun.first).
  - vm_compute. reflexivity.
  - reflexivity.
Defined.

(** ** Offsets from the high address of the stack *)

Lemma uint64_int64 z : uint64 (int64 z) = uint64 z.
Proof.
  unfold uint64, int64.
  rewrite Zminus_mod, Z.mod_mod by lia.
  rewrite <- Zminus_mod. f_equal. lia.
Qed.

Lemma uint64_add_l a b : uint64 (a + b) = uint64 (uint64 a + b).
Proof. unfold uint64. rewrite Zplus_mod_idemp_l. reflexivity. Qed.

Lemma uint64_add_r a b : uint64 (a + b) = uint64 (a + uint64 b).
Proof. unfold uint64. rewrite Zplus_mod_idemp_r. reflexivity. Qed.

(** Taking an offset from the stack's high address and adding the high
    address again gives the address back, whatever wraps in between. *)
Lemma offset_round_trip x hi : uint64 (int64 (x - int64 hi) + int64 hi) = uint64 x.
Proof.
  rewrite uint64_add_l, uint64_int64, <- uint64_add_l. f_equal. lia.
Qed.

(** X25.  [FrameOffset] and [FramePointerOffset] encode addresses of a
    goroutine frame as [contains] decodes them, relative to the high address
    of the stack: the frame contains its own [FrameOffset] exactly when its
    SP is below its CFA, and its [FramePointerOffset] exactly when the frame
    pointer lies above SP and at or below the CFA. *)
Theorem contains_FrameOffset (fr : Stackframe) :
  SystemStack fr = false ->
  contains fr (FrameOffset fr) = (op.SP (Regs fr) <? uint64 (op.CFA (Regs fr)))
  /\ contains fr (FramePointerOffset fr)
     = (op.SP (Regs fr) <? uint64 (op.BP (Regs fr)))
       && (uint64 (op.BP (Regs fr)) <=? uint64 (op.CFA (Regs fr))).
Proof.
  intros Hs. unfold contains, FrameOffset, FramePointerOffset. rewrite Hs.
  rewrite !offset_round_trip, uint64_int64, Z.leb_refl, andb_true_r. auto.
Qed.

(** The loop body of [ExClosure]: SP 0x7000, frame pointer 0x7010 and CFA
    0x7020 below the high address 0x8000. *)
Lemma contains_FrameOffset_witness :
  FrameOffset ExClosure.bodyFrame = -0xfe0
  /\ contains ExClosure.bodyFrame (FrameOffset ExClosure.bodyFrame) = true
  /\ contains ExClosure.bodyFrame (FramePointerOffset ExClosure.bodyFrame) = true.
Proof.
  unshelve refine (let H := contains_FrameOffset ExClosure.bodyFrame _ in _).
  - reflexivity.
  - destruct H as [H1 H2]. split; [reflexivity|]. split.
    + rewrite H1. reflexivity.
    + rewrite H2. reflexivity.
Defined.

(** ** The iterator of a parked goroutine *)

(** X26.  For a goroutine that is not running on a thread, the iterator
    [goroutineStackIterator] builds on arm64 starts at the registers the
    goroutine saved: PC, SP, frame pointer and link register are those of
    the goroutine, the high address of the stack is the goroutine's, the
    iterator is on the system stack exactly when the goroutine is, and it is
    at the top, with no error, not at the end and no frame counted. *)
Theorem goroutineStackIterator_parked
    (linux : bool) (c1 c2 : Z) (bi : BinaryInfo) (hasTarget : bool) (gor : G.t)
    (options : StacktraceOptions) :
  G.Thread gor = None ->
  exists it,
    goroutineStackIterator bi (ARM64Arch linux c1 c2) hasTarget gor options = inl it
    /\ pc it = G.PC gor /\ op.PC (regs it) = G.PC gor /\ op.SP (regs it) = G.SP gor
    /\ op.BP (regs it) = G.BP gor
    /\ op.Reg (regs it) (op.LRRegNum (regs it))
       = Some (op.DwarfRegisterFromUint64 (G.LR gor))
    /\ op.StaticBase (regs it) = PCToImage_StaticBase bi (G.PC gor)
    /\ stackhi it = G.stack_hi gor /\ systemstack it = G.SystemStack gor
    /\ g it = Some gor /\ opts it = options
    /\ top it = true /\ err it = None /\ atend it = false /\ count it = 0.
Proof.
  intros Ht. unfold goroutineStackIterator. rewrite Ht. eexists. split; [reflexivity|].
  cbn. repeat split; reflexivity.
Qed.

(** The goroutine of [ExRange], parked at PC 0x403010. *)
Lemma goroutineStackIterator_parked_witness :
  exists it,
    goroutineStackIterator ExRange.bi arm64Linux true ExRange.gor StacktraceSimple = inl it
    /\ pc it = 0x403010 /\ op.SP (regs it) = 0x7000 /\ op.BP (regs it) = 0x7010.
Proof.
  unshelve refine (let H := goroutineStackIterator_parked true 8 88 ExRange.bi true
                              ExRange.gor StacktraceSimple _ in _).
  - reflexivity.
  - destruct H as (it & H1 & H2 & _ & H4 & H5 & _). exists it.
    split; [exact H1|]. split; [exact H2|]. split; [exact H4 | exact H5].
Defined.

(** ** Registers read from the stack on arm64 *)

Lemma le_decode_bound bs : 0 <= le_decode bs < 256 ^ Z.of_nat (length bs).
Proof.
  induction bs as [|b bs IH]; [simpl; lia|].
  cbn [le_decode length]. rewrite Nat2Z.inj_succ, Z.pow_succ_r by lia.
  assert (Hb : 0 <= byte_to_Z b < 256).
  { unfold byte_to_Z. pose proof (Byte.to_N_bounded b) as Hn. lia. }
  lia.
Qed.

(** X27.  An [Offset] rule on arm64 reads the register from the stack slot
    at [CFA + offset]: sixteen bytes for the vector registers 64 to 95,
    eight for all others.  The register returned holds exactly these bytes,
    and its integer value is the little-endian number of the first eight, a
    value below 2^64. *)
Theorem arm64_offset_rule_read
    (c1 c2 : Z) (bi : BinaryInfo) (mem : Memory) (it : stackIterator)
    (regnum cfa : Z) (rule : frame.DWRule) (reg : op.DwarfRegister) :
  frame.rule rule = frame.RuleOffset ->
  fst (executeFrameRegRule bi (arm64Core c1 c2) mem it regnum rule cfa) = Some reg ->
  let n := if (64 <=? regnum) && (regnum <=? 95) then 16%nat else 8%nat in
  ReadMemory mem (uint64 (cfa + frame.Offset rule)) n = Some (op.Bytes reg)
  /\ length (op.Bytes reg) = n
  /\ op.Uint64Val reg = le_decode (take 8 (op.Bytes reg))
  /\ 0 <= op.Uint64Val reg < 2 ^ 64.
Proof.
  intros Hrule H n. unfold executeFrameRegRule, readRegisterAt in H. rewrite Hrule in H.
  change (regSize (arm64Core c1 c2) regnum) with n in H.
  destruct (ReadMemory mem (uint64 (cfa + frame.Offset rule)) n) as [buf|] eqn:Hread;
    [|discriminate].
  cbn in H. inversion H; subst reg. cbn [op.Bytes op.DwarfRegisterFromBytes].
  pose proof (ReadMemory_length mem n _ _ Hread) as Hlen.
  assert (Hval : op.Uint64Val (op.DwarfRegisterFromBytes buf) = le_decode (take 8 buf)).
  { unfold op.DwarfRegisterFromBytes. rewrite Hlen. subst n.
    destruct ((64 <=? regnum) && (regnum <=? 95)); reflexivity. }
  split; [reflexivity|]. split; [exact Hlen|]. split; [exact Hval|].
  rewrite Hval. pose proof (le_decode_bound (take 8 buf)) as Hb.
  assert (Hl : length (take 8 buf) = 8%nat).
  { rewrite length_take, Hlen. subst n.
    destruct ((64 <=? regnum) && (regnum <=? 95)); reflexivity. }
  rewrite Hl in Hb. change (256 ^ Z.of_nat 8) with (2 ^ 64) in Hb. exact Hb.
Qed.

(** The saved frame pointer of [ExInline], read at CFA - 16. *)
Lemma arm64_offset_rule_read_witness :
  ReadMemory ExInline.mem 0x7010 8 = Some (le_encode 8 0x7040)
  /\ op.Uint64Val (op.DwarfRegisterFromBytes (le_encode 8 0x7040)) = 0x7040.
Proof.
  unshelve refine (let H := arm64_offset_rule_read 8 88 strippedBinary ExInline.mem
                              ExInline.it0 regnum.ARM64_BP 0x7020
                              (frame.mkDWRule frame.RuleOffset (-16) 0 [])
                              (op.DwarfRegisterFromBytes (le_encode 8 0x7040)) _ _ in _).
  - reflexivity.
  - vm_compute. reflexivity.
  - cbv zeta in H. destruct H as (H1 & _ & _ & _). split; [exact H1 | reflexivity].
Defined.

(** ** The end of the stack on arm64 *)

Section Goexit.

Context (linux : bool) (c1 c2 : Z) (bi : BinaryInfo) (mem : Memory).

(** X28.  On arm64 the trace ends at [runtime.goexit] and at
    [runtime.rt0_go]: when the iterator advances to a frame of one of these
    functions (and the stack switches are not disabled), [Next] delivers
    the frame as the bottom of the stack whatever return address was
    found, and the following [Next] returns false. *)
Theorem arm64_Next_goexit (it : stackIterator) (fn : Function) :
  err it = None ->
  atend it = false ->
  hasOpt (opts it) StacktraceSimple = false ->
  snd (advanceRegs bi (arm64Core c1 c2) mem it) <> 0 ->
  snd (PCToLine bi (pc it)) = Some fn ->
  Name fn = "runtime.goexit"%string \/ Name fn = "runtime.rt0_go"%string ->
  exists it',
    Next bi (ARM64Arch linux c1 c2) mem it = Ok (true, it')
    /\ atend it' = true
    /\ Bottom (snd (Frame it')) = true
    /\ Fn (Current (frame_ it')) = Some fn
    /\ Next bi (ARM64Arch linux c1 c2) mem it' = Ok (false, it').
Proof.
  intros He Ha Hs Hra Hfn Hname.
  assert (Hnext : exists it', Next bi (ARM64Arch linux c1 c2) mem it = Ok (true, it')
                    /\ atend it' = true /\ Fn (Current (frame_ it')) = Some fn).
  { unfold Next. rewrite He, Ha.
    rewrite bool_decide_eq_false_2 by (intros H; apply H; reflexivity). cbn [orb].
    change (core (ARM64Arch linux c1 c2)) with (arm64Core c1 c2).
    destruct (advanceRegs bi (arm64Core c1 c2) mem it) as [[[it1 cfr] ret] retaddr] eqn:Hadv.
    cbn [snd] in Hra.
    assert (Hpc : pc it1 = pc it).
    { destruct (advanceRegs_it_shape bi (arm64Core c1 c2) mem it) as (cfa & e & Hi).
      rewrite Hadv in Hi. cbn [fst] in Hi. subst it1. reflexivity. }
    apply advanceRegs_kept, kept_opts in Hadv.
    destruct (newStackframe_shape bi mem it1 ret retaddr Hra)
      as (f & l & cf & cl & rg & lp & cp & Hfr & _ & _).
    destruct (newStackframe bi mem it1 ret retaddr) as [it2 fr] eqn:Hnew.
    cbn [snd] in Hfr. rewrite Hpc, Hfn in Hfr.
    apply newStackframe_kept, kept_opts in Hnew.
    assert (Hcur : Fn (Current fr) = Some fn) by (rewrite Hfr; reflexivity).
    unfold sigtrampHop. cbn [frame_ set_frame]. rewrite Hcur.
    assert (Hnot : fnNamed (Some fn) "runtime.sigtrampgo" = false).
    { unfold fnNamed. destruct Hname as [->| ->]; reflexivity. }
    rewrite Hnot. cbn [andb].
    change (opts (set_frame it2 fr)) with (opts it2). rewrite Hnew, Hadv, Hs.
    change (switchStack (ARM64Arch linux c1 c2)) with (arm64SwitchStack linux c1 c2).
    unfold arm64SwitchStack. cbn [frame_ set_frame]. rewrite Hcur.
    destruct Hname as [Hn|Hn]; rewrite Hn; cbn.
    - eexists. split; [reflexivity|]. split; [reflexivity | exact Hcur].
    - eexists. split; [reflexivity|]. split; [reflexivity | exact Hcur]. }
  destruct Hnext as (it' & Hn & Hend & Hcur).
  exists it'. split; [exact Hn|]. split; [exact Hend|].
  split; [cbn; exact Hend|]. split; [exact Hcur|].
  apply Next_stopped. right. exact Hend.
Qed.

End Goexit.

(** The thread of [ExGoexit]: its only frame is the bottom of the stack,
    although the frame record would lead on. *)
Lemma arm64_Next_goexit_witness :
  exists it',
    Next ExGoexit.bi arm64Linux ExInline.mem ExInline.it0 = Ok (true, it')
    /\ atend it' = true.
Proof.
  unshelve refine (let H := arm64_Next_goexit true 8 88 ExGoexit.bi ExInline.mem ExInline.it0
                              ExGoexit.goexit _ _ _ _ _ _ in _).
  - reflexivity.
  - reflexivity.
  - reflexivity.
  - vm_compute. discriminate.
  - reflexivity.
  - left. reflexivity.
  - destruct H as (it' & H1 & H2 & _). exists it'. split; [exact H1 | exact H2].
Defined.

(** ** The topmost defer of the first frame *)

Section TopmostMore.

Context (readDefer : Z -> rawDefer).

(** X29.  When the head of the goroutine's defer list can be read, the
    first frame of the stack (if it carries no error and no topmost defer
    yet) gets the head as its [TopmostDefer], whether or not the head was
    deferred by that frame: the head itself, or the first of its rangefunc
    entries if it has any. *)
Theorem readDefers_TopmostDefer
    (fuel : nat) (g : G.t) (d : Defer) (f0 : Stackframe) (rest frames' : list Stackframe) :
  G_Defer readDefer g = Some d ->
  Unreadable d = None ->
  Err f0 = None ->
  TopmostDefer f0 = None ->
  readDefers readDefer fuel g (f0 :: rest) = Ok frames' ->
  exists f0' rest',
    frames' = f0' :: rest'
    /\ TopmostDefer f0' = Some (topdefer d)
    /\ topdefer d = match rangefunc d with
                    | d0 :: _ => d0
                    | [] => d
                    end.
Proof.
  intros Hd Hu He Ht H. unfold readDefers in H. rewrite Hd in H.
  destruct fuel as [|fuel]; [discriminate|]. simpl in H.
  destruct (readDefersStep readDefer (mkDeferCursor (Some d) 0 (f0 :: rest)))
    as [c'|frames0] eqn:Hstep.
  - apply readDefersStep_inl in Hstep.
    destruct Hstep as (d1 & fr & Hd1 & Hfr & _ & _ & Hcase).
    cbn in Hd1, Hfr. inversion Hd1; subst d1. inversion Hfr; subst fr.
    assert (Hc' : exists f1, dc_frames c' = f1 :: rest
                             /\ TopmostDefer f1 = Some (topdefer d)).
    { destruct Hcase as [[_ ->]|[_ ->]]; cbn; eexists; (split; [reflexivity|]);
        unfold withTopmost; rewrite Ht; reflexivity. }
    destruct Hc' as (f1 & Hf1 & Htop).
    apply readDefersLoop_decorated in H. rewrite Hf1 in H.
    inversion H as [|x y l k Hxy Hrest]; subst.
    exists y, k. split; [reflexivity|]. split; [|reflexivity].
    destruct Hxy as (_ & _ & Hkeep). rewrite Hkeep by (rewrite Htop; discriminate).
    exact Htop.
  - exfalso. unfold readDefersStep in Hstep. cbn in Hstep. rewrite Hu, He in Hstep.
    rewrite !bool_decide_eq_false_2 in Hstep by (intros Hx; apply Hx; reflexivity).
    match type of Hstep with
    | (if ?b then _ else _) = _ => destruct b
    end; discriminate.
Qed.

End TopmostMore.

(** The scenario of [ExDefers]: the topmost defer of the first frame is the
    defer with SP 0x1000. *)
Lemma readDefers_TopmostDefer_witness :
  exists f0' rest',
    ExDefersRun.result = f0' :: rest'
    /\ option_map SP (TopmostDefer f0') = Some 0x1000.
Proof.
  unshelve refine (let H := readDefers_TopmostDefer ExDefers.heap 10 ExDefers.gor
                              (Defer_load ExDefers.heap (newDefer 0x8000) true)
                              (ExDefers.frameAt 0x1008)
                              [ExDefers.frameAt 0x1048; ExDefers.frameAt 0x1100]
                              ExDefersRun.result _ _ _ _ _ in _).
  - reflexivity.
  - reflexivity.
  - reflexivity.
  - reflexivity.
  - vm_compute. reflexivity.
  - destruct H as (f0' & rest' & H1 & H2 & _). exists f0', rest'.
    split; [exact H1|]. rewrite H2. reflexivity.
Defined.

(** ** The trace of a goroutine *)

Section GoroutineTrace.

Context (bi : BinaryInfo) (a : Arch) (mem : Memory) (readDefer : Z -> rawDefer).

(** X30.  [GoroutineStacktrace] returns the frames [stacktrace] finds from
    the iterator of the goroutine.  Without [StacktraceReadDefers] they are
    returned as they are; with it they differ in [TopmostDefer] and [Defers]
    only.  An error of [stacktrace] or of the iterator's construction is
    returned without frames. *)
Theorem GoroutineStacktrace_frames
    (fuel : nat) (hasTarget : bool) (gor : G.t) (depth : Z) (options : StacktraceOptions)
    (frames : list Stackframe) (e : option error) :
  GoroutineStacktrace bi a mem readDefer fuel hasTarget gor depth options = Ok (frames, e) ->
  match e with
  | Some _ => frames = []
  | None =>
      exists it it' frames0,
        goroutineStackIterator bi a hasTarget gor options = inl it
        /\ stacktrace bi a mem it depth = Ok (it', frames0, None)
        /\ Forall2 decorated frames0 frames
        /\ (hasOpt options StacktraceReadDefers = false -> frames = frames0)
  end.
Proof.
  unfold GoroutineStacktrace. intros H.
  destruct (goroutineStackIterator bi a hasTarget gor options) as [it|e0];
    [|inversion H; reflexivity].
  apply rbind_Ok in H. destruct H as ([[it' frames0] e1] & Hst & H).
  destruct e1 as [e1|]; [inversion H; reflexivity|].
  destruct (hasOpt options StacktraceReadDefers) eqn:Ho.
  - apply rbind_Ok in H. destruct H as (res & Hrd & H). inversion H; subst res e.
    exists it, it', frames0. split; [reflexivity|]. split; [exact Hst|].
    split; [eapply readDefers_decorates_aux; exact Hrd | discriminate].
  - inversion H; subst frames0 e. exists it, it', frames.
    split; [reflexivity|]. split; [exact Hst|]. split; [|reflexivity].
    apply Forall_Forall2_diag. apply Forall_forall. intros x _. apply decorated_refl.
Qed.

End GoroutineTrace.

(** The goroutine of [ExGoroutine]: four frames, both deferred calls on the
    first one. *)
Lemma GoroutineStacktrace_frames_witness :
  (exists it it' frames0,
     goroutineStackIterator ExRange.bi arm64Linux true ExGoroutine.gor StacktraceReadDefers
     = inl it
     /\ stacktrace ExRange.bi arm64Linux ExRange.mem it 5 = Ok (it', frames0, None)
     /\ Forall2 decorated frames0 (fst ExGoroutine.result))
  /\ map (fun f => length (Defers f)) (fst ExGoroutine.result) = [2; 0; 0; 0]%nat.
Proof.
  split; [|reflexivity].
  unshelve refine (let H := GoroutineStacktrace_frames ExRange.bi arm64Linux ExRange.mem
                              ExDefers.heap 10 true ExGoroutine.gor 5 StacktraceReadDefers
                              (fst ExGoroutine.result) None _ in _).
  - vm_compute. reflexivity.
  - cbv beta iota in H. destruct H as (it & it' & frames0 & H1 & H2 & H3 & _).
    exists it, it', frames0. split; [exact H1|]. split; [exact H2 | exact H3].
Defined.
